(** * py_linq: a shallow embedding of [py_linq/py_linq.py]

    The Python classes of the module are embedded as Rocq records and
    their methods as functions that pass the state of the objects they
    touch explicitly.  Every [Enumerable] owns one [itertools.cycle]
    object, [_cycle], that all of its traversals draw from; the embedding
    keeps that object inside the node, so that what one traversal draws is
    visible to the next one.

    The first part of the file holds the definitions, the second part the
    lemmas and theorems about them. *)

From Stdlib Require Import Floats.
From Stdlib Require Import List ZArith Lia Bool Arith PeanoNat.
From Stdlib Require Import Permutation Sorted.
From Stdlib Require String Ascii DecimalString.
Import ListNotations.
Import String.StringSyntax.
Delimit Scope string_scope with string.

Set Implicit Arguments.

(** ** Exceptions and outcomes *)

(** The exception classes the module raises: the builtins [IndexError],
    [TypeError], [ValueError] and [StopIteration], and the four classes of
    [py_linq.exceptions]. *)
Inductive exn : Type :=
| IndexError
| TypeError
| ValueError
| StopIteration
| NoElementsError
| NoMatchingElement
| NullArgumentError
| MoreThanOneMatchingElement.

(** The outcome of a call: a returned value or a raised exception. *)
Inductive outcome (X : Type) : Type :=
| Return (x : X)
| Raise (e : exn).

Arguments Return {X} x.
Arguments Raise {X} e.

(** ** Stateful computations

    A method is a function of the state [S] of its receiver.  It gives a
    value and the new state, or [None] when the bound that the model puts
    on the number of loop iterations (the fuel) is reached before the
    Python loop ends. *)

Definition M (S X : Type) : Type := S -> option (X * S).

Definition ret {S X : Type} (x : X) : M S X := fun s => Some (x, s).

Definition bind {S X Y : Type} (m : M S X) (k : X -> M S Y) : M S Y :=
  fun s => match m s with
           | Some (x, s') => k x s'
           | None => None
           end.

Notation "x <- m ;; k" := (bind m (fun x => k))
  (at level 61, m at next level, right associativity).

(** Run a computation on one attribute of an object. *)
Definition on_attr {S T X : Type} (get : S -> T) (set : S -> T -> S) (m : M T X) : M S X :=
  fun s => match m (get s) with
           | Some (x, t) => Some (x, set s t)
           | None => None
           end.

(** [enumerate(xs)]. *)
Definition enumerate {X : Type} (xs : list X) : list (nat * X) :=
  combine (seq 0 (length xs)) xs.

(** [float(z)] for an [int]: the nearest double, ties to even. *)
Definition float_of_int (z : Z) : PrimFloat.float :=
  FloatOps.SF2Prim (SpecFloat.binary_normalize FloatOps.prec FloatOps.emax z 0 false).

(** ** [itertools.cycle] *)

Section Cycle.

(** [E] is the type of the elements, [I] the state of the iterator the
    cycle was built from and [W] the state of the objects that iterator
    draws from when it is advanced. *)
Variables E I W : Type.

(** A cycle object: the iterator it still reads on its first pass ([None]
    once that iterator is exhausted), the elements saved so far and the
    replay index. *)
Record cycle : Type := mkCycle {
  it : option I;
  saved : list E;
  index : nat
}.

(** [cycle(iterable)]: the iterator is taken at construction, nothing is
    read yet. *)
Definition cycle_new (i : I) : cycle := mkCycle (Some i) [] 0.

(** The replay branch of [next]; [None] stands for [StopIteration], which
    a cycle raises only when nothing was saved. *)
Definition replay (c : cycle) : option E * cycle :=
  match nth_error (saved c) (index c) with
  | None => (None, c)
  | Some x =>
      (Some x,
       mkCycle (it c) (saved c)
               (if length (saved c) <=? S (index c) then 0 else S (index c)))
  end.

(** One step of the underlying iterator: the element or [None] at its
    end, its new state and the new state of what it draws from. *)
Variable it_next : I -> M W (option E * I).

(** [next(c)]: read the underlying iterator and save what it gives; once
    it is exhausted, drop it and replay the saved elements in a loop. *)
Definition cycle_next (c : cycle) : M W (option E * cycle) :=
  match it c with
  | Some i =>
      r <- it_next i ;;
      match r with
      | (Some x, i') => ret (Some x, mkCycle (Some i') (saved c ++ [x]) (index c))
      | (None, _) => ret (replay (mkCycle None (saved c) (index c)))
      end
  | None => ret (replay c)
  end.

End Cycle.

Arguments mkCycle {E I} it saved index.
Arguments cycle_new {E I} i.
Arguments replay {E I} c.

(** ** The base class [Enumerable], built over a list *)

Section Core.

(** Elements are Python objects: [None : elem] is Python's [None] and
    [Some a] any other object. *)
Variable A : Type.

Definition elem : Type := option A.

(** [x is None]. *)
Definition is_None (x : elem) : bool :=
  match x with
  | None => true
  | Some _ => false
  end.

(** A list iterator: the elements it has not given yet. *)
Definition list_next (l : list elem) : M unit (option elem * list elem) :=
  match l with
  | [] => ret (None, [])
  | x :: t => ret (Some x, t)
  end.

(** An [Enumerable] constructed from a list: the list, and the cycle over
    it that [__init__] creates. *)
Record Enumerable : Type := mkEnumerable {
  _data : list elem;
  _cycle : cycle elem (list elem)
}.

(** [Enumerable(data)] for a list [data]. *)
Definition Enumerable_init (data : list elem) : Enumerable :=
  mkEnumerable data (cycle_new data).

(** [__len__]: [sum(1 for i in enumerate(self._data))]. *)
Definition len (self : Enumerable) : nat := length (_data self).

(** [next(self._cycle)].  A list iterator always answers, so the second
    branch is never taken. *)
Definition next_cycle (self : Enumerable) : option elem * Enumerable :=
  match cycle_next list_next (_cycle self) tt with
  | Some (r, c, _) => (r, mkEnumerable (_data self) c)
  | None => (None, self)
  end.

(** One resumption of a generator made by [Enumerable.__iter__].  The
    frame of the generator holds the local [i]; the node, with its cycle,
    is shared by all the generators made from it.  [None] is the end of
    the generator. *)
Definition iter_next (i : nat) (self : Enumerable) : option elem * nat * Enumerable :=
  if i <? len self then
    match next_cycle self with
    | (Some x, self') => (Some x, S i, self')
    | (None, self') => (None, i, self')
    end
  else (None, i, self).

(** A generator resumed until its end, from frame [i]; [fuel] bounds the
    number of resumptions. *)
Fixpoint drain (fuel : nat) (i : nat) (self : Enumerable) : list elem * Enumerable :=
  match fuel with
  | 0 => ([], self)
  | S f =>
      match iter_next i self with
      | (Some x, i', self') =>
          let (xs, s) := drain f i' self' in (x :: xs, s)
      | (None, _, self') => ([], self')
      end
  end.

(** [to_list]: [[x for x in self]].  The loop of [__iter__] leaves when
    [i] reaches [len(self)], which [len self] resumptions bring about: the
    next resumption yields nothing and changes nothing (lemma
    [iter_next_end]). *)
Definition to_list (self : Enumerable) : list elem * Enumerable :=
  drain (len self) 0 self.

(** Two generators of the same node alive at once, resumed in the order
    [sched] gives ([true]: the first, [false]: the second); the result is
    what each of them yielded. *)
Fixpoint interleave (sched : list bool) (i1 i2 : nat) (self : Enumerable)
  : list elem * list elem * Enumerable :=
  match sched with
  | [] => ([], [], self)
  | true :: sched' =>
      match iter_next i1 self with
      | (Some x, i1', self') =>
          let '(o1, o2, s) := interleave sched' i1' i2 self' in (x :: o1, o2, s)
      | (None, i1', self') => interleave sched' i1' i2 self'
      end
  | false :: sched' =>
      match iter_next i2 self with
      | (Some x, i2', self') =>
          let '(o1, o2, s) := interleave sched' i1 i2' self' in (o1, x :: o2, s)
      | (None, i2', self') => interleave sched' i1 i2' self'
      end
  end.



(** [all(predicate)]: the builtin [all] resumes the generator until the
    predicate fails or the generator ends, and abandons it there. *)
Fixpoint all_loop (fuel : nat) (predicate : elem -> bool) (i : nat) (self : Enumerable)
  : bool * Enumerable :=
  match fuel with
  | 0 => (true, self)
  | S f =>
      match iter_next i self with
      | (Some x, i', self') =>
          if predicate x then all_loop f predicate i' self' else (false, self')
      | (None, _, self') => (true, self')
      end
  end.

Definition all (predicate : elem -> bool) (self : Enumerable) : bool * Enumerable :=
  all_loop (S (len self)) predicate 0 self.

(** *** Where a cycle over a list stands

    [cursor_at data c p]: the cycle [c] over the list [data] gives
    [data[p]] next.  It is on its first pass, or has just read the last
    element of that pass, or replays. *)
Inductive cursor_at (data : list elem) : cycle elem (list elem) -> nat -> Prop :=
| cursor_first (p : nat) :
    p < length data ->
    cursor_at data (mkCycle (Some (skipn p data)) (firstn p data) 0) p
| cursor_wrap :
    data <> [] ->
    cursor_at data (mkCycle (Some []) data 0) 0
| cursor_replay (p : nat) :
    p < length data ->
    cursor_at data (mkCycle None data p) p.

(** A node whose next traversal starts with the first element of its
    list (an empty node has nothing to start with). *)
Definition at_start (self : Enumerable) : Prop :=
  _data self = [] \/ cursor_at (_data self) (_cycle self) 0.

(** *** The methods every node inherits

    The methods of [Enumerable] are written against [len(self)] and
    [iter(self)], which the subclasses override.  [Node S] is that
    interface for a class whose objects have state [S]: [node_len] is
    [__len__], [node_iter] a traversal by [__iter__] run to its end.  The
    first argument is the fuel. *)
Class Node (S : Type) : Type := {
  node_len : nat -> M S nat;
  node_iter : nat -> M S (list elem)
}.

#[global] Instance Enumerable_Node : Node Enumerable := {
  node_len := fun _ self => Some (len self, self);
  node_iter := fun _ self => Some (to_list self)
}.

Section Methods.

Context {S : Type} `{Node S}.

(** [__getitem__(n)]. *)
Definition getitem (fuel : nat) (n : Z) : M S (outcome elem) :=
  if (n <? 0)%Z then ret (Raise IndexError)
  else
    l <- node_len fuel ;;
    if l =? 0 then ret (Return None)
    else
      xs <- node_iter fuel ;;
      ret (Return (fold_left
                     (fun result '(index, element) =>
                        if (Z.of_nat index =? n)%Z then element else result)
                     (enumerate xs) None)).

(** [element_at(n)], for an [int] argument. *)
Definition element_at (fuel : nat) (n : Z) : M S (outcome elem) :=
  r <- getitem fuel n ;;
  match r with
  | Raise e => ret (Raise e)
  | Return result => if is_None result then ret (Raise IndexError) else ret (Return result)
  end.

(** [element_at_or_default(n)]: [IndexError] is caught, any other
    exception goes through. *)
Definition element_at_or_default (fuel : nat) (n : Z) : M S (outcome elem) :=
  r <- element_at fuel n ;;
  match r with
  | Raise IndexError => ret (Return None)
  | other => ret other
  end.

(** [first()], called without a predicate. *)
Definition first (fuel : nat) : M S (outcome elem) := element_at fuel 0%Z.

(** [first_or_default()], called without a predicate. *)
Definition first_or_default (fuel : nat) : M S (outcome elem) :=
  element_at_or_default fuel 0%Z.

(** [any()], called without a predicate:
    [self.first_or_default(predicate) is not None]. *)
Definition any (fuel : nat) : M S (outcome bool) :=
  r <- first_or_default fuel ;;
  match r with
  | Raise e => ret (Raise e)
  | Return x => ret (Return (negb (is_None x)))
  end.

(** [count()], called without a predicate. *)
Definition count (fuel : nat) : M S nat :=
  xs <- node_iter fuel ;; ret (length xs).

(** The loop of [aggregate]. *)
Definition aggregate_loop (func : elem -> elem -> elem) (seed : elem)
  (result : elem) (xs : list elem) : elem :=
  fold_left
    (fun result '(i, e) =>
       if (i =? 0) && is_None seed then result else func result e)
    (enumerate xs) result.

(** [aggregate(func, seed)]; [seed = None] is the call without a seed. *)
Definition aggregate (fuel : nat) (func : elem -> elem -> elem) (seed : elem)
  : M S (outcome elem) :=
  r <- (if is_None seed then first fuel else ret (Return seed)) ;;
  match r with
  | Raise e => ret (Raise e)
  | Return result =>
      xs <- node_iter fuel ;;
      ret (Return (aggregate_loop func seed result xs))
  end.

(** The builtins [min(xs, key=func)] and [max(xs, key=func)]: the first
    element whose key is the least, or the greatest; [ValueError] on an
    empty argument. *)
Definition builtin_min (func : elem -> Z) (xs : list elem) : outcome elem :=
  match xs with
  | [] => Raise ValueError
  | x :: t => Return (fold_left (fun m y => if (func y <? func m)%Z then y else m) t x)
  end.

Definition builtin_max (func : elem -> Z) (xs : list elem) : outcome elem :=
  match xs with
  | [] => Raise ValueError
  | x :: t => Return (fold_left (fun m y => if (func m <? func y)%Z then y else m) t x)
  end.

(** What [min], [max], [avg] and [median] start with:
    [if not self.any(): raise NoElementsError]. *)
Definition require_any {X : Type} (fuel : nat) (k : M S (outcome X)) : M S (outcome X) :=
  r <- any fuel ;;
  match r with
  | Raise e => ret (Raise e)
  | Return false => ret (Raise NoElementsError)
  | Return true => k
  end.

(** [min(func)], for a projection to integers. *)
Definition min (fuel : nat) (func : elem -> Z) : M S (outcome Z) :=
  require_any fuel
    (xs <- node_iter fuel ;;
     match builtin_min func xs with
     | Raise e => ret (Raise e)
     | Return m => ret (Return (func m))
     end).

(** [max(func)], for a projection to integers. *)
Definition max (fuel : nat) (func : elem -> Z) : M S (outcome Z) :=
  require_any fuel
    (xs <- node_iter fuel ;;
     match builtin_max func xs with
     | Raise e => ret (Raise e)
     | Return m => ret (Return (func m))
     end).

(** [sum(func)]: the builtin [sum] adds from 0, from left to right. *)
Definition sum (fuel : nat) (func : elem -> Z) : M S Z :=
  xs <- node_iter fuel ;; ret (fold_left Z.add (map func xs) 0%Z).

(** [avg(func)]: [float(self.sum(func)) / float(self.count())]. *)
Definition avg (fuel : nat) (func : elem -> Z) : M S (outcome PrimFloat.float) :=
  require_any fuel
    (total <- sum fuel func ;;
     n <- count fuel ;;
     ret (Return (PrimFloat.div (float_of_int total) (float_of_int (Z.of_nat n))))).

End Methods.

End Core.

Arguments Enumerable_init {A} data.
Arguments Return {X} x.

(** ** Nodes over an upstream node: [skip], [take], [reverse] *)

Section Operators.

Variable A : Type.

(** The class of the upstream node, with state [S]. *)
Context {S : Type} `{Node A S}.

(** [Enumerable.__iter__] as a subclass inherits it, running on the
    [__len__] and on the [_cycle] of that subclass:
    [while i < len(self): yield next(self._cycle); i += 1].  A
    [StopIteration] raised by [next] ends the traversal. *)
Fixpoint inherited_iter {T : Type} (self_len : nat -> M T nat)
  (self_next : nat -> M T (option (elem A))) (fuel : nat) (i : nat)
  : M T (list (elem A)) :=
  match fuel with
  | 0 => fun _ => None
  | Datatypes.S f =>
      n <- self_len f ;;
      if i <? n then
        r <- self_next f ;;
        match r with
        | Some x => xs <- inherited_iter self_len self_next f (Datatypes.S i) ;; ret (x :: xs)
        | None => ret []
        end
      else ret []
  end.

(** The inherited [__len__] of a node whose [_data] is the upstream node:
    [sum(1 for i in enumerate(self._data))] traverses the upstream node. *)
Definition upstream_len (fuel : nat) : M S nat :=
  xs <- node_iter fuel ;; ret (length xs).

(** *** [SkipEnumerable] *)

(** The attributes [_data] and [n].  ([_cycle] is read by the method
    [next] only, which is not part of the model.) *)
Record SkipEnumerable : Type := mkSkip {
  skip_data : S;
  skip_n : Z
}.

(** [for index, element in enumerate(self.data): if index >= self.n: yield element]. *)
Definition skip_iter (n : Z) (xs : list (elem A)) : list (elem A) :=
  map snd (filter (fun '(index, _) => (n <=? Z.of_nat index)%Z) (enumerate xs)).

#[global] Instance SkipEnumerable_Node : Node A SkipEnumerable := {
  node_len := fun fuel =>
    on_attr skip_data (fun self d => mkSkip d (skip_n self)) (upstream_len fuel);
  node_iter := fun fuel self =>
    on_attr skip_data (fun self d => mkSkip d (skip_n self))
      (xs <- node_iter fuel ;; ret (skip_iter (skip_n self) xs)) self
}.

(** [skip(n)]. *)
Definition skip (n : Z) (self : S) : SkipEnumerable := mkSkip self n.

(** *** [TakeEnumerable] *)

Record TakeEnumerable : Type := mkTake {
  take_data : S;
  take_n : Z
}.

(** [for index, element in enumerate(self.data): if index < self.n: yield element]. *)
Definition take_iter (n : Z) (xs : list (elem A)) : list (elem A) :=
  map snd (filter (fun '(index, _) => (Z.of_nat index <? n)%Z) (enumerate xs)).

#[global] Instance TakeEnumerable_Node : Node A TakeEnumerable := {
  node_len := fun fuel =>
    on_attr take_data (fun self d => mkTake d (take_n self)) (upstream_len fuel);
  node_iter := fun fuel self =>
    on_attr take_data (fun self d => mkTake d (take_n self))
      (xs <- node_iter fuel ;; ret (take_iter (take_n self) xs)) self
}.

(** [take(n)]. *)
Definition take (n : Z) (self : S) : TakeEnumerable := mkTake self n.

(** *** [ReversedEnumerable] *)

(** The attributes [_data], the upstream node, and [_cycle], a cycle over
    [reversed(self.data)].  The state of a [reversed] object is the index
    it reads next; the sequence it reads is the upstream node. *)
Record ReversedEnumerable : Type := mkReversed {
  rev_data : S;
  rev_cycle : cycle (elem A) Z
}.

(** [next] of [reversed(seq)] for an object [seq] without [__reversed__]:
    [seq[index]], counting down; an [IndexError] ends the iteration. *)
Definition reversed_next (fuel : nat) (index : Z) : M S (option (elem A) * Z) :=
  if (0 <=? index)%Z then
    r <- getitem fuel index ;;
    match r with
    | Return item => ret (Some item, (index - 1)%Z)
    | Raise _ => ret (None, (-1)%Z)
    end
  else ret (None, (-1)%Z).

(** [ReversedEnumerable(enumerable)]: [reversed] takes [len(enumerable)]
    when it is built. *)
Definition ReversedEnumerable_init (fuel : nat) (enumerable : S) : option ReversedEnumerable :=
  match node_len fuel enumerable with
  | Some (n, d) => Some (mkReversed d (cycle_new (Z.of_nat n - 1)%Z))
  | None => None
  end.

(** [next(self._cycle)]. *)
Definition rev_next_cycle (fuel : nat) : M ReversedEnumerable (option (elem A)) :=
  fun self =>
    match cycle_next (reversed_next fuel) (rev_cycle self) (rev_data self) with
    | Some ((r, c), d) => Some (r, mkReversed d c)
    | None => None
    end.

Definition rev_len (fuel : nat) : M ReversedEnumerable nat :=
  on_attr rev_data (fun self d => mkReversed d (rev_cycle self)) (upstream_len fuel).

#[global] Instance ReversedEnumerable_Node : Node A ReversedEnumerable := {
  node_len := rev_len;
  node_iter := fun fuel => inherited_iter rev_len rev_next_cycle fuel 0
}.

(** [reverse()]. *)
Definition reverse (fuel : nat) (self : S) : option ReversedEnumerable :=
  ReversedEnumerable_init fuel self.

(** [self.reverse().to_list()]. *)
Definition reverse_to_list (fuel : nat) (self : S) : option (list (elem A)) :=
  match reverse fuel self with
  | Some r => option_map fst (node_iter fuel r)
  | None => None
  end.

End Operators.

(** ** [take_while] and [skip_while] *)

Section While.

Variable A : Type.

(** How a loop of a generator is left: by its own test, with the locals
    [e] and [i] as they are then; by a [StopIteration] that [next] raised,
    which ends the generator; or not within the fuel given. *)
Inductive loop_exit (T : Type) : Type :=
| Left (e : elem A) (i : nat) (s : T)
| Stopped (s : T)
| OutOfFuel.

Arguments Left {T} e i s.
Arguments Stopped {T} s.
Arguments OutOfFuel {T}.

(** The state of a node of either class: [_data], an [Enumerable] built
    over a list, and [_cycle], which [__init__] sets to
    [itertools.cycle(self.data)].  That cycle reads a generator of
    [self.data], whose state is the local [i] of its frame and which in
    turn draws from the cycle of [self.data]. *)
Record WhileEnumerable : Type := mkWhile {
  while_data : Enumerable A;
  while_predicate : elem A -> bool;
  while_cycle : cycle (elem A) nat
}.

(** [TakeWhileEnumerable(enumerable, predicate)] and
    [SkipWhileEnumerable(enumerable, predicate)]. *)
Definition WhileEnumerable_init (enumerable : Enumerable A) (predicate : elem A -> bool)
  : WhileEnumerable :=
  mkWhile enumerable predicate (cycle_new 0).

(** One step of the generator of [self.data] that the cycle reads. *)
Definition generator_next (i : nat) : M (Enumerable A) (option (elem A) * nat) :=
  fun e => let '(r, i', e') := iter_next i e in Some ((r, i'), e').

(** [next(self._cycle)].  The generator always answers, so the second
    branch is never taken. *)
Definition while_next (self : WhileEnumerable) : option (elem A) * WhileEnumerable :=
  match cycle_next generator_next (while_cycle self) (while_data self) with
  | Some ((r, c), d) => (r, mkWhile d (while_predicate self) c)
  | None => (None, self)
  end.

(** The opening of both [__iter__] methods:
    [try: e = next(self._cycle) except StopIteration: e = None], then the
    flag [False if e is None else self.predicate(e)]. *)
Definition while_first (self : WhileEnumerable) : elem A * bool * WhileEnumerable :=
  let (r, self1) := while_next self in
  let e := match r with Some x => x | None => None end in
  (e, if is_None e then false else while_predicate self e, self1).

(** *** [TakeWhileEnumerable.__iter__] *)

(** [while take: yield e; e = next(self._cycle); take = self.predicate(e); i += 1].
    The result is what the loop yielded and how it was left. *)
Fixpoint take_loop (fuel : nat) (e : elem A) (take : bool) (i : nat) (self : WhileEnumerable)
  : list (elem A) * loop_exit WhileEnumerable :=
  match fuel with
  | 0 => ([], OutOfFuel)
  | S f =>
      if take then
        match while_next self with
        | (Some e', self1) =>
            let (ys, x) := take_loop f e' (while_predicate self e') (S i) self1 in
            (e :: ys, x)
        | (None, self1) => ([e], Stopped self1)
        end
      else ([], Left e i self)
  end.

(** [while i < len(self.data): next(self._cycle); i += 1], which runs
    [len(self.data) - i] times. *)
Fixpoint take_rest (k : nat) (self : WhileEnumerable) : WhileEnumerable :=
  match k with
  | 0 => self
  | S k' =>
      match while_next self with
      | (Some _, self1) => take_rest k' self1
      | (None, self1) => self1
      end
  end.

(** A traversal by [TakeWhileEnumerable.__iter__]: what it yields within
    the fuel, and the node after it if it has ended. *)
Definition take_while_run (fuel : nat) (self : WhileEnumerable)
  : list (elem A) * option WhileEnumerable :=
  let '(e, take, self1) := while_first self in
  match take_loop fuel e take 1 self1 with
  | (ys, Left _ i self2) => (ys, Some (take_rest (len (while_data self2) - i) self2))
  | (ys, Stopped self2) => (ys, Some self2)
  | (ys, OutOfFuel) => (ys, None)
  end.

(** *** [SkipWhileEnumerable.__iter__] *)

(** [while skip: e = next(self._cycle); skip = self.predicate(e); if skip: i += 1]. *)
Fixpoint skip_loop (fuel : nat) (e : elem A) (skip : bool) (i : nat) (self : WhileEnumerable)
  : loop_exit WhileEnumerable :=
  match fuel with
  | 0 => OutOfFuel
  | S f =>
      if skip then
        match while_next self with
        | (Some e', self1) =>
            let skip' := while_predicate self e' in
            skip_loop f e' skip' (if skip' then S i else i) self1
        | (None, self1) => Stopped self1
        end
      else Left e i self
  end.

(** [while i < len(self.data): yield e; i += 1; e = next(self._cycle)],
    which runs [len(self.data) - i] times. *)
Fixpoint skip_rest (k : nat) (e : elem A) (self : WhileEnumerable)
  : list (elem A) * WhileEnumerable :=
  match k with
  | 0 => ([], self)
  | S k' =>
      match while_next self with
      | (Some e', self1) =>
          let (ys, s) := skip_rest k' e' self1 in (e :: ys, s)
      | (None, self1) => ([e], self1)
      end
  end.

(** A traversal by [SkipWhileEnumerable.__iter__]: what it yields, and
    the node after it, or [None] if the first loop has not ended within
    the fuel. *)
Definition skip_while_run (fuel : nat) (self : WhileEnumerable)
  : option (list (elem A) * WhileEnumerable) :=
  let '(e, skip, self1) := while_first self in
  match skip_loop fuel e skip 1 self1 with
  | Left e' i self2 => Some (skip_rest (len (while_data self2) - i) e' self2)
  | Stopped self2 => Some ([], self2)
  | OutOfFuel => None
  end.

(** [take_while(predicate)] and [skip_while(predicate)] of an
    [Enumerable] built over a list. *)
Definition take_while (predicate : elem A -> bool) (self : Enumerable A) : WhileEnumerable :=
  WhileEnumerable_init self predicate.

Definition skip_while (predicate : elem A -> bool) (self : Enumerable A) : WhileEnumerable :=
  WhileEnumerable_init self predicate.

(** *** Where the cycle of such a node stands

    [while_at data self p]: the next element that [next(self._cycle)]
    gives is [data[p]].  The cycle is on its first pass, reading the
    generator of [self.data], whose own cycle stands at [p] too; or that
    generator has given its last element; or the cycle replays. *)
Inductive while_at (data : list (elem A)) : WhileEnumerable -> nat -> Prop :=
| while_first_pass (p : nat) (d : Enumerable A) (pred : elem A -> bool) :
    _data d = data ->
    cursor_at data (_cycle d) p ->
    while_at data (mkWhile d pred (mkCycle (Some p) (firstn p data) 0)) p
| while_wrap (d : Enumerable A) (pred : elem A -> bool) :
    _data d = data ->
    data <> [] ->
    while_at data (mkWhile d pred (mkCycle (Some (length data)) data 0)) 0
| while_replay (p : nat) (d : Enumerable A) (pred : elem A -> bool) :
    _data d = data ->
    p < length data ->
    while_at data (mkWhile d pred (mkCycle None data p)) p.

(** The same after [q] elements were read from the start of the list,
    the last one included: the cycle stands at [q], or at 0 again. *)
Definition while_read (data : list (elem A)) (self : WhileEnumerable) (q : nat) : Prop :=
  q <= length data /\ while_at data self (if length data <=? q then 0 else q).

End While.

Arguments Left {A T} e i s.
Arguments Stopped {A T} s.
Arguments OutOfFuel {A T}.

(** ** [py_linq.core.Key] *)

(** Modelled from the spec: [py_linq.core.Key], which is not part of the
    sources at hand.  A Key "carries a named-field structure (an ordered
    mapping from field name to component value)"; the code builds it from
    a dictionary, [Key(key_prop)] or [Key({"id": ok})]. *)
Record Key (V : Type) : Type := mkKey {
  key_fields : list (String.string * V)
}.

(** ** [group_join] *)

Section GroupJoin.

(** [A] and [B] are the classes of the outer and of the inner elements,
    [K] the class of the keys and [eqb] its [==]. *)
Variables A B K : Type.
Variable eqb : K -> K -> bool.
Variable outer_key : elem A -> K.
Variable inner_key : elem B -> K.

(** What the objects made during a traversal of a group-join node share:
    the frames of the generators made by [GroupJoinEnumerable.__iter__], of
    which only the local [ok] matters ([None] while it is unbound), and the
    inner node, which every [where] node made by the traversal refers to. *)
Record World : Type := mkWorld {
  frames : list (option K);
  inner_enumerable : Enumerable B
}.

(** A [Grouping] made by the traversal.  Its [_data] is the node
    [self.inner_enumerable.where(lambda i: self.inner_key(i) == ok)]: that
    node has the inner node as [_data], the closure as [predicate], and a
    cycle over a generator of the inner node as [_cycle].  The closure
    refers to the variable [ok] of the frame it was made in, not to the
    value [ok] had then; [closure_frame] names that frame.  The
    [Grouping] has its own [_cycle], over a generator of the [where]
    node, whose state is the local [i] of its frame. *)
Record WhereGrouping : Type := mkWhereGrouping {
  grouping_key : Key K;
  closure_frame : nat;
  where_cycle : cycle (elem B) nat;
  grouping_cycle : cycle (elem B) nat
}.

(** A call of the closure [lambda i: self.inner_key(i) == ok]. *)
Definition predicate (w : World) (g : WhereGrouping) (i : elem B) : bool :=
  match nth_error (frames w) (closure_frame g) with
  | Some (Some ok) => eqb (inner_key i) ok
  | _ => false
  end.

(** The state of a grouping together with the world it lives in. *)
Definition GW : Type := WhereGrouping * World.

Definition set_where_cycle (g : WhereGrouping) (c : cycle (elem B) nat) : WhereGrouping :=
  mkWhereGrouping (grouping_key g) (closure_frame g) c (grouping_cycle g).

Definition set_grouping_cycle (g : WhereGrouping) (c : cycle (elem B) nat) : WhereGrouping :=
  mkWhereGrouping (grouping_key g) (closure_frame g) (where_cycle g) c.

(** [element = next(self._cycle)] in [WhereEnumerable.__iter__]: the
    cycle of the [where] node reads a generator of the inner node. *)
Definition where_draw : M GW (option (elem B)) :=
  fun '(g, w) =>
    match cycle_next (@generator_next B) (where_cycle g) (inner_enumerable w) with
    | Some ((r, c), d) => Some (r, (set_where_cycle g c, mkWorld (frames w) d))
    | None => None
    end.

(** A generator made by [WhereEnumerable.__iter__], resumed from a frame
    where [i] iterations are done until it yields or ends:
    [while i < len(self.data): element = next(self._cycle);
     if self.predicate(element): yield element; i += 1].
    [k] is [len(self.data) - i]. *)
Fixpoint where_resume (k : nat) (i : nat) : M GW (option (elem B) * nat) :=
  match k with
  | 0 => ret (None, i)
  | S k' =>
      r <- where_draw ;;
      match r with
      | Some element =>
          fun '(g, w) =>
            if predicate w g element then Some ((Some element, S i), (g, w))
            else where_resume k' (S i) (g, w)
      | None => ret (None, i)
      end
  end.

Definition where_generator_next (i : nat) : M GW (option (elem B) * nat) :=
  fun '(g, w) => where_resume (len (inner_enumerable w) - i) i (g, w).

(** A traversal of the [where] node by a new generator, run to its end. *)
Fixpoint where_iter (k : nat) (i : nat) : M GW (list (elem B)) :=
  match k with
  | 0 => ret []
  | S k' =>
      r <- where_draw ;;
      match r with
      | Some element =>
          fun '(g, w) =>
            if predicate w g element
            then (xs <- where_iter k' (S i) ;; ret (element :: xs)) (g, w)
            else where_iter k' (S i) (g, w)
      | None => ret []
      end
  end.

(** [len(self)] for a [Grouping]: the inherited [__len__] traverses
    [self._data], the [where] node. *)
Definition grouping_len (fuel : nat) : M GW nat :=
  fun '(g, w) =>
    (xs <- where_iter (len (inner_enumerable w)) 0 ;; ret (length xs)) (g, w).

(** [next(self._cycle)] for a [Grouping]. *)
Definition grouping_next (fuel : nat) : M GW (option (elem B)) :=
  fun '(g, w) =>
    match cycle_next where_generator_next (grouping_cycle g) (g, w) with
    | Some ((r, c), (g', w')) => Some (r, (set_grouping_cycle g' c, w'))
    | None => None
    end.

(** [to_list] of a [Grouping], by the inherited [__iter__]. *)
Definition grouping_to_list (fuel : nat) (g : WhereGrouping) : M World (list (elem B) * WhereGrouping) :=
  fun w =>
    match inherited_iter grouping_len grouping_next fuel 0 (g, w) with
    | Some (xs, (g', w')) => Some ((xs, g'), w')
    | None => None
    end.

(** The state of a group-join node: [_data], the outer node (the inner
    node is in the world). *)
Record GroupJoinEnumerable : Type := mkGroupJoin {
  gj_data : Enumerable A
}.

Section Traversal.

(** The class of what [result_func] returns, and [result_func] itself,
    which is given the outer element and the grouping and may use the
    grouping before it returns. *)
Variable R : Type.
Variable result_func : elem A * WhereGrouping -> M World R.

(** The body of the loop of [GroupJoinEnumerable.__iter__] for the outer
    element [o], in the generator whose frame is [f]: bind [ok], build the
    grouping, call [result_func]. *)
Definition group_join_body (f : nat) (o : elem A) : M World R :=
  fun w =>
    let ok := outer_key o in
    let w1 :=
      mkWorld (firstn f (frames w) ++ Some ok :: skipn (S f) (frames w))
              (inner_enumerable w) in
    let g :=
      mkWhereGrouping (mkKey [("id"%string, ok)])
                 f (cycle_new 0) (cycle_new 0) in
    result_func (o, g) w1.

(** [for o in self.data: ...] in the generator with frame [f], run to its
    end; [i] is the local of the generator of [self.data] that the loop
    reads. *)
Fixpoint group_join_loop (fuel : nat) (f : nat) (i : nat) (self : GroupJoinEnumerable)
  : M World (list R * GroupJoinEnumerable) :=
  match fuel with
  | 0 => fun _ => None
  | S fuel' =>
      match iter_next i (gj_data self) with
      | (Some o, i', d) =>
          row <- group_join_body f o ;;
          rest <- group_join_loop fuel' f i' (mkGroupJoin d) ;;
          ret (row :: fst rest, snd rest)
      | (None, _, d) => ret ([], mkGroupJoin d)
      end
  end.

(** [to_list] of a group-join node: a new generator, hence a new frame,
    with [ok] unbound. *)
Definition group_join_to_list (fuel : nat) (self : GroupJoinEnumerable)
  : M World (list R * GroupJoinEnumerable) :=
  fun w =>
    group_join_loop fuel (length (frames w)) 0 self
      (mkWorld (frames w ++ [None]) (inner_enumerable w)).

End Traversal.

(** [result_func] as the identity, the default of [group_join]. *)
Definition result_identity : elem A * WhereGrouping -> M World (elem A * WhereGrouping) :=
  fun r => ret r.

(** [result_func] as [lambda r: (r[0], r[1].to_list())], which uses the
    grouping before the traversal goes on. *)
Definition result_listed (fuel : nat) : elem A * WhereGrouping -> M World (elem A * list (elem B)) :=
  fun '(o, g) => r <- grouping_to_list fuel g ;; ret (o, fst r).

(** The groupings of the rows of a finished traversal, used one after
    the other once the traversal is over. *)
Fixpoint groupings_to_lists (fuel : nat) (rows : list (elem A * WhereGrouping))
  : M World (list (elem A * list (elem B))) :=
  match rows with
  | [] => ret []
  | (o, g) :: rows' =>
      r <- grouping_to_list fuel g ;;
      rest <- groupings_to_lists fuel rows' ;;
      ret ((o, fst r) :: rest)
  end.

(** [self.group_join(inner, ...).to_list()] with the default
    [result_func], and then [to_list()] of the grouping of each row. *)
Definition group_join_then_groupings (fuel : nat) (self : GroupJoinEnumerable)
  : M World (list (elem A * list (elem B))) :=
  r <- group_join_to_list result_identity fuel self ;;
  groupings_to_lists fuel (fst r).

(** [self.group_join(inner, ..., lambda r: (r[0], r[1].to_list())).to_list()]. *)
Definition group_join_listed (fuel : nat) (self : GroupJoinEnumerable)
  : M World (list (elem A * list (elem B))) :=
  r <- group_join_to_list (result_listed fuel) fuel self ;;
  ret (fst r).

(** [group_join(inner, outer_key, inner_key, result_func)] on an outer
    node: the new node, and the world with the inner node in it. *)
Definition group_join (outer : Enumerable A) (inner : Enumerable B)
  : GroupJoinEnumerable * World :=
  (mkGroupJoin outer, mkWorld [] inner).

End GroupJoin.

(** ** Ordering: [order_by], [then_by] and [SortedEnumerable] *)

Section Ordering.

Variable A : Type.

(** Modelled from the spec: [py_linq.core.OrderingDirection], which is
    not part of the sources at hand.  An Ordering Directive is a pair of a
    projection function and a direction, ascending or descending; the code
    builds it as [OrderingDirection(key, reverse=...)] and reads its
    attributes [key] and [descending].  Keys are taken to be integers. *)
Record OrderingDirection : Type := mkOrderingDirection {
  key : elem A -> Z;
  descending : bool
}.

(** The builtin [sorted(l, key=k, reverse=r)].  It is a stable sort that
    compares keys with [<] only, so its result is the one of any stable
    sort; insertion sort stands for it here.  With [reverse=True] the list
    is reversed, sorted and reversed again, which keeps elements of equal
    keys in their order. *)
Fixpoint insert (k : elem A -> Z) (x : elem A) (l : list (elem A)) : list (elem A) :=
  match l with
  | [] => [x]
  | y :: t => if (k y <? k x)%Z then y :: insert k x t else x :: y :: t
  end.

Fixpoint stable_sort (k : elem A -> Z) (l : list (elem A)) : list (elem A) :=
  match l with
  | [] => []
  | x :: t => insert k x (stable_sort k t)
  end.

Definition sorted (l : list (elem A)) (k : elem A -> Z) (reverse : bool) : list (elem A) :=
  if reverse then rev (stable_sort k (rev l)) else stable_sort k l.

(** The loop of [SortedEnumerable.__init__]:
    [for o in reversed(self._key_funcs):
       self._data = sorted(self._data, key=o.key, reverse=o.descending)]. *)
Definition sort_passes (key_funcs : list OrderingDirection) (data : list (elem A))
  : list (elem A) :=
  fold_left (fun data o => sorted data (key o) (descending o)) (rev key_funcs) data.

(** A [SortedEnumerable]: once built, its [_data] is a sorted list and
    its [_cycle] a cycle over that list, as for an [Enumerable] built over
    a list; [_key_funcs] is a list of its own. *)
Record SortedEnumerable : Type := mkSorted {
  sorted_enumerable : Enumerable A;
  _key_funcs : list OrderingDirection
}.

#[global] Instance SortedEnumerable_Node : Node A SortedEnumerable := {
  node_len := fun _ self => Some (len (sorted_enumerable self), self);
  node_iter := fun _ self =>
    let (xs, e) := to_list (sorted_enumerable self) in
    Some (xs, mkSorted e (_key_funcs self))
}.

Section Source.

(** The class of the node that is sorted, with state [S]. *)
Context {S : Type} `{Node A S}.

(** [SortedEnumerable(enumerable, key_funcs)], for a list of
    [OrderingDirection] objects: the first [sorted] traverses
    [enumerable], and [_key_funcs] is a copy of [key_funcs].  (With an
    empty [key_funcs], which [order_by] and [then_by] never pass, Python
    keeps [enumerable] itself as [_data]; the model takes its elements.) *)
Definition SortedEnumerable_init (fuel : nat) (key_funcs : list OrderingDirection)
  : M S SortedEnumerable :=
  xs <- node_iter fuel ;;
  ret (mkSorted (Enumerable_init (sort_passes key_funcs xs)) key_funcs).

(** [order_by(key)] and [order_by_descending(key)]. *)
Definition order_by (fuel : nat) (k : elem A -> Z) : M S SortedEnumerable :=
  SortedEnumerable_init fuel [mkOrderingDirection k false].

Definition order_by_descending (fuel : nat) (k : elem A -> Z) : M S SortedEnumerable :=
  SortedEnumerable_init fuel [mkOrderingDirection k true].

End Source.

(** [self._key_funcs.append(o)]. *)
Definition append_key_func (o : OrderingDirection) (self : SortedEnumerable) : SortedEnumerable :=
  mkSorted (sorted_enumerable self) (_key_funcs self ++ [o]).

(** [then_by(func)] and [then_by_descending(func)]: the receiver appends
    the directive to its own list and is then sorted again, as the source
    of the new node.  The state is the receiver, the value the new node. *)
Definition then_by (fuel : nat) (func : elem A -> Z) : M SortedEnumerable SortedEnumerable :=
  fun self =>
    let self1 := append_key_func (mkOrderingDirection func false) self in
    SortedEnumerable_init fuel (_key_funcs self1) self1.

Definition then_by_descending (fuel : nat) (func : elem A -> Z)
  : M SortedEnumerable SortedEnumerable :=
  fun self =>
    let self1 := append_key_func (mkOrderingDirection func true) self in
    SortedEnumerable_init fuel (_key_funcs self1) self1.

(** A chain [order_by...(k1).then_by...(k2)...then_by...(kn)], each call
    made on the node the call before it returned; the directive says
    which of the two methods is called. *)
Definition order_call {S : Type} `{Node A S} (fuel : nat) (o : OrderingDirection)
  : M S SortedEnumerable :=
  if descending o then order_by_descending fuel (key o) else order_by fuel (key o).

Definition then_call (fuel : nat) (o : OrderingDirection)
  : M SortedEnumerable SortedEnumerable :=
  if descending o then then_by_descending fuel (key o) else then_by fuel (key o).

Fixpoint then_chain (fuel : nat) (os : list OrderingDirection) (node : SortedEnumerable)
  : option SortedEnumerable :=
  match os with
  | [] => Some node
  | o :: os' =>
      match then_call fuel o node with
      | Some (node', _) => then_chain fuel os' node'
      | None => None
      end
  end.

Definition order_chain (fuel : nat) (o : OrderingDirection) (os : list OrderingDirection)
  (source : Enumerable A) : option SortedEnumerable :=
  match order_call fuel o source with
  | Some (node, _) => then_chain fuel os node
  | None => None
  end.

(** *** What the ordering is measured against *)

(** [x] comes before [y], or ties with it, under one directive. *)
Definition directive_le (o : OrderingDirection) (x y : elem A) : Prop :=
  if descending o then (key o y <= key o x)%Z else (key o x <= key o y)%Z.

(** [x] and [y] tie under every directive of the list. *)
Definition tied (os : list OrderingDirection) (x y : elem A) : bool :=
  forallb (fun o => (key o x =? key o y)%Z) os.

(** The order a list of directives defines: the first directive decides
    unless it ties, then the next one, and so on. *)
Fixpoint lex_le (os : list OrderingDirection) (x y : elem A) : Prop :=
  match os with
  | [] => True
  | o :: os' =>
      directive_le o x y /\ (key o x = key o y -> lex_le os' x y)
  end.

(** A predicate whose elements all have the same key under each
    directive of the list, as the elements tied with a given one have. *)
Definition same_keys (P : elem A -> bool) (os : list OrderingDirection) : Prop :=
  forall o, In o os ->
    forall x y, P x = true -> P y = true -> key o x = key o y.

(** The list a chain ends with: each [then_by] sorts the list of its
    receiver by all the directives given so far. *)
Fixpoint chain_data (given : list OrderingDirection) (os : list OrderingDirection)
  (l : list (elem A)) : list (elem A) :=
  match os with
  | [] => l
  | o :: os' => chain_data (given ++ [o]) os' (sort_passes (given ++ [o]) l)
  end.

(** [s = source.order_by(k1)], then [s.then_by(k2)], whose result is
    dropped, then [s.then_by(k3).to_list()]: the list, and the number of
    directives [s] holds before and after. *)
Definition then_by_twice (fuel : nat) (k1 k2 k3 : elem A -> Z) (source : Enumerable A)
  : option (list (elem A) * nat * nat) :=
  match order_by fuel k1 source with
  | Some (s, _) =>
      match then_by fuel k2 s with
      | Some (_, s1) =>
          match then_by fuel k3 s1 with
          | Some (t, s2) =>
              Some (fst (to_list (sorted_enumerable t)),
                    length (_key_funcs s), length (_key_funcs s2))
          | None => None
          end
      | None => None
      end
  | None => None
  end.

(** [source.order_by(k1).then_by(k3).to_list()]. *)
Definition order_then_by (fuel : nat) (k1 k3 : elem A -> Z) (source : Enumerable A)
  : option (list (elem A)) :=
  match order_by fuel k1 source with
  | Some (s, _) =>
      match then_by fuel k3 s with
      | Some (t, _) => Some (fst (to_list (sorted_enumerable t)))
      | None => None
      end
  | None => None
  end.

End Ordering.

Arguments mkOrderingDirection {A} key descending.

(** ** [select] and [median] *)

Section Select.

Variables A B : Type.
Context {S : Type} `{Node A S}.

(** A [SelectEnumerable]: [_data], the upstream node, and [func]. *)
Record SelectEnumerable : Type := mkSelect {
  select_data : S;
  func : elem A -> elem B
}.

(** [__iter__] is [for e in self.data: yield self.func(e)]; [__len__] is
    inherited and traverses [self._data]. *)
#[global] Instance SelectEnumerable_Node : Node B SelectEnumerable := {
  node_len := fun fuel =>
    on_attr select_data (fun self d => mkSelect d (func self)) (upstream_len fuel);
  node_iter := fun fuel self =>
    on_attr select_data (fun self d => mkSelect d (func self))
      (xs <- node_iter fuel ;; ret (map (func self) xs)) self
}.

(** [select(func)]. *)
Definition select (f : elem A -> elem B) (self : S) : SelectEnumerable := mkSelect self f.

End Select.

Section Median.

Variable A : Type.
Context {S : Type} `{Node A S}.

(** [float(x)] for an element: defined on integers. *)
Definition float_of (x : elem Z) : outcome PrimFloat.float :=
  match x with
  | Some z => Return (float_of_int z)
  | None => Raise TypeError
  end.

(** What [median] returns: an element as it is, or a [float]. *)
Inductive median_value : Type :=
| Native (x : elem Z)
| Float (f : PrimFloat.float).

(** The end of [median], on the sorted list of the projections:
    [result[i] if length % 2 == 1
     else (float(result[i - 1]) + float(result[i])) / float(2)],
    with [i = int(length / 2)]. *)
Definition median_of (result : list (elem Z)) : outcome median_value :=
  let length := Datatypes.length result in
  let i := length / 2 in
  if length mod 2 =? 1 then Return (Native (nth i result None))
  else
    match float_of (nth (i - 1) result None), float_of (nth i result None) with
    | Return a, Return b =>
        Return (Float (PrimFloat.div (PrimFloat.add a b) (float_of_int 2)))
    | Raise e, _ => Raise e
    | _, Raise e => Raise e
    end.

(** [median(func)], for a projection [func] to integers:
    [self.order_by(func).select(func).to_list()] makes two new nodes,
    whose states are dropped with them. *)
Definition median (fuel : nat) (f : elem A -> Z) : M S (outcome median_value) :=
  require_any fuel
    (node <- order_by fuel f ;;
     match node_iter fuel (select (fun e => Some (f e)) node) with
     | Some (result, _) => ret (median_of result)
     | None => fun _ => None
     end).

End Median.

(** ** Keyed operators: [union] and [group_by] *)

(** The projected keys: the values that [json.dumps] takes here are
    [None], booleans, integers, and lists and tuples of such values. *)
#[warnings="-register-all"]
Inductive pyval : Type :=
| PyNone
| PyBool (b : bool)
| PyInt (z : Z)
| PyList (items : list pyval)
| PyTuple (items : list pyval).

(** [", ".join(parts)]. *)
Fixpoint join (parts : list String.string) : String.string :=
  match parts with
  | [] => ""%string
  | [p] => p
  | p :: rest => String.append p (String.append ", "%string (join rest))
  end.

(** [json.dumps(v)] with the default separators: [None] is [null], the
    booleans are [true] and [false], an integer is written in decimal, and
    a list and a tuple are both written as a JSON array. *)
Fixpoint json_dumps (v : pyval) : String.string :=
  match v with
  | PyNone => "null"%string
  | PyBool true => "true"%string
  | PyBool false => "false"%string
  | PyInt z => DecimalString.NilZero.string_of_int (Z.to_int z)
  | PyList items | PyTuple items =>
      String.append "["%string
        (String.append (join (map json_dumps items)) "]"%string)
  end.

(** A [dict] whose keys are integers, in insertion order. *)
Definition dict (V : Type) : Type := list (Z * V).

(** [d.get(k)]; [k in d] is [dict_get d k <> None]. *)
Fixpoint dict_get {V : Type} (d : dict V) (k : Z) : option V :=
  match d with
  | [] => None
  | (k', v) :: d' => if (k' =? k)%Z then Some v else dict_get d' k
  end.

(** The value at a key that is present replaced by its image under [f]. *)
Fixpoint dict_update {V : Type} (d : dict V) (k : Z) (f : V -> V) : dict V :=
  match d with
  | [] => []
  | (k', v) :: d' =>
      if (k' =? k)%Z then (k', f v) :: d' else (k', v) :: dict_update d' k f
  end.

Section Keyed.

Variable A : Type.

(** The builtin [hash] on strings, which the model leaves open: nothing
    is assumed of it. *)
Variable hash : String.string -> Z.

(** The key selector of the node. *)
Variable key : elem A -> pyval.

(** [hash(json.dumps(self.key(i)))], which is also what
    [_create_key_hash(self.key(d))] is. *)
Definition key_hash (i : elem A) : Z := hash (json_dumps (key i)).

(** A traversal of [self.data.concat(self.enumerable)], a node made for
    this one traversal: its cycle chains a generator of [self.data] and
    one of [self.enumerable], and the traversal reads
    [len(self.data) + len(self.enumerable)] elements from it, which is the
    first pass of the cycle. *)
Definition concat_to_list (data enumerable : Enumerable A)
  : list (elem A) * (Enumerable A * Enumerable A) :=
  let (xs, data') := to_list data in
  let (ys, enumerable') := to_list enumerable in
  (xs ++ ys, (data', enumerable')).

(** *** [UnionEnumerable] *)

(** The body of the loop of [UnionEnumerable._load_data]. *)
Definition union_step (union : dict (elem A)) (i : elem A) : dict (elem A) :=
  match dict_get union (key_hash i) with
  | None => union ++ [(key_hash i, i)]
  | Some _ => union
  end.

(** [_load_data], on the elements its loop traverses. *)
Definition union_load (xs : list (elem A)) : dict (elem A) :=
  fold_left union_step xs [].

(** A [UnionEnumerable]: the two nodes, the dictionary [union], and
    [_cycle], a cycle over the keys of [union]. *)
Record UnionEnumerable : Type := mkUnion {
  union_data : Enumerable A;
  union_enumerable : Enumerable A;
  union : dict (elem A);
  union_cycle : cycle Z (list Z)
}.

(** [UnionEnumerable(enumerable1, enumerable2, key)]. *)
Definition UnionEnumerable_init (enumerable1 enumerable2 : Enumerable A) : UnionEnumerable :=
  let '(xs, (d, e)) := concat_to_list enumerable1 enumerable2 in
  let u := union_load xs in
  mkUnion d e u (cycle_new (map fst u)).

(** The keys of a dictionary, read by a generator. *)
Definition keys_next (l : list Z) : M unit (option Z * list Z) :=
  match l with
  | [] => ret (None, [])
  | k :: t => ret (Some k, t)
  end.

(** [UnionEnumerable.__iter__], run to its end:
    [while i < len(self): k = next(self._cycle); yield self.union[k]; i += 1],
    with [len(self) = len(self.union)]; [n] is [len(self) - i]. *)
Fixpoint union_iter (n : nat) (self : UnionEnumerable) : list (elem A) * UnionEnumerable :=
  match n with
  | 0 => ([], self)
  | S n' =>
      match cycle_next keys_next (union_cycle self) tt with
      | Some ((Some k, c), _) =>
          let self1 := mkUnion (union_data self) (union_enumerable self) (union self) c in
          match dict_get (union self) k with
          | Some v => let (ys, s) := union_iter n' self1 in (v :: ys, s)
          | None => ([], self1)
          end
      | _ => ([], self)
      end
  end.

Definition union_to_list (self : UnionEnumerable) : list (elem A) * UnionEnumerable :=
  union_iter (length (union self)) self.

(** *** [GroupedEnumerable] *)

(** The [Grouping] objects that [group_by] makes: a [Key] and an
    [Enumerable] over a list. *)
Record Grouping : Type := mkGrouping {
  grouping_key_prop : Key pyval;
  grouping_enumerable : Enumerable A
}.

(** [g.data.append(d)]: the list of the grouping grows in place, and an
    iterator of that list which has not reached its end reads the new
    element too. *)
Definition grouping_append (d : elem A) (g : Grouping) : Grouping :=
  let e := grouping_enumerable g in
  let c := _cycle e in
  mkGrouping (grouping_key_prop g)
    (mkEnumerable (_data e ++ [d])
       (mkCycle (option_map (fun rest => rest ++ [d]) (it c)) (saved c) (index c))).

(** [_can_enumerate(key_value)]:
    [hasattr(key_value, "__len__") and len(key_value) > 0]. *)
Definition _can_enumerate (key_value : pyval) : bool :=
  match key_value with
  | PyList (_ :: _) | PyTuple (_ :: _) => true
  | _ => false
  end.

(** [key_value[i]]. *)
Definition py_index (key_value : pyval) (i : nat) : outcome pyval :=
  match key_value with
  | PyList items | PyTuple items =>
      match nth_error items i with
      | Some v => Return v
      | None => Raise IndexError
      end
  | _ => Raise TypeError
  end.

(** The loop that fills [key_prop], for key names that are distinct:
    [for i, prop in enumerate(self.key_names):
       key_prop[prop] = key_value[i] if self._can_enumerate(key_value) else key_value]. *)
Fixpoint key_prop_loop (key_value : pyval) (names : list (nat * String.string))
  : outcome (list (String.string * pyval)) :=
  match names with
  | [] => Return []
  | (i, prop) :: names' =>
      match
        (if _can_enumerate key_value then py_index key_value i else Return key_value)
      with
      | Raise e => Raise e
      | Return v =>
          match key_prop_loop key_value names' with
          | Raise e => Raise e
          | Return rest => Return ((prop, v) :: rest)
          end
      end
  end.

Variable key_names : list String.string.

(** The body of the loop of [GroupedEnumerable._load_data]. *)
Definition grouped_step (grouping : dict Grouping) (d : elem A) : outcome (dict Grouping) :=
  let key_value := key d in
  let kv_hash := key_hash d in
  match dict_get grouping kv_hash with
  | None =>
      match key_prop_loop key_value (enumerate key_names) with
      | Raise e => Raise e
      | Return key_prop =>
          Return (grouping ++ [(kv_hash, mkGrouping (mkKey key_prop) (Enumerable_init [d]))])
      end
  | Some _ => Return (dict_update grouping kv_hash (grouping_append d))
  end.

(** [_load_data], on the elements that [for d in self.data] traverses. *)
Fixpoint grouped_load (xs : list (elem A)) (grouping : dict Grouping)
  : outcome (dict Grouping) :=
  match xs with
  | [] => Return grouping
  | d :: xs' =>
      match grouped_step grouping d with
      | Raise e => Raise e
      | Return grouping' => grouped_load xs' grouping'
      end
  end.

(** [GroupedEnumerable(enumerable, key, key_names, func)] up to the end
    of [_load_data]: the dictionary [grouping], and the source node after
    its traversal. *)
Definition GroupedEnumerable_load (enumerable : Enumerable A)
  : outcome (dict Grouping) * Enumerable A :=
  let (xs, e) := to_list enumerable in (grouped_load xs [], e).

(** *** What the claim on key equality is about *)

(** Two elements are treated as having the same key by [group_by] when
    grouping the two of them gives one grouping that holds both. *)
Definition same_group (x y : elem A) : Prop :=
  exists grouping h g,
    fst (GroupedEnumerable_load (Enumerable_init [x; y])) = Return grouping /\
    grouping = [(h, g)] /\ _data (grouping_enumerable g) = [x; y].

(** Two elements are treated as having the same key by [union] when the
    union of the one with the other keeps the first only. *)
Definition same_union_key (x y : elem A) : Prop :=
  fst (union_to_list (UnionEnumerable_init (Enumerable_init [x]) (Enumerable_init [y])))
  = [x].

End Keyed.

(** ** Calls one after the other *)

(** [k] calls of the same method on the same object, each run to its end
    before the next one starts: what they return, in order. *)
Fixpoint successive {T X : Type} (k : nat) (m : M T X) : M T (list X) :=
  match k with
  | 0 => ret []
  | S k' => x <- m ;; xs <- successive k' m ;; ret (x :: xs)
  end.

(** What a method returns that gives back either its receiver or a new
    node of class [N]. *)
Inductive self_or (N : Type) : Type :=
| Self
| New (node : N).

Arguments Self {N}.
Arguments New {N} node.

(** ** More of the methods every node inherits *)

Section MoreMethods.

Variable A : Type.
Context {S : Type} `{Node A S}.

(** [default_if_empty(value)]: [Enumerable([value])] if [not self.any()],
    the receiver itself otherwise. *)
Definition default_if_empty (fuel : nat) (value : elem A)
  : M S (outcome (self_or (Enumerable A))) :=
  r <- any fuel ;;
  match r with
  | Raise e => ret (Raise e)
  | Return false => ret (Return (New (Enumerable_init [value])))
  | Return true => ret (Return Self)
  end.

(** [single()], called without a predicate, where [result] is [self]:
    [if not result.any(): raise NoMatchingElement],
    [if result.count() > 1: raise MoreThanOneMatchingElement],
    [return result.first()]. *)
Definition single (fuel : nat) : M S (outcome (elem A)) :=
  r <- any fuel ;;
  match r with
  | Raise e => ret (Raise e)
  | Return false => ret (Raise NoMatchingElement)
  | Return true =>
      n <- count fuel ;;
      if 1 <? n then ret (Raise MoreThanOneMatchingElement) else first fuel
  end.

(** [single_or_default()]: [NoMatchingElement] is caught, any other
    exception goes through. *)
Definition single_or_default (fuel : nat) : M S (outcome (elem A)) :=
  r <- single fuel ;;
  match r with
  | Raise NoMatchingElement => ret (Return None)
  | other => ret other
  end.

(** [last()] and [last_or_default()], called without a predicate:
    [self.reverse().first()] and [self.reverse().first_or_default()].  The
    reversed node is made for the call; what is left of it is the
    receiver. *)
Definition last (fuel : nat) : M S (outcome (elem A)) :=
  fun self =>
    match reverse fuel self with
    | Some r =>
        match first fuel r with
        | Some (x, r') => Some (x, rev_data r')
        | None => None
        end
    | None => None
    end.

Definition last_or_default (fuel : nat) : M S (outcome (elem A)) :=
  fun self =>
    match reverse fuel self with
    | Some r =>
        match first_or_default fuel r with
        | Some (x, r') => Some (x, rev_data r')
        | None => None
        end
    | None => None
    end.

(** [SkipEnumerable(enumerable, n)] and [TakeEnumerable(enumerable, n)]
    as [__init__] runs them: [itertools.islice(self.data, n)] and
    [itertools.islice(self.data, 0, n)] raise [ValueError] when [n] is
    negative.  (They raise it above [sys.maxsize] too; the integers of the
    model have no such bound.)  Otherwise the node is the one [skip] and
    [take] describe. *)
Definition SkipEnumerable_init (n : Z) (enumerable : S) : outcome (@SkipEnumerable S) :=
  if (n <? 0)%Z then Raise ValueError else Return (skip n enumerable).

Definition TakeEnumerable_init (n : Z) (enumerable : S) : outcome (@TakeEnumerable S) :=
  if (n <? 0)%Z then Raise ValueError else Return (take n enumerable).

(** [skip_last(n)]: [self.take(self.count() - n)]. *)
Definition skip_last (fuel : nat) (n : Z) (self : S) : option (outcome (@TakeEnumerable S)) :=
  match count fuel self with
  | Some (c, self') => Some (TakeEnumerable_init (Z.of_nat c - n) self')
  | None => None
  end.

(** [take_last(n)]: [self.skip(self.count() - n)]. *)
Definition take_last (fuel : nat) (n : Z) (self : S) : option (outcome (@SkipEnumerable S)) :=
  match count fuel self with
  | Some (c, self') => Some (SkipEnumerable_init (Z.of_nat c - n) self')
  | None => None
  end.

End MoreMethods.

(** ** A cycle over a node: [itertools.cycle(enumerable)] *)

Section CycleOverNode.

Variable A : Type.

(** [next(c)] for a cycle [c] made by [itertools.cycle(d)] from a node
    [d] built over a list: the cycle reads a generator of [d], whose state
    is the local [i] of its frame and which draws from the cycle of [d].
    The generator always answers, so the second branch is never taken. *)
Definition node_cycle_next (c : cycle (elem A) nat) (d : Enumerable A)
  : option (elem A) * cycle (elem A) nat * Enumerable A :=
  match cycle_next (@generator_next A) c d with
  | Some ((r, c'), d') => (r, c', d')
  | None => (None, c, d)
  end.

(** [over_at data c d p]: the cycle [c] over the node [d], built over the
    list [data], gives [data[p]] next.  On its first pass the generator it
    reads and the cycle of [d] stand at [p] too; once the generator has
    given its last element, and when the cycle replays, the cycle of [d]
    stands at the first element again. *)
Inductive over_at (data : list (elem A))
  : cycle (elem A) nat -> Enumerable A -> nat -> Prop :=
| over_first_pass (p : nat) (d : Enumerable A) :
    _data d = data ->
    cursor_at data (_cycle d) p ->
    over_at data (mkCycle (Some p) (firstn p data) 0) d p
| over_wrap (d : Enumerable A) :
    _data d = data ->
    cursor_at data (_cycle d) 0 ->
    over_at data (mkCycle (Some (length data)) data 0) d 0
| over_replay (p : nat) (d : Enumerable A) :
    _data d = data ->
    cursor_at data (_cycle d) 0 ->
    p < length data ->
    over_at data (mkCycle None data p) d p.

(** The builtin [any(p(x) for x in self)] on a node built over a list: it
    resumes a new generator of the node until [p] holds or the generator
    ends, and abandons it there. *)
Fixpoint any_loop (fuel : nat) (p : elem A -> bool) (i : nat) (self : Enumerable A)
  : bool * Enumerable A :=
  match fuel with
  | 0 => (false, self)
  | S f =>
      match iter_next i self with
      | (Some x, i', self') =>
          if p x then (true, self') else any_loop f p i' self'
      | (None, _, self') => (false, self')
      end
  end.

Definition builtin_any (p : elem A -> bool) (self : Enumerable A) : bool * Enumerable A :=
  any_loop (S (len self)) p 0 self.

End CycleOverNode.

(** ** [where] *)

Section Where.

Variable A : Type.

(** A [WhereEnumerable] over a node built over a list: [_data], that
    node; [predicate]; and [_cycle], which [Enumerable.__init__] sets to
    [itertools.cycle(self._data)]. *)
Record WhereEnumerable : Type := mkWhere {
  wh_data : Enumerable A;
  wh_predicate : elem A -> bool;
  wh_cycle : cycle (elem A) nat
}.

(** [WhereEnumerable(enumerable, predicate)]. *)
Definition WhereEnumerable_init (enumerable : Enumerable A) (predicate : elem A -> bool)
  : WhereEnumerable :=
  mkWhere enumerable predicate (cycle_new 0).

(** [where(predicate)], for a predicate that is not [None]. *)
Definition where_ (predicate : elem A -> bool) (self : Enumerable A) : WhereEnumerable :=
  WhereEnumerable_init self predicate.

(** [next(self._cycle)]. *)
Definition where_next (self : WhereEnumerable) : option (elem A) * WhereEnumerable :=
  let '(r, c, d) := node_cycle_next (wh_cycle self) (wh_data self) in
  (r, mkWhere d (wh_predicate self) c).

(** [WhereEnumerable.__iter__], run to its end:
    [while i < len(self.data): element = next(self._cycle);
     if self.predicate(element): yield element; i += 1].
    [k] is [len(self.data) - i]; a [StopIteration] raised by [next] ends
    the traversal. *)
Fixpoint where_loop (k : nat) (self : WhereEnumerable) : list (elem A) * WhereEnumerable :=
  match k with
  | 0 => ([], self)
  | S k' =>
      match where_next self with
      | (Some element, self1) =>
          let (ys, s) := where_loop k' self1 in
          (if wh_predicate self element then element :: ys else ys, s)
      | (None, self1) => ([], self1)
      end
  end.

Definition where_to_list (self : WhereEnumerable) : list (elem A) * WhereEnumerable :=
  where_loop (len (wh_data self)) self.

(** [WhereEnumerable.__len__]:
    [len([element for element in self.data if self.predicate(element)])],
    which traverses [self.data] with a generator of its own. *)
Definition where_len (self : WhereEnumerable) : nat * WhereEnumerable :=
  let (xs, d) := to_list (wh_data self) in
  (length (filter (wh_predicate self) xs), mkWhere d (wh_predicate self) (wh_cycle self)).

#[global] Instance WhereEnumerable_Node : Node A WhereEnumerable := {
  node_len := fun _ self => Some (where_len self);
  node_iter := fun _ self => Some (where_to_list self)
}.

(** A method called with a predicate runs on [self.where(predicate)], a
    node made for the call; what is left of that node is the receiver. *)
Definition with_where {X : Type} (m : M WhereEnumerable X) (predicate : elem A -> bool)
  : M (Enumerable A) X :=
  fun self =>
    match m (where_ predicate self) with
    | Some (x, w) => Some (x, wh_data w)
    | None => None
    end.

(** [count(predicate)]: [sum(1 for element in self.where(predicate))]. *)
Definition count_where (fuel : nat) (predicate : elem A -> bool) : M (Enumerable A) nat :=
  with_where (count fuel) predicate.

(** [first(func)]: [self.where(func).element_at(0)]. *)
Definition first_where (fuel : nat) (func : elem A -> bool)
  : M (Enumerable A) (outcome (elem A)) :=
  with_where (first fuel) func.

(** [first_or_default(func)]: [self.where(func).element_at_or_default(0)]. *)
Definition first_or_default_where (fuel : nat) (func : elem A -> bool)
  : M (Enumerable A) (outcome (elem A)) :=
  with_where (first_or_default fuel) func.

(** [any(predicate)]: [self.first_or_default(predicate) is not None]. *)
Definition any_where (fuel : nat) (predicate : elem A -> bool)
  : M (Enumerable A) (outcome bool) :=
  r <- first_or_default_where fuel predicate ;;
  match r with
  | Raise e => ret (Raise e)
  | Return x => ret (Return (negb (is_None x)))
  end.

(** [single(predicate)] and [single_or_default(predicate)], where
    [result] is [self.where(predicate)]. *)
Definition single_where (fuel : nat) (predicate : elem A -> bool)
  : M (Enumerable A) (outcome (elem A)) :=
  with_where (single fuel) predicate.

Definition single_or_default_where (fuel : nat) (predicate : elem A -> bool)
  : M (Enumerable A) (outcome (elem A)) :=
  r <- single_where fuel predicate ;;
  match r with
  | Raise NoMatchingElement => ret (Return None)
  | other => ret other
  end.

End Where.

(** ** Nodes that can be traversed again and again *)

Section Steady.

Variable A : Type.
Context {S : Type} `{Node A S}.

(** [steady Inv l xs F]: on every state of the node that satisfies
    [Inv], and with fuel [F] at least, [len(self)] is [l] and a traversal
    run to its end yields [xs], and both leave the node in a state that
    satisfies [Inv] again. *)
Definition steady (Inv : S -> Prop) (l : nat) (xs : list (elem A)) (F : nat) : Prop :=
  forall (fuel : nat) (s : S),
    Inv s -> F <= fuel ->
    (exists s', node_len fuel s = Some (l, s') /\ Inv s') /\
    (exists s', node_iter fuel s = Some (xs, s') /\ Inv s').

(** The states of a reversed node over a steady node that yields [xs]:
    its cycle is new, or has read [reversed(self.data)] to its end, or
    replays and stands at the first element. *)
Definition reversed_at_start (Inv : S -> Prop) (xs : list (elem A))
  (r : ReversedEnumerable A) : Prop :=
  Inv (rev_data r) /\
  (rev_cycle r = cycle_new (Z.of_nat (length xs) - 1)%Z \/
   rev_cycle r = mkCycle (Some (-1)%Z) (rev xs) 0 \/
   rev_cycle r = mkCycle None (rev xs) 0).

End Steady.

(** The states of a node built over the list [data] that stands at its
    start. *)
Definition list_at_start {A : Type} (data : list (elem A)) (self : Enumerable A) : Prop :=
  _data self = data /\ at_start self.

(** The states of a [where] node over a node built over [data] whose
    next traversal starts with the first element of [data]. *)
Definition where_at_start {A : Type} (data : list (elem A)) (predicate : elem A -> bool)
  (self : WhereEnumerable A) : Prop :=
  _data (wh_data self) = data /\
  wh_predicate self = predicate /\
  (data = [] \/ over_at data (wh_cycle self) (wh_data self) 0).

(** [last(func)] and [last_or_default(func)]:
    [self.where(func).reverse().first()] and
    [self.where(func).reverse().first_or_default()]. *)
Definition last_where {A : Type} (fuel : nat) (func : elem A -> bool)
  : M (Enumerable A) (outcome (elem A)) :=
  with_where (last fuel) func.

Definition last_or_default_where {A : Type} (fuel : nat) (func : elem A -> bool)
  : M (Enumerable A) (outcome (elem A)) :=
  with_where (last_or_default fuel) func.

(** ** [concat], [append], [prepend] and [add] *)

Section Concatenate.

Variable A : Type.

(** The state of [itertools.chain(self.data, self.enumerable)] over two
    nodes built over lists, which are two different objects: it reads a
    generator of the first node, then a generator of the second one, and
    is exhausted after that.  The state of a generator is the local [i]
    of its frame. *)
Inductive chain : Type :=
| chain_first (i : nat)
| chain_second (i : nat)
| chain_end.

(** [next] of the chain: when the generator it reads ends, it goes on to
    the next one. *)
Definition chain_next (st : chain)
  : M (Enumerable A * Enumerable A) (option (elem A) * chain) :=
  fun '(d, e) =>
    match st with
    | chain_first i =>
        match iter_next i d with
        | (Some x, i', d') => Some ((Some x, chain_first i'), (d', e))
        | (None, _, d') =>
            match iter_next 0 e with
            | (Some x, i', e') => Some ((Some x, chain_second i'), (d', e'))
            | (None, _, e') => Some ((None, chain_end), (d', e'))
            end
        end
    | chain_second i =>
        match iter_next i e with
        | (Some x, i', e') => Some ((Some x, chain_second i'), (d, e'))
        | (None, _, e') => Some ((None, chain_end), (d, e'))
        end
    | chain_end => Some ((None, chain_end), (d, e))
    end.

(** A [ConcatenateEnumerable]: [_data] and [enumerable], the two nodes,
    and [_cycle], a cycle over the chain of them. *)
Record ConcatenateEnumerable : Type := mkConcatenate {
  concat_data : Enumerable A;
  concat_enumerable : Enumerable A;
  concat_cycle : cycle (elem A) chain
}.

(** [ConcatenateEnumerable(enumerable1, enumerable2)]. *)
Definition ConcatenateEnumerable_init (enumerable1 enumerable2 : Enumerable A)
  : ConcatenateEnumerable :=
  mkConcatenate enumerable1 enumerable2 (cycle_new (chain_first 0)).

(** [__len__]: [len(self.data) + len(self.enumerable)]. *)
Definition concatenate_len (self : ConcatenateEnumerable) : nat :=
  len (concat_data self) + len (concat_enumerable self).

(** [next(self._cycle)].  The chain always answers, so the second branch
    is never taken. *)
Definition concatenate_next (self : ConcatenateEnumerable)
  : option (elem A) * ConcatenateEnumerable :=
  match
    cycle_next chain_next (concat_cycle self) (concat_data self, concat_enumerable self)
  with
  | Some ((r, c), (d, e)) => (r, mkConcatenate d e c)
  | None => (None, self)
  end.

(** The inherited [__iter__], run to its end:
    [while i < len(self): yield next(self._cycle); i += 1].
    [k] is [len(self) - i]; a [StopIteration] raised by [next] ends the
    traversal. *)
Fixpoint concatenate_loop (k : nat) (self : ConcatenateEnumerable)
  : list (elem A) * ConcatenateEnumerable :=
  match k with
  | 0 => ([], self)
  | S k' =>
      match concatenate_next self with
      | (Some x, self1) =>
          let (ys, s) := concatenate_loop k' self1 in (x :: ys, s)
      | (None, self1) => ([], self1)
      end
  end.

Definition concatenate_to_list (self : ConcatenateEnumerable)
  : list (elem A) * ConcatenateEnumerable :=
  concatenate_loop (concatenate_len self) self.

#[global] Instance ConcatenateEnumerable_Node : Node A ConcatenateEnumerable := {
  node_len := fun _ self => Some (concatenate_len self, self);
  node_iter := fun _ self => Some (concatenate_to_list self)
}.

(** [concat(enumerable)], for an argument that is an [Enumerable]. *)
Definition concat (enumerable : Enumerable A) (self : Enumerable A) : ConcatenateEnumerable :=
  ConcatenateEnumerable_init self enumerable.

(** [append(element)]: [self.concat(Enumerable([element]))]. *)
Definition append (element : elem A) (self : Enumerable A) : ConcatenateEnumerable :=
  concat (Enumerable_init [element]) self.

(** [prepend(element)]: [Enumerable([element]).concat(self)]. *)
Definition prepend (element : elem A) (self : Enumerable A) : ConcatenateEnumerable :=
  concat self (Enumerable_init [element]).

(** [add(element)]: the receiver itself if [element is None],
    [self.concat(Enumerable([element]))] otherwise. *)
Definition add (element : elem A) (self : Enumerable A) : self_or ConcatenateEnumerable :=
  if is_None element then Self else New (concat (Enumerable_init [element]) self).

(** [concat_at xs ys self p]: the cycle of a node that concatenates nodes
    built over [xs] and [ys] gives [(xs ++ ys)[p]] next.  On its first
    pass the chain reads the first node, or stands between the two, or
    reads the second one; then it has given its last element; then the
    cycle replays.  A node that is not being read stands at its start. *)
Inductive concat_at (xs ys : list (elem A)) : ConcatenateEnumerable -> nat -> Prop :=
| concat_in_first (q : nat) (d e : Enumerable A) :
    _data d = xs -> _data e = ys ->
    cursor_at xs (_cycle d) q ->
    at_start e ->
    concat_at xs ys
      (mkConcatenate d e (mkCycle (Some (chain_first q)) (firstn q xs) 0)) q
| concat_between (d e : Enumerable A) :
    _data d = xs -> _data e = ys ->
    at_start d ->
    cursor_at ys (_cycle e) 0 ->
    concat_at xs ys
      (mkConcatenate d e (mkCycle (Some (chain_first (length xs))) xs 0)) (length xs)
| concat_in_second (q : nat) (d e : Enumerable A) :
    _data d = xs -> _data e = ys ->
    at_start d ->
    cursor_at ys (_cycle e) q ->
    0 < q ->
    concat_at xs ys
      (mkConcatenate d e (mkCycle (Some (chain_second q)) (xs ++ firstn q ys) 0))
      (length xs + q)
| concat_wrap (st : chain) (d e : Enumerable A) :
    _data d = xs -> _data e = ys ->
    at_start d ->
    at_start e ->
    xs ++ ys <> [] ->
    (st = chain_second (length ys) \/ (st = chain_first (length xs) /\ ys = [])) ->
    concat_at xs ys (mkConcatenate d e (mkCycle (Some st) (xs ++ ys) 0)) 0
| concat_replay (p : nat) (d e : Enumerable A) :
    _data d = xs -> _data e = ys ->
    at_start d ->
    at_start e ->
    p < length (xs ++ ys) ->
    concat_at xs ys (mkConcatenate d e (mkCycle None (xs ++ ys) p)) p.

(** The states of such a node whose next traversal starts with the first
    element of [xs ++ ys]. *)
Definition concat_at_start (xs ys : list (elem A)) (self : ConcatenateEnumerable) : Prop :=
  _data (concat_data self) = xs /\
  _data (concat_enumerable self) = ys /\
  (xs ++ ys = [] \/ concat_at xs ys self 0).

End Concatenate.

(** ** [zip] *)

Section Zip.

Variables A B C : Type.

(** The classes of the two nodes that are zipped. *)
Context {S1 : Type} `{Node A S1} {S2 : Type} `{Node B S2}.

(** A [ZipEnumerable]: [_data] and [enumerable], the two nodes, and
    [result_func].  ([_cycle] is not read by [__iter__].) *)
Record ZipEnumerable : Type := mkZip {
  zip_data : S1;
  zip_enumerable : S2;
  zip_result_func : elem A * elem B -> elem C
}.

(** [__len__]: [min(len(self.data), len(self.enumerable))]. *)
Definition zip_len (fuel : nat) : M ZipEnumerable nat :=
  fun self =>
    match node_len fuel (zip_data self) with
    | Some (l1, d) =>
        match node_len fuel (zip_enumerable self) with
        | Some (l2, e) => Some (Nat.min l1 l2, mkZip d e (zip_result_func self))
        | None => None
        end
    | None => None
    end.

(** [__iter__], run to its end:
    [while i < len(self):
       yield self.result_func((self.data[i], self.enumerable[i])); i += 1].
    [__getitem__] raises for a negative index only, so the branches for an
    exception, which end the traversal, are never taken. *)
Fixpoint zip_iter (fuel : nat) (i : nat) : M ZipEnumerable (list (elem C)) :=
  match fuel with
  | 0 => fun _ => None
  | Datatypes.S f =>
      n <- zip_len f ;;
      if i <? n then
        fun self =>
          match getitem f (Z.of_nat i) (zip_data self) with
          | Some (Return a, d) =>
              match getitem f (Z.of_nat i) (zip_enumerable self) with
              | Some (Return b, e) =>
                  (xs <- zip_iter f (Datatypes.S i) ;;
                   ret (zip_result_func self (a, b) :: xs))
                    (mkZip d e (zip_result_func self))
              | Some (Raise _, e) => Some ([], mkZip d e (zip_result_func self))
              | None => None
              end
          | Some (Raise _, d) =>
              Some ([], mkZip d (zip_enumerable self) (zip_result_func self))
          | None => None
          end
      else ret []
  end.

#[global] Instance ZipEnumerable_Node : Node C ZipEnumerable := {
  node_len := zip_len;
  node_iter := fun fuel => zip_iter fuel 0
}.

(** [zip(enumerable, func)], for an argument that is an [Enumerable]. *)
Definition zip (enumerable : S2) (func : elem A * elem B -> elem C) (self : S1)
  : ZipEnumerable :=
  mkZip self enumerable func.

(** The states of a node that zips two steady nodes. *)
Definition zip_at_start (Inv1 : S1 -> Prop) (Inv2 : S2 -> Prop)
  (func : elem A * elem B -> elem C) (self : ZipEnumerable) : Prop :=
  Inv1 (zip_data self) /\ Inv2 (zip_enumerable self) /\ zip_result_func self = func.

End Zip.

(** ** [select_many] *)

Section SelectMany.

Variables A B : Type.
Context {S : Type} `{Node A S}.

(** A [SelectManyEnumerable]: [_data], the upstream node, and
    [selector], which gives a list.  ([_cycle] is not read by
    [__iter__].) *)
Record SelectManyEnumerable : Type := mkSelectMany {
  select_many_data : S;
  selector : elem A -> list (elem B)
}.

(** [__iter__] is
    [for element in self.data:
       collection = self.selector(element)
       for subelement in collection: yield subelement];
    [__len__] is inherited and traverses [self._data]. *)
#[global] Instance SelectManyEnumerable_Node : Node B SelectManyEnumerable := {
  node_len := fun fuel =>
    on_attr select_many_data (fun self d => mkSelectMany d (selector self))
      (upstream_len fuel);
  node_iter := fun fuel self =>
    on_attr select_many_data (fun self d => mkSelectMany d (selector self))
      (xs <- node_iter fuel ;; ret (flat_map (selector self) xs)) self
}.

(** [select_many(func)]. *)
Definition select_many (f : elem A -> list (elem B)) (self : S) : SelectManyEnumerable :=
  mkSelectMany self f.

End SelectMany.

(** ** [distinct] *)

Section Distinct.

Variable A : Type.
Context {S : Type} `{Node A S}.

(** A [DistinctEnumerable]: [_data], the upstream node; [key], taken to
    give integers; and [set], a dictionary that lives as long as the
    node.  ([_cycle] is not read by [__iter__].) *)
Record DistinctEnumerable : Type := mkDistinct {
  distinct_data : S;
  distinct_key : elem A -> Z;
  distinct_set : dict (elem A)
}.

(** The body of the first loop of [__iter__]:
    [if not self.key(element) in self.set:
       self.set[self.key(element)] = element]. *)
Definition distinct_step (key : elem A -> Z) (set : dict (elem A)) (element : elem A)
  : dict (elem A) :=
  match dict_get set (key element) with
  | None => set ++ [(key element, element)]
  | Some _ => set
  end.

(** [__iter__], run to its end: the first loop traverses [self.data] and
    fills [self.set], the second one, [for k in self.set: yield
    self.set[k]], yields its values.  [__len__] is inherited and traverses
    [self._data]. *)
#[global] Instance DistinctEnumerable_Node : Node A DistinctEnumerable := {
  node_len := fun fuel =>
    on_attr distinct_data (fun self d => mkDistinct d (distinct_key self) (distinct_set self))
      (upstream_len fuel);
  node_iter := fun fuel self =>
    match node_iter fuel (distinct_data self) with
    | Some (xs, d) =>
        let set := fold_left (distinct_step (distinct_key self)) xs (distinct_set self) in
        Some (map snd set, mkDistinct d (distinct_key self) set)
    | None => None
    end
}.

(** [distinct(key)]. *)
Definition distinct (key : elem A -> Z) (self : S) : DistinctEnumerable :=
  mkDistinct self key [].

End Distinct.

(** ** [intersect] and [except_] *)

(** A class of keys: [key_eqb] is its [==]. *)
Class KeyEq (K : Type) : Type := {
  key_eqb : K -> K -> bool
}.

Section Intersect.

(** [A] is the class of the elements and [K] the class of the keys,
    with its [==]. *)
Variable A : Type.
Context {K : Type} `{KeyEq K}.

(** An [IntersectEnumerable]: [_data] and [enumerable], two nodes built
    over lists, which are two different objects, and [key]. *)
Record IntersectEnumerable : Type := mkIntersect {
  intersect_data : Enumerable A;
  intersect_enumerable : Enumerable A;
  intersect_key : elem A -> K
}.

(** An [ExceptEnumerable] is an [IntersectEnumerable] with an [__iter__]
    of its own. *)
Record ExceptEnumerable : Type := mkExcept {
  except_base : IntersectEnumerable
}.

(** The loop the two [__iter__] methods share, run to its end:
    [for i in self.data:
       k1 = self.key(i)
       if any(self.key(i2) == k1 for i2 in self.enumerable): yield i],
    and the same with [if not any(...)] for [ExceptEnumerable]; [keep] is
    the value of [any(...)] for which [i] is yielded.  [k] bounds the
    resumptions of the generator of [self.data]; [j] is the local of that
    generator.  Every element makes [any] resume a new generator of
    [self.enumerable]. *)
Fixpoint intersect_loop (keep : bool) (k : nat) (j : nat) (self : IntersectEnumerable)
  : list (elem A) * IntersectEnumerable :=
  match k with
  | 0 => ([], self)
  | S k' =>
      match iter_next j (intersect_data self) with
      | (Some i, j', d) =>
          let k1 := intersect_key self i in
          let (found, e) :=
            builtin_any (fun i2 => key_eqb (intersect_key self i2) k1)
                        (intersect_enumerable self) in
          let (ys, s) := intersect_loop keep k' j' (mkIntersect d e (intersect_key self)) in
          (if Bool.eqb found keep then i :: ys else ys, s)
      | (None, _, d) =>
          ([], mkIntersect d (intersect_enumerable self) (intersect_key self))
      end
  end.

(** [IntersectEnumerable.__iter__] and [ExceptEnumerable.__iter__], run
    to their end: the generator of [self.data] ends at its resumption
    number [len(self.data) + 1], which yields nothing and changes
    nothing. *)
Definition intersect_to_list (self : IntersectEnumerable)
  : list (elem A) * IntersectEnumerable :=
  intersect_loop true (len (intersect_data self)) 0 self.

Definition except_to_list (self : ExceptEnumerable) : list (elem A) * ExceptEnumerable :=
  let (ys, s) := intersect_loop false (len (intersect_data (except_base self))) 0
                   (except_base self) in
  (ys, mkExcept s).

(** The inherited [__len__] traverses [self._data]. *)
Definition intersect_len (self : IntersectEnumerable) : nat * IntersectEnumerable :=
  let (xs, d) := to_list (intersect_data self) in
  (length xs, mkIntersect d (intersect_enumerable self) (intersect_key self)).

#[global] Instance IntersectEnumerable_Node : Node A IntersectEnumerable := {
  node_len := fun _ self => Some (intersect_len self);
  node_iter := fun _ self => Some (intersect_to_list self)
}.

#[global] Instance ExceptEnumerable_Node : Node A ExceptEnumerable := {
  node_len := fun _ self =>
    let (n, s) := intersect_len (except_base self) in Some (n, mkExcept s);
  node_iter := fun _ self => Some (except_to_list self)
}.

(** [intersect(enumerable, key)] and [except_(enumerable, key)], for an
    argument that is an [Enumerable]. *)
Definition intersect (enumerable : Enumerable A) (key : elem A -> K) (self : Enumerable A)
  : IntersectEnumerable :=
  mkIntersect self enumerable key.

Definition except_ (enumerable : Enumerable A) (key : elem A -> K) (self : Enumerable A)
  : ExceptEnumerable :=
  mkExcept (mkIntersect self enumerable key).

(** Whether some element of [ys] has the key of [i]. *)
Definition key_in (key : elem A -> K) (ys : list (elem A)) (i : elem A) : bool :=
  existsb (fun i2 => key_eqb (key i2) (key i)) ys.

End Intersect.

(** ** [join] *)

Section Join.

(** [A] and [B] are the classes of the outer and of the inner elements,
    [K] the class of the keys, with its [==], and [C] the class of what
    [result_func] returns. *)
Variables A B C : Type.
Context {K : Type} `{KeyEq K}.

(** A [JoinEnumerable]: [_data] and [inner_enumerable], two nodes built
    over lists, which are two different objects; the three functions; and
    [data_cycle] and [enumerable_cycle], cycles over these nodes.
    ([_cycle] is not read by [__iter__].) *)
Record JoinEnumerable : Type := mkJoin {
  join_data : Enumerable A;
  join_inner_enumerable : Enumerable B;
  join_outer_key : elem A -> K;
  join_inner_key : elem B -> K;
  join_result_func : elem A * elem B -> elem C;
  data_cycle : cycle (elem A) nat;
  enumerable_cycle : cycle (elem B) nat
}.

(** [JoinEnumerable(outer_enumerable, inner_enumerable, outer_key,
    inner_key, result_func)]. *)
Definition JoinEnumerable_init (outer_enumerable : Enumerable A)
  (inner_enumerable : Enumerable B) (outer_key : elem A -> K) (inner_key : elem B -> K)
  (result_func : elem A * elem B -> elem C) : JoinEnumerable :=
  mkJoin outer_enumerable inner_enumerable outer_key inner_key result_func
         (cycle_new 0) (cycle_new 0).

(** The inner loop of [__iter__] for the outer element [o]:
    [while j < len(self.inner_enumerable):
       inner = next(self.enumerable_cycle)
       ik = self.inner_key(inner)
       if ok == ik: yield self.result_func((o, inner))
       j += 1];
    [k] is [len(self.inner_enumerable) - j].  The flag says whether
    [next] raised [StopIteration], which ends the whole traversal. *)
Fixpoint join_inner_loop (k : nat) (o : elem A) (self : JoinEnumerable)
  : list (elem C) * bool * JoinEnumerable :=
  match k with
  | 0 => ([], false, self)
  | S k' =>
      let '(r, c, e) :=
        node_cycle_next (enumerable_cycle self) (join_inner_enumerable self) in
      let self1 :=
        mkJoin (join_data self) e (join_outer_key self) (join_inner_key self)
               (join_result_func self) (data_cycle self) c in
      match r with
      | Some inner =>
          let '(ys, stopped, s) := join_inner_loop k' o self1 in
          (if key_eqb (join_outer_key self o) (join_inner_key self inner)
           then join_result_func self (o, inner) :: ys
           else ys, stopped, s)
      | None => ([], true, self1)
      end
  end.

(** The outer loop:
    [while i < len(self.data):
       o = next(self.data_cycle); ok = self.outer_key(o); j = 0; ...; i += 1];
    [k] is [len(self.data) - i]. *)
Fixpoint join_outer_loop (k : nat) (self : JoinEnumerable)
  : list (elem C) * JoinEnumerable :=
  match k with
  | 0 => ([], self)
  | S k' =>
      let '(r, c, d) := node_cycle_next (data_cycle self) (join_data self) in
      let self1 :=
        mkJoin d (join_inner_enumerable self) (join_outer_key self) (join_inner_key self)
               (join_result_func self) c (enumerable_cycle self) in
      match r with
      | Some o =>
          let '(ys, stopped, self2) :=
            join_inner_loop (len (join_inner_enumerable self1)) o self1 in
          if stopped then (ys, self2)
          else let (zs, s) := join_outer_loop k' self2 in (ys ++ zs, s)
      | None => ([], self1)
      end
  end.

Definition join_to_list (self : JoinEnumerable) : list (elem C) * JoinEnumerable :=
  join_outer_loop (len (join_data self)) self.

(** The inherited [__len__] traverses [self._data], the outer node. *)
Definition join_len (self : JoinEnumerable) : nat * JoinEnumerable :=
  let (xs, d) := to_list (join_data self) in
  (length xs,
   mkJoin d (join_inner_enumerable self) (join_outer_key self) (join_inner_key self)
          (join_result_func self) (data_cycle self) (enumerable_cycle self)).

#[global] Instance JoinEnumerable_Node : Node C JoinEnumerable := {
  node_len := fun _ self => Some (join_len self);
  node_iter := fun _ self => Some (join_to_list self)
}.

(** What an inner equi-join of two lists is: for each outer element, in
    order, the inner elements whose key equals its key, in order. *)
Definition join_of (outer_key : elem A -> K) (inner_key : elem B -> K)
  (result_func : elem A * elem B -> elem C) (xs : list (elem A)) (ys : list (elem B))
  : list (elem C) :=
  flat_map
    (fun o =>
       map (fun inner => result_func (o, inner))
           (filter (fun inner => key_eqb (outer_key o) (inner_key inner)) ys))
    xs.

(** [join(inner_enumerable, outer_key, inner_key, result_func)], for an
    argument that is an [Enumerable]. *)
Definition Enumerable_join (inner_enumerable : Enumerable B) (outer_key : elem A -> K)
  (inner_key : elem B -> K) (result_func : elem A * elem B -> elem C)
  (self : Enumerable A) : JoinEnumerable :=
  JoinEnumerable_init self inner_enumerable outer_key inner_key result_func.

(** The states of a join node whose next traversal starts with the
    first elements of both lists. *)
Definition join_at_start (xs : list (elem A)) (ys : list (elem B))
  (outer_key : elem A -> K) (inner_key : elem B -> K)
  (result_func : elem A * elem B -> elem C) (self : JoinEnumerable) : Prop :=
  _data (join_data self) = xs /\
  _data (join_inner_enumerable self) = ys /\
  (xs = [] \/ over_at xs (data_cycle self) (join_data self) 0) /\
  (ys = [] \/ over_at ys (enumerable_cycle self) (join_inner_enumerable self) 0) /\
  join_outer_key self = outer_key /\
  join_inner_key self = inner_key /\
  join_result_func self = result_func.

End Join.

(** What a distinct node yields when its upstream node yields [xs]: the
    values of the dictionary that the first loop of [__iter__] fills from
    an empty one. *)
Definition distinct_of {A : Type} (key : elem A -> Z) (xs : list (elem A)) : list (elem A) :=
  map snd (fold_left (distinct_step key) xs []).

(** The states of a distinct node over a steady node that yields [xs]:
    its dictionary is empty, or filled by a traversal. *)
Definition distinct_at_start {A S : Type} (Inv : S -> Prop) (key : elem A -> Z)
  (xs : list (elem A)) (self : @DistinctEnumerable A S) : Prop :=
  Inv (distinct_data self) /\
  distinct_key self = key /\
  (distinct_set self = [] \/ distinct_set self = fold_left (distinct_step key) xs []).

(** A node built over the list [ys] whose cycle stands somewhere: a
    traversal of it was abandoned, or none was. *)
Definition somewhere {A : Type} (ys : list (elem A)) (self : Enumerable A) : Prop :=
  _data self = ys /\ (ys = [] \/ exists p, cursor_at ys (_cycle self) p).

(** The states of an intersect node whose first node stands at its
    start. *)
Definition intersect_at_start {A K : Type} (xs ys : list (elem A)) (key : elem A -> K)
  (self : @IntersectEnumerable A K) : Prop :=
  list_at_start xs (intersect_data self) /\
  somewhere ys (intersect_enumerable self) /\
  intersect_key self = key.

(** ** Traversals of [union] and [group_by] nodes *)

(** [keys_at ks c p]: the cycle [c] over the keys [ks] of a dictionary
    gives [ks[p]] next.  It is on its first pass, or has just read the
    last key of that pass, or replays. *)
Inductive keys_at (ks : list Z) : cycle Z (list Z) -> nat -> Prop :=
| keys_first (p : nat) :
    p < length ks ->
    keys_at ks (mkCycle (Some (skipn p ks)) (firstn p ks) 0) p
| keys_wrap :
    ks <> [] ->
    keys_at ks (mkCycle (Some []) ks 0) 0
| keys_replay (p : nat) :
    p < length ks ->
    keys_at ks (mkCycle None ks p) p.

Section KeyedNodes.

Variable A : Type.

(** [UnionEnumerable.__len__] is [len(self.union)]; [__iter__] is
    [union_to_list]. *)
#[global] Instance UnionEnumerable_Node : Node A (UnionEnumerable A) := {
  node_len := fun _ self => Some (length (union self), self);
  node_iter := fun _ self => Some (union_to_list self)
}.

(** The states of a union node with the dictionary [u] whose next
    traversal starts with the first key. *)
Definition union_at_start (u : dict (elem A)) (self : UnionEnumerable A) : Prop :=
  union self = u /\
  (u = [] \/ keys_at (map fst u) (union_cycle self) 0).

(** [R] is the class of what [func] returns. *)
Variable R : Type.

(** A [GroupedEnumerable] once [__init__] has returned: [_data], the
    node that was grouped; [func]; the dictionary [grouping]; and
    [_cycle], a cycle over the keys of [grouping]. *)
Record GroupedEnumerable : Type := mkGrouped {
  grouped_data : Enumerable A;
  grouped_func : Grouping A -> elem R;
  grouped_grouping : dict (Grouping A);
  grouped_cycle : cycle Z (list Z)
}.

(** [__iter__], run to its end:
    [while i < len(self): k = next(self._cycle);
     yield self.func(self.grouping[k]); i += 1],
    with [len(self) = len(self.grouping)]; [n] is [len(self) - i]. *)
Fixpoint grouped_iter (n : nat) (self : GroupedEnumerable)
  : list (elem R) * GroupedEnumerable :=
  match n with
  | 0 => ([], self)
  | S n' =>
      match cycle_next keys_next (grouped_cycle self) tt with
      | Some ((Some k, c), _) =>
          let self1 :=
            mkGrouped (grouped_data self) (grouped_func self) (grouped_grouping self) c in
          match dict_get (grouped_grouping self) k with
          | Some g => let (ys, s) := grouped_iter n' self1 in (grouped_func self g :: ys, s)
          | None => ([], self1)
          end
      | _ => ([], self)
      end
  end.

Definition grouped_to_list (self : GroupedEnumerable) : list (elem R) * GroupedEnumerable :=
  grouped_iter (length (grouped_grouping self)) self.

#[global] Instance GroupedEnumerable_Node : Node R GroupedEnumerable := {
  node_len := fun _ self => Some (length (grouped_grouping self), self);
  node_iter := fun _ self => Some (grouped_to_list self)
}.

(** [GroupedEnumerable(enumerable, key, key_names, func)]: the node, or
    the exception that [_load_data] raised. *)
Definition GroupedEnumerable_init (hash : String.string -> Z) (key : elem A -> pyval)
  (key_names : list String.string) (func : Grouping A -> elem R)
  (enumerable : Enumerable A) : outcome GroupedEnumerable :=
  match GroupedEnumerable_load hash key key_names enumerable with
  | (Return g, e) => Return (mkGrouped e func g (cycle_new (map fst g)))
  | (Raise ex, _) => Raise ex
  end.

(** [group_by(key_names, key, result_func)]. *)
Definition group_by (hash : String.string -> Z) (key_names : list String.string)
  (key : elem A -> pyval) (result_func : Grouping A -> elem R) (self : Enumerable A)
  : outcome GroupedEnumerable :=
  GroupedEnumerable_init hash key key_names result_func self.

(** The states of a group-by node with the dictionary [g] whose next
    traversal starts with the first key. *)
Definition grouped_at_start (g : dict (Grouping A)) (func : Grouping A -> elem R)
  (self : GroupedEnumerable) : Prop :=
  grouped_grouping self = g /\
  grouped_func self = func /\
  (g = [] \/ keys_at (map fst g) (grouped_cycle self) 0).

End KeyedNodes.

(** [union(enumerable, key)], for an argument that is an [Enumerable]. *)
Definition Enumerable_union {A : Type} (hash : String.string -> Z)
  (enumerable : Enumerable A) (key : elem A -> pyval) (self : Enumerable A)
  : UnionEnumerable A :=
  UnionEnumerable_init hash key self enumerable.

(** [replay_at data c p]: the cycle [c] has read all of [data] from the
    generator it was made from and gives [data[p]] next.  The generator
    stands at its end or is dropped, so that [next(c)] no longer reads the
    node the generator draws from. *)
Inductive replay_at (A : Type) (data : list (elem A)) : cycle (elem A) nat -> nat -> Prop :=
| replay_wrapped :
    data <> [] ->
    replay_at data (mkCycle (Some (length data)) data 0) 0
| replay_saved (p : nat) :
    p < length data ->
    replay_at data (mkCycle None data p) p.

(** * Lemmas and theorems *)

(** ** The base class: one cursor for all the traversals of a node *)

Section CoreFacts.

Variable A : Type.


Lemma skipn_cons_nth (data : list (elem A)) (p : nat) (x : elem A) :
  nth_error data p = Some x -> skipn p data = x :: skipn (S p) data.
Proof.
  revert p; induction data as [|y data IH]; intros [|p] Hx; simpl in *;
    try discriminate.
  - now inversion Hx.
  - now apply IH.
Qed.

Lemma firstn_snoc_nth (data : list (elem A)) (p : nat) (x : elem A) :
  nth_error data p = Some x -> firstn p data ++ [x] = firstn (S p) data.
Proof.
  revert p; induction data as [|y data IH]; intros [|p] Hx; simpl in *;
    try discriminate.
  - now inversion Hx.
  - f_equal. now apply IH.
Qed.

Lemma cursor_at_lt (data : list (elem A)) (c : cycle (elem A) (list (elem A))) (p : nat) :
  cursor_at data c p -> p < length data.
Proof.
  intros Hc; inversion Hc; subst; auto.
  destruct data; [congruence | simpl; lia].
Qed.

#[local] Arguments skipn : simpl never.
#[local] Arguments firstn : simpl never.

(** Drawing from a cycle that stands at [p] gives [data[p]] and moves the
    cycle to the next position, back to 0 after the last one. *)
Lemma next_cycle_at (self : Enumerable A) (p : nat) (x : elem A) :
  cursor_at (_data self) (_cycle self) p ->
  nth_error (_data self) p = Some x ->
  exists self',
    next_cycle self = (Some x, self') /\
    _data self' = _data self /\
    cursor_at (_data self') (_cycle self')
              (if len self <=? S p then 0 else S p).
Proof.
  destruct self as [data c]; unfold next_cycle, cycle_next, len; simpl.
  intros Hc Hx.
  assert (Hp : p < length data) by (apply nth_error_Some; congruence).
  inversion Hc; subst; simpl.
  - rewrite (skipn_cons_nth _ _ Hx); simpl.
    eexists; split; [reflexivity|]; split; [reflexivity|]; simpl.
    rewrite (firstn_snoc_nth _ _ Hx).
    destruct (Nat.leb_spec (length data) (S p)).
    + assert (Hn : S p = length data) by lia.
      rewrite Hn, skipn_all, firstn_all. constructor.
      intros ->; simpl in *; lia.
    + now constructor.
  - destruct data as [|y data]; [discriminate|].
    simpl in Hx; inversion Hx; subst y.
    eexists; split; [reflexivity|]; split; [reflexivity|]; simpl.
    constructor. destruct (Nat.leb_spec (length data) 0); simpl; lia.
  - unfold replay; simpl. rewrite Hx.
    eexists; split; [reflexivity|]; split; [reflexivity|]; simpl.
    constructor. destruct (Nat.leb_spec (length data) (S p)); lia.
Qed.

(** Once [i] has reached [len(self)] a resumption yields nothing and
    leaves the node as it is: the traversal is over. *)
Lemma iter_next_end (self : Enumerable A) (i : nat) :
  len self <= i -> iter_next i self = (None, i, self).
Proof.
  intros Hi; unfold iter_next.
  destruct (Nat.ltb_spec i (len self)); [lia | reflexivity].
Qed.

(** A generator resumed from a cursor at [p], with enough elements left
    before the end of the list: it yields the elements from [p] on, and
    the cursor follows. *)
Lemma drain_at (fuel : nat) :
  forall (i p : nat) (self : Enumerable A),
    cursor_at (_data self) (_cycle self) p ->
    i + fuel = len self ->
    p + fuel <= len self ->
    exists self',
      drain fuel i self = (firstn fuel (skipn p (_data self)), self') /\
      _data self' = _data self /\
      cursor_at (_data self') (_cycle self')
                (if len self <=? p + fuel then 0 else p + fuel).
Proof.
  induction fuel as [|fuel IH]; intros i p self Hc Hi Hp.
  - exists self; simpl; repeat split; auto.
    assert (p < len self) by (apply (cursor_at_lt Hc)).
    rewrite Nat.add_0_r.
    destruct (Nat.leb_spec (len self) p); [lia | assumption].
  - assert (Hlt : p < length (_data self)) by (unfold len in *; lia).
    destruct (nth_error (_data self) p) as [x|] eqn:Hx;
      [| apply nth_error_None in Hx; lia].
    destruct (next_cycle_at self Hc Hx) as (s1 & Hn & Hd & Hc1).
    simpl. unfold iter_next.
    destruct (Nat.ltb_spec i (len self)); [| lia].
    rewrite Hn.
    destruct (Nat.leb_spec (len self) (S p)) as [Hle|Hgt].
    + assert (fuel = 0) as -> by lia. simpl.
      exists s1; repeat split; auto.
      * rewrite (skipn_cons_nth _ _ Hx). reflexivity.
      * replace (len s1) with (len self) in * by (unfold len; now rewrite Hd).
        destruct (Nat.leb_spec (len self) (p + 1)); [assumption|lia].
    + assert (Hlen : len s1 = len self) by (unfold len; now rewrite Hd).
      destruct (IH (S i) (S p) s1 Hc1) as (s2 & Hs2 & Hd2 & Hc2); try lia.
      rewrite Hs2. exists s2; repeat split.
      * rewrite (skipn_cons_nth _ _ Hx), Hd. reflexivity.
      * congruence.
      * rewrite Hlen in Hc2. replace (p + S fuel) with (S p + fuel) by lia.
        assumption.
Qed.

(** A traversal run to its end on a node that stands at its start yields
    the list of the node, in order, and leaves the node at its start. *)
Lemma to_list_at_start (self : Enumerable A) :
  at_start self ->
  exists self',
    to_list self = (_data self, self') /\
    _data self' = _data self /\ at_start self'.
Proof.
  intros [Hnil | Hc].
  - exists self. unfold to_list, len. rewrite Hnil. simpl.
    repeat split; auto. now left.
  - unfold to_list.
    destruct (@drain_at (len self) 0 0 self Hc) as (s & Hs & Hd & Hc'); try lia.
    exists s. rewrite Hs. simpl. unfold len. rewrite firstn_all.
    repeat split; auto.
    right. simpl in Hc'. unfold len in Hc'. rewrite Nat.leb_refl in Hc'.
    assumption.
Qed.

Lemma Enumerable_init_at_start (data : list (elem A)) :
  at_start (Enumerable_init data).
Proof.
  destruct data as [|x data]; [now left | right].
  apply (cursor_first (x :: data) (p := 0)). simpl; lia.
Qed.



(** *** Indexed access and what is built on it *)

(** The loop of [__getitem__] keeps the element whose index is [m]. *)
Lemma getitem_scan (m : nat) (xs : list (elem A)) :
  forall (k : nat) (r : elem A),
    fold_left
      (fun result '(index, element) =>
         if (Z.of_nat index =? Z.of_nat m)%Z then element else result)
      (combine (seq k (length xs)) xs) r
    = if (k <=? m) && (m <? k + length xs) then nth (m - k) xs None else r.
Proof.
  induction xs as [|x xs IH]; intros k r; simpl.
  - destruct (Nat.leb_spec k m), (Nat.ltb_spec m (k + 0)); simpl; auto; lia.
  - rewrite IH.
    destruct (Z.eqb_spec (Z.of_nat k) (Z.of_nat m)) as [E|E].
    + assert (k = m) by lia; subst k.
      destruct (Nat.leb_spec (S m) m); [lia|]. simpl.
      rewrite Nat.leb_refl, Nat.sub_diag.
      destruct (Nat.ltb_spec m (m + S (length xs))); [reflexivity | lia].
    + assert (k <> m) by lia.
      destruct (Nat.leb_spec (S k) m), (Nat.leb_spec k m),
        (Nat.ltb_spec m (S k + length xs)), (Nat.ltb_spec m (k + S (length xs)));
        simpl; try lia; auto.
      replace (m - k) with (S (m - S k)) by lia. reflexivity.
Qed.

Section AnyNode.

Context {S : Type} `{Node A S}.

(** [__getitem__] in terms of what [len(self)] and the traversal it runs
    give: the element at [m] of the traversal, [None] when there is none
    or when [len(self)] is 0. *)
Lemma getitem_spec (fuel m : nat) (self s1 s2 : S) (l : nat) (xs : list (elem A)) :
  node_len fuel self = Some (l, s1) ->
  node_iter fuel s1 = Some (xs, s2) ->
  getitem fuel (Z.of_nat m) self
  = Some (Return (if l =? 0 then None else nth m xs None),
          if l =? 0 then s1 else s2).
Proof.
  intros Hl Hi. unfold getitem, bind, ret.
  destruct (Z.ltb_spec (Z.of_nat m) 0); [lia|].
  rewrite Hl. destruct (l =? 0); [reflexivity|].
  rewrite Hi. unfold enumerate. rewrite getitem_scan. simpl.
  rewrite Nat.sub_0_r.
  destruct (Nat.ltb_spec m (length xs)); [reflexivity|].
  now rewrite nth_overflow by lia.
Qed.

End AnyNode.

(** On a node that stands at its start [self[m]] is the element at [m] of
    its list, or [None] past its end. *)
Lemma getitem_at_start (fuel m : nat) (self : Enumerable A) :
  at_start self ->
  exists self',
    getitem fuel (Z.of_nat m) self = Some (Return (nth m (_data self) None), self') /\
    _data self' = _data self /\ at_start self'.
Proof.
  intros Hs.
  destruct (to_list_at_start Hs) as (s & Hl & Hd & Hs').
  rewrite (@getitem_spec _ _ fuel m self self s (len self) (_data self));
    [| reflexivity | simpl; now rewrite Hl].
  unfold len. destruct (_data self) as [|x data] eqn:E; simpl.
  - exists self. split; [destruct m; reflexivity | split; assumption].
  - exists s. split; [reflexivity | split; [congruence | assumption]].
Qed.

(** C10: on every node that stands at its start and has [None] at
    position [n] of its list, [element_at(n)] raises [IndexError]; when
    that position is the first one, [first_or_default()] returns [None] and
    [any()] returns [False] although the node has elements. *)
Theorem C10_None_element_is_absent (fuel n : nat) (self : Enumerable A) :
  at_start self ->
  nth_error (_data self) n = Some None ->
  (exists s, element_at fuel (Z.of_nat n) self = Some (Raise IndexError, s)) /\
  (n = 0 ->
   0 < len self /\
   (exists s, first_or_default fuel self = Some (Return None, s)) /\
   (exists s, any fuel self = Some (Return false, s))).
Proof.
  intros Hs Hn.
  assert (Hnth : nth n (_data self) None = None).
  { apply nth_error_nth with (d := None) in Hn. exact Hn. }
  destruct (getitem_at_start fuel n Hs) as (s & Hg & _ & _).
  rewrite Hnth in Hg.
  assert (He : element_at fuel (Z.of_nat n) self = Some (Raise IndexError, s)).
  { unfold element_at, bind. now rewrite Hg. }
  split; [now exists s|].
  intros ->. simpl in He.
  split; [| split; exists s].
  - unfold len. destruct (_data self); [discriminate | simpl; lia].
  - unfold first_or_default, element_at_or_default, bind. now rewrite He.
  - unfold any, first_or_default, element_at_or_default, bind. now rewrite He.
Qed.

(** *** [aggregate] *)

(** With no seed the loop of [aggregate] passes over the element at
    index 0 and folds [func] over the others. *)
Lemma aggregate_loop_from (func : elem A -> elem A -> elem A) (xs : list (elem A)) :
  forall (k : nat) (r : elem A),
    0 < k ->
    fold_left
      (fun result '(i, e) => if (i =? 0) && is_None (@None A) then result else func result e)
      (combine (seq k (length xs)) xs) r
    = fold_left func xs r.
Proof.
  induction xs as [|x xs IH]; intros k r Hk; simpl; [reflexivity|].
  destruct k; [lia|]. simpl. apply IH. lia.
Qed.

(** The first half of C7: on a node that stands at its start and whose
    first element is not [None], [aggregate] without a seed starts from
    the first element and folds [func] over the others in order. *)
Lemma aggregate_no_seed (fuel : nat) (func : elem A -> elem A -> elem A)
  (self : Enumerable A) (a : A) (rest : list (elem A)) :
  at_start self ->
  _data self = Some a :: rest ->
  exists s,
    aggregate fuel func None self = Some (Return (fold_left func rest (Some a)), s).
Proof.
  intros Hs Hd.
  destruct (getitem_at_start fuel 0 Hs) as (s1 & Hg & Hd1 & Hs1).
  destruct (to_list_at_start Hs1) as (s2 & Hl & _ & _).
  exists s2.
  unfold aggregate, first, element_at, bind, ret.
  change (is_None (@None A)) with true. cbv beta iota.
  change 0%Z with (Z.of_nat 0). rewrite Hg, Hd.
  change (is_None (nth 0 (Some a :: rest) None)) with false. cbv beta iota.
  change (node_iter fuel s1) with (Some (to_list s1)). rewrite Hl, Hd1, Hd.
  unfold aggregate_loop, enumerate. simpl.
  now rewrite aggregate_loop_from by lia.
Qed.

(** C7 at the empty sequence: [aggregate] without a seed raises
    [IndexError], the exception of [element_at], where [min], [max],
    [avg] and [median] raise [NoElementsError]. *)
Theorem C7_aggregate_empty_raises_IndexError
  (fuel : nat) (func : elem A -> elem A -> elem A) (key : elem A -> Z) :
  aggregate fuel func None (Enumerable_init (@nil (elem A)))
  = Some (Raise IndexError, Enumerable_init []) /\
  min fuel key (Enumerable_init (@nil (elem A)))
  = Some (Raise NoElementsError, Enumerable_init []) /\
  max fuel key (Enumerable_init (@nil (elem A)))
  = Some (Raise NoElementsError, Enumerable_init []) /\
  avg fuel key (Enumerable_init (@nil (elem A)))
  = Some (Raise NoElementsError, Enumerable_init []) /\
  median fuel key (Enumerable_init (@nil (elem A)))
  = Some (Raise NoElementsError, Enumerable_init []).
Proof. repeat split. Qed.

End CoreFacts.


(** What the two traversals of the counterexample yield when each is
    resumed three times. *)
Example interleave_123 :
  fst (interleave [true; false; true; false; true; false] 0 0
         (Enumerable_init [Some 1; Some 2; Some 3]))
  = ([Some 1; Some 3; Some 2], [Some 2; Some 1; Some 3]).
Proof. reflexivity. Qed.

(** A traversal that is abandoned leaves the cursor where it stopped:
    after [all] has failed on the second element, [to_list] starts with
    the third. *)
Example all_then_to_list :
  let (r, e) := all (fun x => match x with Some n => n <? 2 | None => false end)
                    (Enumerable_init [Some 1; Some 2; Some 3]) in
  r = false /\ fst (to_list e) = [Some 3; Some 1; Some 2].
Proof. split; reflexivity. Qed.

(** ** [reverse] *)

Section ReverseFacts.

Variable A : Type.

(** [len(self)] of a reversed node traverses the upstream node. *)
Lemma rev_len_at_start (f : nat) (e : Enumerable A) (c : cycle (elem A) Z) :
  at_start e ->
  exists e1,
    rev_len f (mkReversed e c) = Some (length (_data e), mkReversed e1 c) /\
    _data e1 = _data e /\ at_start e1.
Proof.
  intros Hs. destruct (to_list_at_start Hs) as (e1 & Hl & Hd1 & Hs1).
  exists e1. unfold rev_len, on_attr, upstream_len, bind, ret.
  cbn [rev_data rev_cycle node_iter Enumerable_Node]. rewrite Hl.
  repeat split; auto.
Qed.

(** On its first pass the cycle of a reversed node reads the upstream
    node by index. *)
Lemma rev_next_cycle_first_pass (f k : nat) (e : Enumerable A)
  (sv : list (elem A)) (ix : nat) :
  at_start e ->
  exists e1,
    rev_next_cycle f (mkReversed e (mkCycle (Some (Z.of_nat k)) sv ix))
    = Some (Some (nth k (_data e) None),
            mkReversed e1 (mkCycle (Some (Z.of_nat k - 1)%Z)
                                   (sv ++ [nth k (_data e) None]) ix)) /\
    _data e1 = _data e /\ at_start e1.
Proof.
  intros Hs. destruct (getitem_at_start f k Hs) as (e1 & Hg & Hd1 & Hs1).
  exists e1. unfold rev_next_cycle, cycle_next, reversed_next, bind, ret.
  cbn [rev_data rev_cycle it saved index].
  destruct (Z.leb_spec 0 (Z.of_nat k)); [|lia].
  rewrite Hg. repeat split; auto.
Qed.

(** The traversal of a node made by [reverse()] from a node over a list
    that stands at its start, taken up at its [i]-th element. *)
Lemma reversed_iter_from (data : list (elem A)) (k : nat) :
  forall (i fuel : nat) (e : Enumerable A),
    _data e = data ->
    at_start e ->
    i + k = length data ->
    k < fuel ->
    exists s,
      inherited_iter (@rev_len A _ _) (@rev_next_cycle A _ _) fuel i
        (mkReversed e (mkCycle (Some (Z.of_nat k - 1)%Z) (firstn i (rev data)) 0))
      = Some (skipn i (rev data), s).
Proof.
  induction k as [|k IH]; intros i fuel e Hd Hs Hi Hf;
    (destruct fuel as [|f]; [lia|]).
  - destruct (rev_len_at_start f
                (mkCycle (Some (Z.of_nat 0 - 1)%Z) (firstn i (rev data)) 0) Hs)
      as (e1 & Hl & Hd1 & Hs1).
    cbn [inherited_iter]; unfold bind at 1; rewrite Hl, Hd.
    destruct (Nat.ltb_spec i (length data)); [lia|].
    eexists. rewrite skipn_all2 by (rewrite length_rev; lia). reflexivity.
  - destruct (rev_len_at_start f
                (mkCycle (Some (Z.of_nat (S k) - 1)%Z) (firstn i (rev data)) 0) Hs)
      as (e1 & Hl & Hd1 & Hs1).
    cbn [inherited_iter]; unfold bind at 1; rewrite Hl, Hd.
    destruct (Nat.ltb_spec i (length data)); [|lia].
    replace (Z.of_nat (S k) - 1)%Z with (Z.of_nat k) by lia.
    destruct (rev_next_cycle_first_pass f k (firstn i (rev data)) 0 Hs1)
      as (e2 & Hn & Hd2 & Hs2).
    unfold bind at 1. rewrite Hn, Hd1, Hd.
    assert (Hnth : nth_error (rev data) i = Some (nth k data None)).
    { rewrite nth_error_nth' with (d := None) by (rewrite length_rev; lia).
      rewrite rev_nth by lia. do 2 f_equal. lia. }
    rewrite (firstn_snoc_nth _ _ Hnth).
    destruct (IH (S i) f e2) as (s & Hrec); try lia; try congruence.
    unfold bind, ret. rewrite Hrec. exists s.
    now rewrite (skipn_cons_nth _ _ Hnth).
Qed.

(** On a node built over a list, [reverse().to_list()] is the list
    reversed. *)
Lemma reverse_of_list (data : list (elem A)) (fuel : nat) :
  length data < fuel ->
  reverse_to_list fuel (Enumerable_init data) = Some (rev data).
Proof.
  intros Hf. unfold reverse_to_list, reverse, ReversedEnumerable_init. simpl.
  destruct (@reversed_iter_from data (length data) 0 fuel (Enumerable_init data))
    as (s & Hs); auto using Enumerable_init_at_start.
  unfold len. simpl. unfold cycle_new. simpl in Hs. rewrite Hs. reflexivity.
Qed.

End ReverseFacts.

(** What the code does on [1, 2, 3, 4, 5]: reversing it, and reversing it
    twice, give what C8 says. *)
Example reverse_12345 :
  reverse_to_list 20 (Enumerable_init [Some 1; Some 2; Some 3; Some 4; Some 5])
  = Some [Some 5; Some 4; Some 3; Some 2; Some 1].
Proof. reflexivity. Qed.

Example reverse_reverse_12345 :
  match reverse 20 (Enumerable_init [Some 1; Some 2; Some 3; Some 4; Some 5]) with
  | Some r => reverse_to_list 20 r
  | None => None
  end = Some [Some 1; Some 2; Some 3; Some 4; Some 5].
Proof. reflexivity. Qed.

(** C8 on the results of [skip] and [take]: [len] of such a node is the
    length of its upstream node, since neither class has a [__len__] of
    its own, so [reversed] reads past the end of the node and [reverse()]
    yields [None, None, 5] for [[1, 2, 3, 4, 5].skip(2)], not [5, 4, 3],
    and [None, None] for [[1, 2, 3, 4, 5].take(2)], not [2, 1]. *)
Theorem C8_reverse_of_skip_and_take :
  reverse_to_list 20 (skip 2 (Enumerable_init [Some 1; Some 2; Some 3; Some 4; Some 5]))
  = Some [None; None; Some 5] /\
  reverse_to_list 20 (take 2 (Enumerable_init [Some 1; Some 2; Some 3; Some 4; Some 5]))
  = Some [None; None] /\
  option_map fst (node_iter 20 (skip 2 (Enumerable_init [Some 1; Some 2; Some 3; Some 4; Some 5])))
  = Some [Some 3; Some 4; Some 5] /\
  option_map fst (node_len 20 (skip 2 (Enumerable_init [Some 1; Some 2; Some 3; Some 4; Some 5])))
  = Some 5.
Proof. repeat split; vm_compute; reflexivity. Qed.

(** C10 at [[None, 2]], whose first element is [None]. *)
Lemma C10_None_element_is_absent_witness :
  (exists s, element_at 1 (Z.of_nat 0) (Enumerable_init [None; Some 2])
             = Some (Raise IndexError, s)) /\
  (0 = 0 ->
   0 < len (Enumerable_init [None; Some 2]) /\
   (exists s, first_or_default 1 (Enumerable_init [None; Some 2]) = Some (Return None, s)) /\
   (exists s, any 1 (Enumerable_init [None; Some 2]) = Some (Return false, s))).
Proof.
  apply (@C10_None_element_is_absent nat 1 0 (Enumerable_init [None; Some 2])).
  - right. apply (cursor_first [None; Some 2] (p := 0)). simpl. lia.
  - reflexivity.
Defined.

(** ** [take_while] and [skip_while] *)

Section WhileFacts.

Variable A : Type.

#[local] Arguments skipn : simpl never.
#[local] Arguments firstn : simpl never.

Lemma while_at_lt (data : list (elem A)) (self : WhileEnumerable A) (p : nat) :
  while_at data self p -> p < length data.
Proof.
  intros H; inversion H; subst; auto.
  - eauto using cursor_at_lt.
  - destruct (_data d); [congruence | simpl; lia].
Qed.

(** [next(self._cycle)] gives the element the cycle stands at and moves
    the cycle to the next one, back to the first after the last. *)
Lemma while_next_at (data : list (elem A)) (self : WhileEnumerable A) (p : nat) (x : elem A) :
  while_at data self p ->
  nth_error data p = Some x ->
  exists self',
    while_next self = (Some x, self') /\
    while_predicate self' = while_predicate self /\
    _data (while_data self') = data /\
    while_at data self' (if length data <=? S p then 0 else S p).
Proof.
  intros Hw Hx.
  assert (Hp : p < length data) by (apply nth_error_Some; congruence).
  inversion Hw; subst; unfold while_next, cycle_next, bind, ret;
    cbn [while_cycle while_data while_predicate it saved index].
  - destruct (next_cycle_at d H0 Hx) as (d' & Hn & Hd & Hc).
    unfold generator_next, iter_next.
    destruct (Nat.ltb_spec p (len d)); [| unfold len in *; lia].
    rewrite Hn. rewrite (firstn_snoc_nth _ _ Hx).
    eexists; repeat split; cbn [while_predicate while_data]; auto.
    unfold len in Hc. rewrite Hd in Hc.
    destruct (Nat.leb_spec (length (_data d)) (S p)).
    + assert (E : S p = length (_data d)) by lia.
      rewrite E, firstn_all.
      apply while_wrap; [exact Hd|].
      intros E0. rewrite E0 in Hp. simpl in Hp. lia.
    + apply while_first_pass; [exact Hd | exact Hc].
  - unfold generator_next. rewrite iter_next_end by (unfold len; lia).
    unfold replay. cbn [saved index it]. rewrite Hx.
    eexists; repeat split; cbn [while_predicate while_data]; auto.
    apply while_replay; [reflexivity|].
    destruct (Nat.leb_spec (length (_data d)) 1); lia.
  - unfold replay. cbn [saved index it]. rewrite Hx.
    eexists; repeat split; cbn [while_predicate while_data]; auto.
    apply while_replay; [reflexivity|].
    destruct (Nat.leb_spec (length (_data d)) (S p)); lia.
Qed.

(** Whatever the cycle stands at, [next] gives an element of the list. *)
Lemma while_next_some (data : list (elem A)) (self : WhileEnumerable A) (p : nat) :
  while_at data self p ->
  exists x self' p',
    while_next self = (Some x, self') /\ In x data /\
    while_predicate self' = while_predicate self /\
    while_at data self' p'.
Proof.
  intros Hw. pose proof (while_at_lt Hw) as Hp.
  destruct (nth_error data p) as [x|] eqn:Hx; [| apply nth_error_None in Hx; lia].
  destruct (while_next_at Hw Hx) as (s & Hn & Hpr & _ & Hw').
  exists x, s. eexists. repeat split; eauto using nth_error_In.
Qed.

(** A node made from a new node over a list stands at the first element. *)
Lemma WhileEnumerable_init_at (data : list (elem A)) (pred : elem A -> bool) :
  data <> [] ->
  while_at data (WhileEnumerable_init (Enumerable_init data) pred) 0.
Proof.
  intros Hne. unfold WhileEnumerable_init, cycle_new.
  apply (while_first_pass (data := data) (p := 0) (Enumerable_init data) pred eq_refl).
  apply (cursor_first data (p := 0)).
  destruct data; [congruence | simpl; lia].
Qed.

(** *** The loops that do not end *)

(** As long as the predicate holds on every element of the list, the
    first loop of [take_while] goes on: with fuel for [fuel] iterations it
    has yielded [fuel] elements and has not left. *)
Lemma take_loop_goes_on (data : list (elem A)) (fuel : nat) :
  forall (e : elem A) (i : nat) (self : WhileEnumerable A) (p : nat),
    while_at data self p ->
    (forall x, In x data -> while_predicate self x = true) ->
    exists ys, take_loop fuel e true i self = (ys, OutOfFuel) /\ length ys = fuel.
Proof.
  induction fuel as [|fuel IH]; intros e i self p Hw Hall.
  - exists []. split; reflexivity.
  - destruct (while_next_some Hw) as (x & s & p' & Hn & Hin & Hpr & Hw').
    cbn [take_loop]. rewrite Hn, (Hall x Hin).
    destruct (IH x (S i) s p' Hw') as (ys & Hys & Hlen).
    { intros y Hy. rewrite Hpr. auto. }
    rewrite Hys. exists (e :: ys). split; [reflexivity | simpl; lia].
Qed.

(** Under the same condition the first loop of [skip_while] goes on. *)
Lemma skip_loop_goes_on (data : list (elem A)) (fuel : nat) :
  forall (e : elem A) (i : nat) (self : WhileEnumerable A) (p : nat),
    while_at data self p ->
    (forall x, In x data -> while_predicate self x = true) ->
    skip_loop fuel e true i self = OutOfFuel.
Proof.
  induction fuel as [|fuel IH]; intros e i self p Hw Hall; [reflexivity|].
  destruct (while_next_some Hw) as (x & s & p' & Hn & Hin & Hpr & Hw').
  cbn [skip_loop]. rewrite Hn, (Hall x Hin).
  apply (IH x (S i) s p' Hw').
  intros y Hy. rewrite Hpr. auto.
Qed.

(** What both methods start with, on a new node over a non-empty list. *)
Lemma while_first_init (x : elem A) (rest : list (elem A)) (pred : elem A -> bool) :
  exists self1,
    while_first (WhileEnumerable_init (Enumerable_init (x :: rest)) pred)
    = (x, if is_None x then false else pred x, self1) /\
    while_predicate self1 = pred /\
    _data (while_data self1) = x :: rest /\
    while_read (x :: rest) self1 1.
Proof.
  assert (Hne : x :: rest <> []) by discriminate.
  destruct (@while_next_at (x :: rest) _ 0 x (WhileEnumerable_init_at pred Hne) eq_refl)
    as (s & Hn & Hpr & Hd & Hw).
  exists s. unfold while_first. rewrite Hn.
  repeat split; auto. simpl; lia.
Qed.

(** [take_while] with a predicate that holds on every element of a
    non-empty list whose first element is not [None] does not end: it
    yields one more element for each unit of fuel, going round the list. *)
Lemma take_while_goes_on (a : A) (rest : list (elem A)) (pred : elem A -> bool) (fuel : nat) :
  (forall x, In x (Some a :: rest) -> pred x = true) ->
  exists ys,
    take_while_run fuel (take_while pred (Enumerable_init (Some a :: rest))) = (ys, None) /\
    length ys = fuel.
Proof.
  intros Hall.
  destruct (while_first_init (Some a) rest pred) as (s & Hf & Hpr & _ & _ & Hw).
  unfold take_while_run, take_while. unfold elem in *. rewrite Hf.
  cbn [is_None]. rewrite (Hall (Some a)) by now left.
  destruct (@take_loop_goes_on (Some a :: rest) fuel (Some a) 1 s _ Hw) as (ys & Hys & Hlen).
  { intros y Hy. rewrite Hpr. auto. }
  rewrite Hys. now exists ys.
Qed.

(** Under the same condition [skip_while] does not end either, and
    yields nothing. *)
Lemma skip_while_goes_on (a : A) (rest : list (elem A)) (pred : elem A -> bool) (fuel : nat) :
  (forall x, In x (Some a :: rest) -> pred x = true) ->
  skip_while_run fuel (skip_while pred (Enumerable_init (Some a :: rest))) = None.
Proof.
  intros Hall.
  destruct (while_first_init (Some a) rest pred) as (s & Hf & Hpr & _ & _ & Hw).
  unfold skip_while_run, skip_while. unfold elem in *. rewrite Hf.
  cbn [is_None]. rewrite (Hall (Some a)) by now left.
  rewrite (@skip_loop_goes_on (Some a :: rest) fuel (Some a) 1 s _ Hw); [reflexivity|].
  intros y Hy. rewrite Hpr. auto.
Qed.

(** *** What the loops do when the predicate fails somewhere *)

Lemma while_next_read (data : list (elem A)) (self : WhileEnumerable A) (q : nat) (x : elem A) :
  while_read data self q ->
  nth_error data q = Some x ->
  exists self',
    while_next self = (Some x, self') /\
    while_predicate self' = while_predicate self /\
    _data (while_data self') = data /\
    while_read data self' (S q).
Proof.
  intros [Hq Hw] Hx.
  assert (Hlt : q < length data) by (apply nth_error_Some; congruence).
  destruct (Nat.leb_spec (length data) q); [lia|].
  destruct (while_next_at Hw Hx) as (s & Hn & Hpr & Hd & Hw').
  exists s. split; [assumption | split; [assumption | split; [assumption|]]].
  split; [lia | assumption].
Qed.

Lemma while_next_wrapped (data : list (elem A)) (self : WhileEnumerable A) :
  while_read data self (length data) ->
  exists x self', while_next self = (Some x, self').
Proof.
  intros [_ Hw]. rewrite Nat.leb_refl in Hw.
  destruct (while_next_some Hw) as (x & s & p' & Hn & _).
  now exists x, s.
Qed.

(** The second loop of [skip_while] yields [e] and then what it reads,
    but for the element it reads last. *)
Lemma skip_rest_read (data : list (elem A)) (k : nat) :
  forall (e : elem A) (self : WhileEnumerable A) (q : nat),
    while_read data self q ->
    q + k <= S (length data) ->
    exists self', skip_rest k e self = (firstn k (e :: skipn q data), self').
Proof.
  induction k as [|k IH]; intros e self q Hw Hk.
  - now exists self.
  - cbn [skip_rest].
    destruct (Nat.eq_dec q (length data)) as [E|E].
    + subst q. assert (k = 0) by lia. subst k.
      destruct (while_next_wrapped Hw) as (x & s & Hn).
      rewrite Hn. exists s. reflexivity.
    + assert (Hq : q < length data) by (destruct Hw; lia).
      destruct (nth_error data q) as [x|] eqn:Hx; [| apply nth_error_None in Hx; lia].
      destruct (while_next_read Hw Hx) as (s & Hn & _ & _ & Hw').
      rewrite Hn.
      destruct (IH x s (S q) Hw') as (s' & Hs'); [lia|].
      rewrite Hs'. exists s'.
      rewrite (skipn_cons_nth _ _ Hx). reflexivity.
Qed.

(** The first loop of [skip_while], from a cycle that stands before a
    run [pre] of elements on which the predicate holds, followed by an
    element [y] on which it fails: the loop leaves at [y], having counted
    the elements of [pre]. *)
Lemma skip_loop_read (data : list (elem A)) (y : elem A) (post : list (elem A))
  (pre : list (elem A)) :
  forall (e : elem A) (i fuel : nat) (self : WhileEnumerable A) (q : nat),
    while_read data self q ->
    skipn q data = pre ++ y :: post ->
    (forall x, In x pre -> while_predicate self x = true) ->
    while_predicate self y = false ->
    S (length pre) < fuel ->
    exists self',
      skip_loop fuel e true i self = Left y (i + length pre) self' /\
      while_predicate self' = while_predicate self /\
      _data (while_data self') = data /\
      while_read data self' (q + length pre + 1).
Proof.
  induction pre as [|z pre IH]; intros e i fuel self q Hw Hsk Hpre Hy Hf;
    (destruct fuel as [|fuel]; [lia|]); cbn [skip_loop].
  - assert (Hx : nth_error data q = Some y).
    { rewrite <- (Nat.add_0_r q), <- nth_error_skipn, Hsk. reflexivity. }
    destruct (while_next_read Hw Hx) as (s & Hn & Hpr & Hd & Hw').
    rewrite Hn, Hy. destruct fuel; [simpl in Hf; lia|]. cbn [skip_loop].
    exists s. rewrite Nat.add_0_r.
    replace (q + length (@nil (elem A)) + 1) with (S q) by (simpl; lia).
    split; [reflexivity | split; [assumption | split; assumption]].
  - assert (Hx : nth_error data q = Some z).
    { rewrite <- (Nat.add_0_r q), <- nth_error_skipn, Hsk. reflexivity. }
    destruct (while_next_read Hw Hx) as (s & Hn & Hpr & Hd & Hw').
    rewrite Hn, (Hpre z) by now left.
    destruct (IH z (S i) fuel s (S q) Hw') as (s' & Hs' & Hpr' & Hd' & Hw'').
    + rewrite (skipn_cons_nth _ _ Hx) in Hsk. now inversion Hsk.
    + intros x Hin. rewrite Hpr. apply Hpre. now right.
    + now rewrite Hpr.
    + simpl in Hf. lia.
    + exists s'. rewrite Hs'.
      replace (q + length (z :: pre) + 1) with (S q + length pre + 1) by (simpl; lia).
      split; [f_equal; simpl; lia | split; [congruence | split; assumption]].
Qed.

(** The first loop of [take_while] in the same situation: it yields [e]
    and the elements of [pre], and leaves at [y]. *)
Lemma take_loop_read (data : list (elem A)) (y : elem A) (post : list (elem A))
  (pre : list (elem A)) :
  forall (e : elem A) (i fuel : nat) (self : WhileEnumerable A) (q : nat),
    while_read data self q ->
    skipn q data = pre ++ y :: post ->
    (forall x, In x pre -> while_predicate self x = true) ->
    while_predicate self y = false ->
    S (length pre) < fuel ->
    exists self',
      take_loop fuel e true i self = (e :: pre, Left y (i + length pre + 1) self') /\
      _data (while_data self') = data /\
      while_read data self' (q + length pre + 1).
Proof.
  induction pre as [|z pre IH]; intros e i fuel self q Hw Hsk Hpre Hy Hf;
    (destruct fuel as [|fuel]; [lia|]); cbn [take_loop].
  - assert (Hx : nth_error data q = Some y).
    { rewrite <- (Nat.add_0_r q), <- nth_error_skipn, Hsk. reflexivity. }
    destruct (while_next_read Hw Hx) as (s & Hn & Hpr & Hd & Hw').
    rewrite Hn, Hy. destruct fuel; [simpl in Hf; lia|]. cbn [take_loop].
    exists s.
    replace (q + length (@nil (elem A)) + 1) with (S q) by (simpl; lia).
    split; [do 3 f_equal; simpl; lia | split; assumption].
  - assert (Hx : nth_error data q = Some z).
    { rewrite <- (Nat.add_0_r q), <- nth_error_skipn, Hsk. reflexivity. }
    destruct (while_next_read Hw Hx) as (s & Hn & Hpr & Hd & Hw').
    rewrite Hn, (Hpre z) by now left.
    destruct (IH z (S i) fuel s (S q) Hw') as (s' & Hs' & Hd' & Hw'').
    + rewrite (skipn_cons_nth _ _ Hx) in Hsk. now inversion Hsk.
    + intros x Hin. rewrite Hpr. apply Hpre. now right.
    + now rewrite Hpr.
    + simpl in Hf. lia.
    + exists s'. rewrite Hs'.
      replace (q + length (z :: pre) + 1) with (S q + length pre + 1) by (simpl; lia).
      split; [do 3 f_equal; simpl; lia | split; assumption].
Qed.

(** The second loop of [take_while] reads the cycle up to the end of the
    list. *)
Lemma take_rest_read (data : list (elem A)) (k : nat) :
  forall (self : WhileEnumerable A) (q : nat),
    while_read data self q ->
    q + k = length data ->
    while_read data (take_rest k self) (length data).
Proof.
  induction k as [|k IH]; intros self q Hw Hk; cbn [take_rest].
  - now replace (length data) with q by lia.
  - assert (Hq : q < length data) by lia.
    destruct (nth_error data q) as [x|] eqn:Hx; [| apply nth_error_None in Hx; lia].
    destruct (while_next_read Hw Hx) as (s & Hn & _ & _ & Hw').
    rewrite Hn. apply (IH s (S q) Hw'). lia.
Qed.

(** [take_while] on a new node over [pre ++ y :: post], where the
    predicate holds on [pre] and fails on [y] and the first element is not
    [None]: the traversal yields [pre], ends, and leaves the cycle of the
    node at the first element again. *)
Lemma take_while_prefix (pred : elem A -> bool) (a : A) (pre : list (elem A))
  (y : elem A) (post : list (elem A)) (fuel : nat) :
  (forall x, In x (Some a :: pre) -> pred x = true) ->
  pred y = false ->
  S (length pre) < fuel ->
  exists self',
    take_while_run fuel (take_while pred (Enumerable_init (Some a :: pre ++ y :: post)))
    = (Some a :: pre, Some self') /\
    while_read (Some a :: pre ++ y :: post) self' (length (Some a :: pre ++ y :: post)).
Proof.
  intros Hpre Hy Hf.
  destruct (while_first_init (Some a) (pre ++ y :: post) pred) as (s & Hfi & Hpr & Hd & Hw).
  unfold take_while_run, take_while. unfold elem in *. rewrite Hfi.
  cbn [is_None]. rewrite (Hpre (Some a)) by now left.
  destruct (@take_loop_read (Some a :: pre ++ y :: post) y post pre (Some a) 1 fuel s 1 Hw)
    as (s' & Hs' & Hd' & Hw'); try (rewrite Hpr); auto.
  { intros x Hin. apply Hpre. now right. }
  unfold elem in *. rewrite Hs'. eexists. split; [reflexivity|].
  unfold len. rewrite Hd'.
  eapply take_rest_read; [exact Hw'|].
  simpl. rewrite length_app. simpl. lia.
Qed.

(** [skip_while] in the same situation yields [y :: post], as C2 says,
    and leaves the cycle of the node at its second element: the loops
    have read one element more than the list has. *)
Lemma skip_while_suffix (pred : elem A -> bool) (a : A) (pre : list (elem A))
  (y : elem A) (post : list (elem A)) (fuel : nat) :
  (forall x, In x (Some a :: pre) -> pred x = true) ->
  pred y = false ->
  S (length pre) < fuel ->
  exists self',
    skip_while_run fuel (skip_while pred (Enumerable_init (Some a :: pre ++ y :: post)))
    = Some (y :: post, self').
Proof.
  intros Hpre Hy Hf.
  destruct (while_first_init (Some a) (pre ++ y :: post) pred) as (s & Hfi & Hpr & Hd & Hw).
  unfold skip_while_run, skip_while. unfold elem in *. rewrite Hfi.
  cbn [is_None]. rewrite (Hpre (Some a)) by now left.
  destruct (@skip_loop_read (Some a :: pre ++ y :: post) y post pre (Some a) 1 fuel s 1 Hw)
    as (s' & Hs' & Hpr' & Hd' & Hw'); try (rewrite Hpr); auto.
  { intros x Hin. apply Hpre. now right. }
  unfold elem in *. rewrite Hs'. unfold len. rewrite Hd'.
  assert (Hlen : length (Some a :: pre ++ y :: post) - (1 + length pre) = length (y :: post)).
  { simpl. rewrite length_app. simpl. lia. }
  unfold elem in *. rewrite Hlen.
  destruct (@skip_rest_read (Some a :: pre ++ y :: post) (length (y :: post)) y s' _ Hw')
    as (s'' & Hs'').
  { simpl. rewrite length_app. simpl. lia. }
  unfold elem in *. rewrite Hs''. exists s''. do 2 f_equal.
  assert (Hsk : skipn (1 + length pre + 1) (Some a :: pre ++ y :: post) = post).
  { replace (1 + length pre + 1) with (S (length pre + 1)) by lia.
    rewrite skipn_cons, skipn_app, skipn_all2 by lia.
    replace (length pre + 1 - length pre) with 1 by lia. reflexivity. }
  rewrite Hsk. apply firstn_all.
Qed.

(** [skip_while] on a new node whose first element is [None] or fails
    the predicate: the first loop is not entered with [i = 1], so the
    second loop yields all the elements but the last. *)
Lemma skip_while_first_fails (pred : elem A -> bool) (x : elem A) (rest : list (elem A))
  (fuel : nat) :
  (if is_None x then false else pred x) = false ->
  exists self',
    skip_while_run (S fuel) (skip_while pred (Enumerable_init (x :: rest)))
    = Some (removelast (x :: rest), self').
Proof.
  intros Hx.
  destruct (while_first_init x rest pred) as (s & Hfi & Hpr & Hd & Hw).
  unfold skip_while_run, skip_while. unfold elem in *. rewrite Hfi, Hx.
  cbn [skip_loop]. unfold len. rewrite Hd.
  destruct (@skip_rest_read (x :: rest) (length (x :: rest) - 1) x s 1 Hw)
    as (s' & Hs'); [unfold elem; cbn [length]; lia|].
  unfold elem in *. rewrite Hs'. exists s'. do 2 f_equal.
  rewrite removelast_firstn_len. simpl length.
  replace (S (length rest) - 1) with (length rest) by lia.
  reflexivity.
Qed.

End WhileFacts.

(** C2 on [1, 2, 3].  With a predicate that fails on the first element
    [skip_while] yields [1, 2], not [1, 2, 3].  With a predicate that
    always holds neither traversal ends, whatever the fuel: [take_while]
    has yielded as many elements as it had fuel, going round the list, and
    [skip_while] has yielded none. *)
Theorem C2_while_operators_on_123 (fuel : nat) :
  option_map fst
    (skip_while_run (S fuel)
       (skip_while (fun _ => false) (Enumerable_init [Some 1; Some 2; Some 3])))
  = Some [Some 1; Some 2] /\
  snd (take_while_run fuel
         (take_while (fun _ => true) (Enumerable_init [Some 1; Some 2; Some 3])))
  = None /\
  length (fst (take_while_run fuel
                 (take_while (fun _ => true) (Enumerable_init [Some 1; Some 2; Some 3]))))
  = fuel /\
  skip_while_run fuel
    (skip_while (fun _ => true) (Enumerable_init [Some 1; Some 2; Some 3]))
  = None.
Proof.
  split; [| split; [| split]].
  - destruct (@skip_while_first_fails nat (fun _ => false) (Some 1) [Some 2; Some 3] fuel eq_refl)
      as (s & Hs).
    unfold elem in *. rewrite Hs. reflexivity.
  - destruct (@take_while_goes_on nat 1 [Some 2; Some 3] (fun _ => true) fuel)
      as (ys & Hys & _); [reflexivity|].
    unfold elem in *. now rewrite Hys.
  - destruct (@take_while_goes_on nat 1 [Some 2; Some 3] (fun _ => true) fuel)
      as (ys & Hys & Hlen); [reflexivity|].
    unfold elem in *. now rewrite Hys.
  - apply skip_while_goes_on. reflexivity.
Qed.

(** What [take_while] yields within twelve resumptions. *)
Example take_while_true_123 :
  fst (take_while_run 7
         (take_while (fun _ => true) (Enumerable_init [Some 1; Some 2; Some 3])))
  = [Some 1; Some 2; Some 3; Some 1; Some 2; Some 3; Some 1].
Proof. reflexivity. Qed.

(** The traversal of [skip_while] that the tests of such a node expect,
    and the one that follows it on the same node. *)
Example skip_while_twice :
  match skip_while_run 9
          (skip_while (fun x => match x with Some n => n <? 5 | None => false end)
             (Enumerable_init [Some 1; Some 4; Some 6; Some 4; Some 1]))
  with
  | Some (first, self) => (first, option_map fst (skip_while_run 9 self))
  | None => ([], None)
  end
  = ([Some 6; Some 4; Some 1], Some [Some 6; Some 4; Some 1; Some 1]).
Proof. reflexivity. Qed.

(** ** [group_join] *)

Section GroupJoinFacts.

Variables A B K : Type.
Variable outer_key : elem A -> K.

#[local] Arguments skipn : simpl never.

(** A generator of a node over a list, resumed where the cursor of the
    node stands at [i], the number of elements it has yielded. *)
Lemma iter_next_at (self : Enumerable A) (i : nat) (x : elem A) :
  cursor_at (_data self) (_cycle self) i ->
  nth_error (_data self) i = Some x ->
  exists self',
    iter_next i self = (Some x, S i, self') /\
    _data self' = _data self /\
    (S i < length (_data self) -> cursor_at (_data self') (_cycle self') (S i)).
Proof.
  intros Hc Hx.
  assert (Hi : i < length (_data self)) by (apply nth_error_Some; congruence).
  destruct (next_cycle_at self Hc Hx) as (s & Hn & Hd & Hc').
  exists s. unfold iter_next.
  destruct (Nat.ltb_spec i (len self)); [| unfold len in *; lia].
  rewrite Hn. repeat split; auto.
  intros Hlt. unfold len in Hc'.
  destruct (Nat.leb_spec (length (_data self)) (S i)); [lia | assumption].
Qed.

(** With the default [result_func] a traversal of a group-join node
    gives one row for each element of the outer node, in order, and the
    grouping of each row has the key of its outer element; all of them
    refer to the one frame of the traversal. *)
Lemma group_join_loop_rows (f k : nat) :
  forall (i fuel : nat) (outer : Enumerable A) (w : World B K),
    (i < length (_data outer) -> cursor_at (_data outer) (_cycle outer) i) ->
    i + k = length (_data outer) ->
    k < fuel ->
    exists rows self' w',
      group_join_loop outer_key (@result_identity A B K) fuel f i (mkGroupJoin outer) w
      = Some ((rows, self'), w') /\
      map fst rows = skipn i (_data outer) /\
      inner_enumerable w' = inner_enumerable w /\
      Forall (fun r => grouping_key (snd r) = mkKey [("id"%string, outer_key (fst r))] /\
                       closure_frame (snd r) = f) rows.
Proof.
  induction k as [|k IH]; intros i fuel outer w Hc Hk Hf;
    (destruct fuel as [|fuel]; [lia|]); cbn [group_join_loop gj_data].
  - rewrite iter_next_end by (unfold len; lia).
    exists [], (mkGroupJoin outer), w. unfold ret.
    rewrite skipn_all2 by lia. repeat split; auto.
  - assert (Hi : i < length (_data outer)) by lia.
    destruct (nth_error (_data outer) i) as [x|] eqn:Hx;
      [| apply nth_error_None in Hx; lia].
    destruct (iter_next_at outer (Hc Hi) Hx) as (s & Hn & Hd & Hc').
    rewrite Hn.
    destruct (IH (S i) fuel s
                (mkWorld (firstn f (frames w) ++ Some (outer_key x) :: skipn (S f) (frames w))
                         (inner_enumerable w)))
      as (rows & self' & w' & Hl & Hm & Hin & Hall).
    + intros Hlt. apply Hc'. rewrite <- Hd. exact Hlt.
    + rewrite Hd. lia.
    + lia.
    + unfold bind, group_join_body, result_identity, ret in Hl |- *.
      rewrite Hl. cbn [fst snd].
      eexists _, self', w'. split; [reflexivity|].
      split; [| split].
      * cbn [map fst]. rewrite Hm, Hd. now rewrite (skipn_cons_nth _ _ Hx).
      * exact Hin.
      * constructor; [split; reflexivity | exact Hall].
Qed.

(** The cardinality part of C3: a traversal of a group-join node over an
    outer node that stands at its start gives exactly one row for each
    outer element. *)
Lemma group_join_one_row_per_outer (fuel : nat) (outer : Enumerable A) (w : World B K) :
  at_start outer ->
  length (_data outer) < fuel ->
  exists rows self' w',
    group_join_to_list outer_key (@result_identity A B K) fuel (mkGroupJoin outer) w
    = Some ((rows, self'), w') /\
    map fst rows = _data outer.
Proof.
  intros Hs Hf. unfold group_join_to_list.
  destruct (@group_join_loop_rows (length (frames w)) (length (_data outer)) 0 fuel outer
              (mkWorld (frames w ++ [None]) (inner_enumerable w)))
    as (rows & self' & w' & Hl & Hm & _); auto.
  - intros Hlt. destruct Hs as [Hnil | Hc]; [| exact Hc].
    rewrite Hnil in Hlt. simpl in Hlt. lia.
  - exists rows, self', w'. split; assumption.
Qed.

End GroupJoinFacts.

(** C3 on the inputs of the specification, outer [1, 2, 3] and inner
    [(1, 10), (1, 11), (2, 12)] joined on the first component.  When
    [result_func] lists each grouping as it is given it, the rows carry the
    matching inner elements.  When the groupings are listed after the
    traversal has gone on, each of them filters with the [ok] of the last
    outer element, 3, and is empty: the predicate of the [where] node
    refers to the variable [ok], which the loop rebinds. *)
Theorem C3_groupings_filter_with_last_key :
  option_map fst
    (group_join_listed Z.eqb
       (fun o => match o with Some z => z | None => 0%Z end)
       (fun i => match i with Some (z, _) => z | None => 0%Z end)
       20
       (mkGroupJoin (Enumerable_init [Some 1%Z; Some 2%Z; Some 3%Z]))
       (mkWorld [] (Enumerable_init [Some (1, 10)%Z; Some (1, 11)%Z; Some (2, 12)%Z])))
  = Some [(Some 1%Z, [Some (1, 10)%Z; Some (1, 11)%Z]);
          (Some 2%Z, [Some (2, 12)%Z]);
          (Some 3%Z, [])] /\
  option_map fst
    (group_join_then_groupings Z.eqb
       (fun o => match o with Some z => z | None => 0%Z end)
       (fun i => match i with Some (z, _) => z | None => 0%Z end)
       20
       (mkGroupJoin (Enumerable_init [Some 1%Z; Some 2%Z; Some 3%Z]))
       (mkWorld [] (Enumerable_init [Some (1, 10)%Z; Some (1, 11)%Z; Some (2, 12)%Z])))
  = Some [(Some 1%Z, []); (Some 2%Z, []); (Some 3%Z, [])].
Proof. split; vm_compute; reflexivity. Qed.

(** ** Ordering *)

Section OrderingFacts.

Variable A : Type.

(** *** Lists sorted for a relation *)

Lemma StronglySorted_impl (R R' : elem A -> elem A -> Prop) (l : list (elem A)) :
  (forall x y, R x y -> R' x y) -> StronglySorted R l -> StronglySorted R' l.
Proof.
  intros HR Hs. induction Hs as [|x l Hs IH Hx]; constructor; auto.
  eapply Forall_impl; [| exact Hx]. auto.
Qed.

Lemma StronglySorted_snoc (R : elem A -> elem A -> Prop) (l : list (elem A)) (x : elem A) :
  StronglySorted R l -> Forall (fun y => R y x) l -> StronglySorted R (l ++ [x]).
Proof.
  intros Hs Hx. induction Hs as [|y l Hs IH Hy]; simpl.
  - repeat constructor.
  - inversion Hx; subst. constructor; auto.
    apply Forall_app. split; auto.
Qed.

Lemma StronglySorted_rev (R : elem A -> elem A -> Prop) (l : list (elem A)) :
  StronglySorted R l -> StronglySorted (fun x y => R y x) (rev l).
Proof.
  intros Hs. induction Hs as [|x l Hs IH Hx]; simpl; [constructor|].
  apply StronglySorted_snoc; auto.
  apply Forall_rev. exact Hx.
Qed.

Lemma StronglySorted_True (l : list (elem A)) :
  StronglySorted (fun _ _ => True) l.
Proof.
  induction l; constructor; auto. apply Forall_forall. auto.
Qed.

(** *** One pass of [sorted] *)

Lemma insert_perm (k : elem A -> Z) (x : elem A) (l : list (elem A)) :
  Permutation (x :: l) (insert k x l).
Proof.
  induction l as [|y l IH]; simpl; [reflexivity|].
  destruct (k y <? k x)%Z; [|reflexivity].
  rewrite perm_swap. now constructor.
Qed.

Lemma stable_sort_perm (k : elem A -> Z) (l : list (elem A)) :
  Permutation l (stable_sort k l).
Proof.
  induction l as [|x l IH]; simpl; [reflexivity|].
  rewrite <- insert_perm. now constructor.
Qed.

Lemma sorted_perm (k : elem A -> Z) (reverse : bool) (l : list (elem A)) :
  Permutation l (sorted l k reverse).
Proof.
  unfold sorted. destruct reverse.
  - rewrite <- Permutation_rev, <- stable_sort_perm. apply Permutation_rev.
  - apply stable_sort_perm.
Qed.

(** Inserting [x] in a list sorted by the key and then by [Q] keeps it
    so, if [x] comes before every element of the list under [Q]: [x] goes
    before the first element whose key is not less than its own. *)
Lemma insert_sorted (k : elem A -> Z) (Q : elem A -> elem A -> Prop)
  (x : elem A) (l : list (elem A)) :
  StronglySorted (fun a b => (k a <= k b)%Z /\ (k a = k b -> Q a b)) l ->
  Forall (Q x) l ->
  StronglySorted (fun a b => (k a <= k b)%Z /\ (k a = k b -> Q a b)) (insert k x l).
Proof.
  intros Hs. induction Hs as [|y l Hs IH Hy]; intros Hx; simpl.
  - repeat constructor.
  - inversion Hx as [|? ? Hxy Hxl]; subst.
    destruct (Z.ltb_spec (k y) (k x)).
    + constructor; auto.
      apply (Permutation_Forall (insert_perm k x l)).
      constructor; [split; lia | exact Hy].
    + constructor; [constructor; auto|].
      constructor; [split; [lia | auto]|].
      rewrite Forall_forall in *. intros z Hz.
      destruct (Hy z Hz) as [Hle _]. split; [lia | auto].
Qed.

Lemma stable_sort_sorted (k : elem A -> Z) (Q : elem A -> elem A -> Prop) (l : list (elem A)) :
  StronglySorted Q l ->
  StronglySorted (fun a b => (k a <= k b)%Z /\ (k a = k b -> Q a b)) (stable_sort k l).
Proof.
  intros Hs. induction Hs as [|x l Hs IH Hx]; simpl; [constructor|].
  apply insert_sorted; auto.
  apply (Permutation_Forall (stable_sort_perm k l)). exact Hx.
Qed.

(** A pass of [sorted] on a list that is in the order of the directives
    [os] puts it in the order of [o :: os]: the pass is stable. *)
Lemma sorted_lex (o : OrderingDirection A) (os : list (OrderingDirection A))
  (l : list (elem A)) :
  StronglySorted (lex_le os) l ->
  StronglySorted (lex_le (o :: os)) (sorted l (key o) (descending o)).
Proof.
  intros Hs. unfold sorted. cbn [lex_le]. unfold directive_le.
  destruct (descending o).
  - apply StronglySorted_rev in Hs.
    apply (stable_sort_sorted (key o)) in Hs.
    apply StronglySorted_rev in Hs.
    eapply StronglySorted_impl; [| exact Hs].
    cbv beta. intros x y [Hle Hq]. split; [lia | auto].
  - apply (stable_sort_sorted (key o)) in Hs.
    eapply StronglySorted_impl; [| exact Hs].
    cbv beta. intros x y [Hle Hq]. split; auto.
Qed.

(** Stability told with [filter]: among elements of one key a pass of
    [sorted] changes nothing. *)
Lemma insert_filter (k : elem A -> Z) (P : elem A -> bool) (x : elem A) (l : list (elem A)) :
  (forall a b, P a = true -> P b = true -> k a = k b) ->
  filter P (insert k x l) = filter P (x :: l).
Proof.
  intros HP. induction l as [|y l IH]; [reflexivity|].
  cbn [insert]. destruct (Z.ltb_spec (k y) (k x)); [|reflexivity].
  cbn [filter] in *. rewrite IH.
  destruct (P y) eqn:Py, (P x) eqn:Px; try reflexivity.
  specialize (HP y x Py Px). lia.
Qed.

Lemma stable_sort_filter (k : elem A -> Z) (P : elem A -> bool) (l : list (elem A)) :
  (forall a b, P a = true -> P b = true -> k a = k b) ->
  filter P (stable_sort k l) = filter P l.
Proof.
  intros HP. induction l as [|x l IH]; [reflexivity|].
  cbn [stable_sort]. rewrite insert_filter by exact HP.
  cbn [filter]. now rewrite IH.
Qed.

Lemma sorted_filter (k : elem A -> Z) (reverse : bool) (P : elem A -> bool) (l : list (elem A)) :
  (forall a b, P a = true -> P b = true -> k a = k b) ->
  filter P (sorted l k reverse) = filter P l.
Proof.
  intros HP. unfold sorted. destruct reverse.
  - rewrite filter_rev, stable_sort_filter, <- filter_rev, rev_involutive by exact HP.
    reflexivity.
  - now apply stable_sort_filter.
Qed.

(** *** The passes of [SortedEnumerable.__init__] *)

(** The loop goes through the directives from the last to the first, so
    the pass of the first directive is the last one. *)
Lemma sort_passes_cons (o : OrderingDirection A) (os : list (OrderingDirection A))
  (l : list (elem A)) :
  sort_passes (o :: os) l = sorted (sort_passes os l) (key o) (descending o).
Proof.
  unfold sort_passes. cbn [rev]. now rewrite fold_left_app.
Qed.

Lemma sort_passes_perm (os : list (OrderingDirection A)) (l : list (elem A)) :
  Permutation l (sort_passes os l).
Proof.
  induction os as [|o os IH]; [reflexivity|].
  rewrite sort_passes_cons, <- sorted_perm. exact IH.
Qed.

Lemma sort_passes_sorted (os : list (OrderingDirection A)) (l : list (elem A)) :
  StronglySorted (lex_le os) (sort_passes os l).
Proof.
  induction os as [|o os IH].
  - apply StronglySorted_True.
  - rewrite sort_passes_cons. now apply sorted_lex.
Qed.

Lemma sort_passes_filter (os : list (OrderingDirection A)) (P : elem A -> bool)
  (l : list (elem A)) :
  same_keys P os ->
  filter P (sort_passes os l) = filter P l.
Proof.
  induction os as [|o os IH]; intros HP; [reflexivity|].
  rewrite sort_passes_cons, sorted_filter.
  - apply IH. intros o' Ho'. apply HP. now right.
  - apply HP. now left.
Qed.

(** The elements tied with [x] under a list of directives have the keys
    of [x] under each of them. *)
Lemma tied_same_keys (os : list (OrderingDirection A)) (x : elem A) :
  same_keys (tied os x) os.
Proof.
  intros o Ho a b Ha Hb. unfold tied in *.
  rewrite forallb_forall in Ha, Hb.
  specialize (Ha o Ho). specialize (Hb o Ho). lia.
Qed.

Lemma same_keys_app_l (P : elem A -> bool) (os os' : list (OrderingDirection A)) :
  same_keys P (os ++ os') -> same_keys P os.
Proof. intros H o Ho. apply H. apply in_or_app. now left. Qed.

(** *** Chains *)

Lemma chain_data_perm (os : list (OrderingDirection A)) :
  forall (given : list (OrderingDirection A)) (l : list (elem A)),
    Permutation l (chain_data given os l).
Proof.
  induction os as [|o os IH]; intros given l; cbn [chain_data]; [reflexivity|].
  rewrite <- IH. apply sort_passes_perm.
Qed.

Lemma chain_data_sorted (os : list (OrderingDirection A)) :
  forall (given : list (OrderingDirection A)) (l : list (elem A)),
    StronglySorted (lex_le given) l ->
    StronglySorted (lex_le (given ++ os)) (chain_data given os l).
Proof.
  induction os as [|o os IH]; intros given l Hl; cbn [chain_data].
  - now rewrite app_nil_r.
  - replace (given ++ o :: os) with ((given ++ [o]) ++ os)
      by (rewrite <- app_assoc; reflexivity).
    apply IH. apply sort_passes_sorted.
Qed.

Lemma chain_data_filter (os : list (OrderingDirection A)) (P : elem A -> bool) :
  forall (given : list (OrderingDirection A)) (l : list (elem A)),
    same_keys P (given ++ os) ->
    filter P (chain_data given os l) = filter P l.
Proof.
  induction os as [|o os IH]; intros given l HP; cbn [chain_data]; [reflexivity|].
  assert (HP' : same_keys P ((given ++ [o]) ++ os))
    by (rewrite <- app_assoc; exact HP).
  rewrite (IH _ _ HP'). apply sort_passes_filter.
  eapply same_keys_app_l; exact HP'.
Qed.

(** *** The nodes *)

(** A traversal leaves the list of a node as it is. *)
Lemma drain_data (fuel : nat) :
  forall (i : nat) (self : Enumerable A), _data (snd (drain fuel i self)) = _data self.
Proof.
  induction fuel as [|fuel IH]; intros i self; [reflexivity|].
  cbn [drain]. unfold iter_next, next_cycle.
  destruct (i <? len self); [|reflexivity].
  destruct (cycle_next _ _ _) as [[[[x|] c] u]|]; try reflexivity.
  specialize (IH (S i) (mkEnumerable (_data self) c)).
  destruct (drain fuel (S i) _). exact IH.
Qed.

Lemma to_list_data (self : Enumerable A) : _data (snd (to_list self)) = _data self.
Proof. apply drain_data. Qed.

(** What [then_by] does to its receiver: the receiver holds one more
    directive afterwards, while its elements are the same. *)
Lemma then_by_appends (fuel : nat) (func : elem A -> Z)
  (self node self' : SortedEnumerable A) :
  then_by fuel func self = Some (node, self') ->
  _key_funcs self' = _key_funcs self ++ [mkOrderingDirection func false] /\
  length (_key_funcs self') = S (length (_key_funcs self)) /\
  _data (sorted_enumerable self') = _data (sorted_enumerable self) /\
  _key_funcs node = _key_funcs self ++ [mkOrderingDirection func false].
Proof.
  unfold then_by, SortedEnumerable_init, bind, ret, append_key_func.
  cbn [node_iter SortedEnumerable_Node sorted_enumerable _key_funcs].
  pose proof (to_list_data (sorted_enumerable self)) as Hd.
  destruct (to_list (sorted_enumerable self)) as [xs e].
  intros H. inversion H; subst. cbn [_key_funcs sorted_enumerable].
  repeat split; auto.
  rewrite length_app. simpl. lia.
Qed.

(** A call of [then_by] or [then_by_descending] on a node that stands at
    its start: the new node holds the list of the receiver, sorted by the
    directives of the receiver and the new one. *)
Lemma then_call_at_start (fuel : nat) (o : OrderingDirection A) (node : SortedEnumerable A) :
  at_start (sorted_enumerable node) ->
  exists node',
    then_call fuel o node
    = Some (mkSorted
              (Enumerable_init
                 (sort_passes (_key_funcs node ++ [o]) (_data (sorted_enumerable node))))
              (_key_funcs node ++ [o]),
            node').
Proof.
  intros Hs. destruct (to_list_at_start Hs) as (e & Hl & _ & _).
  unfold then_call, then_by, then_by_descending, SortedEnumerable_init, bind, ret,
    append_key_func.
  cbn [node_iter SortedEnumerable_Node sorted_enumerable _key_funcs].
  destruct o as [k [|]]; cbn [key descending]; cbv beta;
    cbn [sorted_enumerable _key_funcs]; rewrite Hl; eexists; reflexivity.
Qed.

Lemma then_chain_at_start (fuel : nat) (os : list (OrderingDirection A)) :
  forall node : SortedEnumerable A,
    at_start (sorted_enumerable node) ->
    exists node',
      then_chain fuel os node = Some node' /\
      at_start (sorted_enumerable node') /\
      _key_funcs node' = _key_funcs node ++ os /\
      _data (sorted_enumerable node')
      = chain_data (_key_funcs node) os (_data (sorted_enumerable node)).
Proof.
  induction os as [|o os IH]; intros node Hs; cbn [then_chain chain_data].
  - exists node. rewrite app_nil_r. auto.
  - destruct (@then_call_at_start fuel o node Hs) as (r & Hc). rewrite Hc.
    match goal with
    | |- context [then_chain fuel os ?n] => destruct (IH n) as (n' & Hn & Hs' & Hk & Hd)
    end.
    + apply Enumerable_init_at_start.
    + exists n'. cbn [_key_funcs sorted_enumerable _data Enumerable_init] in *.
      rewrite <- app_assoc in Hk. auto.
Qed.

(** C6: a chain [order_by...(k1).then_by...(k2)...] on a new node over a
    list gives a node whose traversal yields a rearrangement of the list
    that is in the order of the directives, the first deciding, ties
    going to the next, and in which the elements that tie under every
    directive are in the order they have in the list. *)
Theorem C6_order_chain_is_stable_lexicographic
  (fuel : nat) (o : OrderingDirection A) (os : list (OrderingDirection A))
  (data : list (elem A)) :
  exists node r,
    order_chain fuel o os (Enumerable_init data) = Some node /\
    fst (to_list (sorted_enumerable node)) = r /\
    Permutation data r /\
    StronglySorted (lex_le (o :: os)) r /\
    forall x, filter (tied (o :: os) x) r = filter (tied (o :: os) x) data.
Proof.
  destruct (to_list_at_start (Enumerable_init_at_start data)) as (e & Hl & _ & _).
  assert (Hc : order_call fuel o (Enumerable_init data)
               = Some (mkSorted (Enumerable_init (sort_passes [o] data)) [o], e)).
  { unfold order_call, order_by, order_by_descending, SortedEnumerable_init, bind, ret.
    destruct o as [k [|]]; cbn [key descending node_iter Enumerable_Node];
      unfold elem in *; rewrite Hl; reflexivity. }
  destruct (@then_chain_at_start fuel os
              (mkSorted (Enumerable_init (sort_passes [o] data)) [o]))
    as (node & Hn & Hs & Hk & Hd); [apply Enumerable_init_at_start|].
  cbn [_key_funcs sorted_enumerable _data Enumerable_init] in Hk, Hd.
  destruct (to_list_at_start Hs) as (e' & Hl' & _ & _).
  exists node, (_data (sorted_enumerable node)).
  split; [| split; [| split; [| split]]].
  - unfold order_chain. unfold elem in *. rewrite Hc. exact Hn.
  - now rewrite Hl'.
  - rewrite Hd, <- chain_data_perm. apply sort_passes_perm.
  - rewrite Hd. apply (@chain_data_sorted os [o]). apply sort_passes_sorted.
  - intros x. rewrite Hd.
    pose proof (@tied_same_keys (o :: os) x) as HP.
    rewrite chain_data_filter by exact HP.
    apply sort_passes_filter.
    apply (@same_keys_app_l _ [o] os). exact HP.
Qed.

(** In particular [order_by(k)] gives a list that is non-decreasing in
    [k]. *)
Lemma order_by_non_decreasing (fuel : nat) (k : elem A -> Z) (data : list (elem A)) :
  exists node,
    order_by fuel k (Enumerable_init data) = Some (node, snd (to_list (Enumerable_init data))) /\
    StronglySorted (fun x y => (k x <= k y)%Z) (_data (sorted_enumerable node)) /\
    Permutation data (_data (sorted_enumerable node)).
Proof.
  destruct (to_list_at_start (Enumerable_init_at_start data)) as (e & Hl & _ & _).
  unfold order_by, SortedEnumerable_init, bind, ret.
  cbn [node_iter Enumerable_Node]. unfold elem in *. rewrite Hl.
  eexists. split; [reflexivity|]. cbn [sorted_enumerable _data Enumerable_init snd].
  split.
  - eapply StronglySorted_impl;
      [| apply (sort_passes_sorted [mkOrderingDirection k false] data)].
    cbn [lex_le]. unfold directive_le. cbn [descending key]. tauto.
  - apply sort_passes_perm.
Qed.

End OrderingFacts.

(** C5 on [(1, 1, 2), (1, 2, 1)], ordered by the first component: the
    node returned by [order_by] holds one directive; after two calls of
    [then_by] on it, it holds three, and the second call, with the third
    component as key, gives the list sorted by the first, second and third
    components, [(1, 1, 2), (1, 2, 1)].  The same two calls
    [order_by(k1).then_by(k3)] on a new node give [(1, 2, 1), (1, 1, 2)]. *)
Theorem C5_then_by_changes_its_receiver :
  then_by_twice 1
    (fun x => match x with Some (a, _, _) => a | None => 0%Z end)
    (fun x => match x with Some (_, b, _) => b | None => 0%Z end)
    (fun x => match x with Some (_, _, c) => c | None => 0%Z end)
    (Enumerable_init [Some (1, 1, 2)%Z; Some (1, 2, 1)%Z])
  = Some ([Some (1, 1, 2)%Z; Some (1, 2, 1)%Z], 1, 3) /\
  order_then_by 1
    (fun x => match x with Some (a, _, _) => a | None => 0%Z end)
    (fun x => match x with Some (_, _, c) => c | None => 0%Z end)
    (Enumerable_init [Some (1, 1, 2)%Z; Some (1, 2, 1)%Z])
  = Some [Some (1, 2, 1)%Z; Some (1, 1, 2)%Z].
Proof. split; vm_compute; reflexivity. Qed.

(** ** [median] *)

Section MedianFacts.

Variable A : Type.






End MedianFacts.


(** ** Keyed operators *)

Section DictFacts.

Variable V : Type.

Lemma dict_get_None (d : dict V) (k : Z) :
  dict_get d k = None <-> ~ In k (map fst d).
Proof.
  induction d as [|[k' v] d IH]; simpl; [tauto|].
  destruct (Z.eqb_spec k' k); split; intros H; try discriminate.
  - exfalso. apply H. now left.
  - intros [E|Hin]; [congruence | now apply IH].
  - apply IH. tauto.
Qed.

Lemma dict_get_In (d : dict V) (k : Z) (v : V) :
  dict_get d k = Some v -> In (k, v) d.
Proof.
  induction d as [|[k' v'] d IH]; simpl; [discriminate|].
  destruct (Z.eqb_spec k' k); intros H.
  - inversion H; subst. now left.
  - right. now apply IH.
Qed.

Lemma In_dict_get (d : dict V) (k : Z) (v : V) :
  NoDup (map fst d) -> In (k, v) d -> dict_get d k = Some v.
Proof.
  induction d as [|[k' v'] d IH]; simpl; intros Hnd Hin; [contradiction|].
  inversion Hnd as [|? ? Hk' Hnd']; subst.
  destruct Hin as [E|Hin].
  - inversion E; subst. now rewrite Z.eqb_refl.
  - destruct (Z.eqb_spec k' k) as [->|_]; [| now apply IH].
    exfalso. apply Hk'. apply (in_map fst) in Hin. exact Hin.
Qed.

Lemma dict_update_keys (d : dict V) (k : Z) (f : V -> V) :
  map fst (dict_update d k f) = map fst d.
Proof.
  induction d as [|[k' v] d IH]; simpl; [reflexivity|].
  destruct (k' =? k)%Z; simpl; [reflexivity | now rewrite IH].
Qed.

Lemma dict_update_In (d : dict V) (k : Z) (f : V -> V) (k' : Z) (v' : V) :
  NoDup (map fst d) ->
  In (k', v') (dict_update d k f) ->
  (k' <> k /\ In (k', v') d) \/ (k' = k /\ exists v, In (k, v) d /\ v' = f v).
Proof.
  induction d as [|[k0 v0] d IH]; simpl; intros Hnd Hin; [contradiction|].
  inversion Hnd as [|? ? Hk0 Hnd']; subst.
  destruct (Z.eqb_spec k0 k) as [->|Hne].
  - destruct Hin as [E|Hin].
    + inversion E; subst. right. split; [reflexivity|]. exists v0. auto.
    + left. split; [| now right].
      intros ->. apply Hk0. apply (in_map fst) in Hin. exact Hin.
  - destruct Hin as [E|Hin].
    + inversion E; subst. left. split; [assumption | now left].
    + destruct (IH Hnd' Hin) as [[Hk Hi]|[Hk (v & Hi & Hv)]].
      * left. split; [assumption | now right].
      * right. split; [assumption|]. exists v. split; [now right | assumption].
Qed.

Lemma dict_keys_unique (d : dict V) (k : Z) (v v' : V) :
  NoDup (map fst d) -> In (k, v) d -> In (k, v') d -> v = v'.
Proof.
  intros Hnd H1 H2.
  apply In_dict_get in H1; [| exact Hnd]. apply In_dict_get in H2; [| exact Hnd].
  congruence.
Qed.

End DictFacts.

Section KeyedFacts.

Variable A : Type.
Variable hash : String.string -> Z.
Variable key : elem A -> pyval.
Variable key_names : list String.string.

(** *** [group_by] *)

(** What holds of the dictionary [grouping] once the elements [ps] are
    loaded: its keys are distinct, the grouping at a key holds exactly the
    elements of [ps] with that key hash, in order, and every element of
    [ps] has its key hash among the keys. *)
Lemma grouped_step_keeps (ps : list (elem A)) (d : elem A)
  (g g' : dict (Grouping A)) :
  NoDup (map fst g) ->
  (forall h G, In (h, G) g ->
     _data (grouping_enumerable G) = filter (fun x => (key_hash hash key x =? h)%Z) ps) ->
  (forall x, In x ps -> In (key_hash hash key x) (map fst g)) ->
  grouped_step hash key key_names g d = Return g' ->
  NoDup (map fst g') /\
  (forall h G, In (h, G) g' ->
     _data (grouping_enumerable G)
     = filter (fun x => (key_hash hash key x =? h)%Z) (ps ++ [d])) /\
  (forall x, In x (ps ++ [d]) -> In (key_hash hash key x) (map fst g')).
Proof.
  intros Hnd Hdata Hkeys. unfold grouped_step.
  destruct (dict_get g (key_hash hash key d)) as [G0|] eqn:Hget.
  - intros H; inversion H; subst g'; clear H.
    rewrite dict_update_keys. split; [assumption|]. split.
    + intros h G Hin. rewrite filter_app. cbn [filter].
      destruct (@dict_update_In _ _ _ _ _ _ Hnd Hin) as [[Hk Hi]|[Hk (G1 & Hi & HG)]].
      * destruct (Z.eqb_spec (key_hash hash key d) h); [congruence|].
        rewrite app_nil_r. now apply Hdata.
      * subst h G. rewrite Z.eqb_refl. cbn [grouping_append grouping_enumerable _data].
        now rewrite (Hdata _ _ Hi).
    + intros x Hx. apply in_app_or in Hx. destruct Hx as [Hx|[<-|[]]].
      * now apply Hkeys.
      * apply dict_get_In in Hget. apply (in_map fst) in Hget. exact Hget.
  - destruct (key_prop_loop _ _) as [key_prop|e]; intros H; inversion H; subst g'; clear H.
    assert (Hfresh : ~ In (key_hash hash key d) (map fst g)) by now apply dict_get_None.
    rewrite map_app. cbn [map fst]. split; [| split].
    + apply NoDup_app; [assumption | repeat constructor; intros [] |].
      intros k Hk [<-|[]]. contradiction.
    + intros h G Hin. rewrite filter_app. cbn [filter].
      apply in_app_or in Hin. destruct Hin as [Hin|[E|[]]].
      * destruct (Z.eqb_spec (key_hash hash key d) h) as [<-|_].
        -- exfalso. apply Hfresh. apply (in_map fst) in Hin. exact Hin.
        -- rewrite app_nil_r. now apply Hdata.
      * inversion E; subst h G. rewrite Z.eqb_refl.
        cbn [grouping_enumerable Enumerable_init _data].
        destruct (filter _ ps) as [|z zs] eqn:Hf; [reflexivity|].
        exfalso.
        assert (Hz : In z (filter (fun x => (key_hash hash key x =? key_hash hash key d)%Z) ps))
          by (rewrite Hf; now left).
        apply filter_In in Hz. destruct Hz as [Hz Hh].
        apply Hfresh. apply Z.eqb_eq in Hh. rewrite <- Hh. now apply Hkeys.
    + intros x Hx. apply in_or_app. apply in_app_or in Hx.
      destruct Hx as [Hx|[<-|[]]]; [left; now apply Hkeys | right; now left].
Qed.

Lemma grouped_load_keeps (xs : list (elem A)) :
  forall (ps : list (elem A)) (g g' : dict (Grouping A)),
    NoDup (map fst g) ->
    (forall h G, In (h, G) g ->
       _data (grouping_enumerable G) = filter (fun x => (key_hash hash key x =? h)%Z) ps) ->
    (forall x, In x ps -> In (key_hash hash key x) (map fst g)) ->
    grouped_load hash key key_names xs g = Return g' ->
    NoDup (map fst g') /\
    (forall h G, In (h, G) g' ->
       _data (grouping_enumerable G)
       = filter (fun x => (key_hash hash key x =? h)%Z) (ps ++ xs)) /\
    (forall x, In x (ps ++ xs) -> In (key_hash hash key x) (map fst g')).
Proof.
  induction xs as [|d xs IH]; intros ps g g' Hnd Hdata Hkeys; cbn [grouped_load].
  - intros H; inversion H; subst. rewrite app_nil_r. auto.
  - destruct (grouped_step hash key key_names g d) as [g1|e] eqn:Hstep; [|discriminate].
    destruct (@grouped_step_keeps ps d g g1 Hnd Hdata Hkeys Hstep) as (Hnd1 & Hdata1 & Hkeys1).
    intros Hload.
    replace (ps ++ d :: xs) with ((ps ++ [d]) ++ xs) by (rewrite <- app_assoc; reflexivity).
    eapply IH; eauto.
Qed.

(** The groupings that [_load_data] makes of the elements [xs]: one for
    each key hash met, holding the elements with that key hash in the
    order of [xs]. *)
Lemma grouped_load_spec (xs : list (elem A)) (grouping : dict (Grouping A)) :
  grouped_load hash key key_names xs [] = Return grouping ->
  NoDup (map fst grouping) /\
  (forall h G, In (h, G) grouping ->
     _data (grouping_enumerable G) = filter (fun x => (key_hash hash key x =? h)%Z) xs) /\
  (forall x, In x xs -> In (key_hash hash key x) (map fst grouping)).
Proof.
  intros Hload.
  apply (@grouped_load_keeps xs [] [] grouping);
    [constructor | intros h G [] | intros x [] | exact Hload].
Qed.

(** *** [union] *)

Lemma find_in_app (P : elem A -> bool) (l1 l2 : list (elem A)) :
  find P (l1 ++ l2) = match find P l1 with
                      | Some x => Some x
                      | None => find P l2
                      end.
Proof.
  induction l1 as [|x l1 IH]; simpl; [reflexivity|].
  destruct (P x); [reflexivity | exact IH].
Qed.

Lemma union_load_keeps (xs : list (elem A)) :
  forall (ps : list (elem A)) (u : dict (elem A)),
    NoDup (map fst u) ->
    (forall h v, In (h, v) u ->
       find (fun x => (key_hash hash key x =? h)%Z) ps = Some v) ->
    (forall x, In x ps -> In (key_hash hash key x) (map fst u)) ->
    NoDup (map fst (fold_left (union_step hash key) xs u)) /\
    (forall h v, In (h, v) (fold_left (union_step hash key) xs u) ->
       find (fun x => (key_hash hash key x =? h)%Z) (ps ++ xs) = Some v) /\
    (forall x, In x (ps ++ xs) ->
       In (key_hash hash key x) (map fst (fold_left (union_step hash key) xs u))).
Proof.
  induction xs as [|d xs IH]; intros ps u Hnd Hfirst Hkeys; cbn [fold_left].
  - rewrite app_nil_r. auto.
  - replace (ps ++ d :: xs) with ((ps ++ [d]) ++ xs) by (rewrite <- app_assoc; reflexivity).
    apply IH; unfold union_step.
    + destruct (dict_get u (key_hash hash key d)) eqn:Hget; [assumption|].
      rewrite map_app. cbn [map fst].
      apply NoDup_app; [assumption | repeat constructor; intros [] |].
      intros k Hk [<-|[]]. revert Hk. now apply dict_get_None.
    + intros h v Hin. rewrite find_in_app.
      destruct (dict_get u (key_hash hash key d)) eqn:Hget.
      * now rewrite (Hfirst _ _ Hin).
      * apply in_app_or in Hin. destruct Hin as [Hin|[E|[]]].
        -- now rewrite (Hfirst _ _ Hin).
        -- inversion E; subst h v.
           destruct (find _ ps) as [v|] eqn:Hf.
           ++ apply find_some in Hf. destruct Hf as [Hv Hh].
              apply Z.eqb_eq in Hh. exfalso.
              apply dict_get_None in Hget. apply Hget.
              rewrite <- Hh. now apply Hkeys.
           ++ cbn [find]. now rewrite Z.eqb_refl.
    + intros x Hx. apply in_app_or in Hx.
      destruct (dict_get u (key_hash hash key d)) eqn:Hget.
      * destruct Hx as [Hx|[<-|[]]]; [now apply Hkeys|].
        apply dict_get_In in Hget. apply (in_map fst) in Hget. exact Hget.
      * rewrite map_app. apply in_or_app.
        destruct Hx as [Hx|[<-|[]]]; [left; now apply Hkeys | right; now left].
Qed.

(** The dictionary [union] that [_load_data] makes of the elements [xs]
    holds, at each key hash met, the first element of [xs] with that key
    hash. *)
Lemma union_load_spec (xs : list (elem A)) :
  NoDup (map fst (union_load hash key xs)) /\
  (forall h v, In (h, v) (union_load hash key xs) ->
     find (fun x => (key_hash hash key x =? h)%Z) xs = Some v) /\
  (forall x, In x xs -> In (key_hash hash key x) (map fst (union_load hash key xs))).
Proof.
  apply (@union_load_keeps xs [] []);
    [constructor | intros h v [] | intros x []].
Qed.

(** The elements that [group_by] and [union] load are those of a
    traversal of their sources. *)
Lemma GroupedEnumerable_load_init (xs : list (elem A)) :
  fst (GroupedEnumerable_load hash key key_names (Enumerable_init xs))
  = grouped_load hash key key_names xs [].
Proof.
  unfold GroupedEnumerable_load.
  destruct (to_list_at_start (Enumerable_init_at_start xs)) as (e & Hl & _).
  unfold elem in *. now rewrite Hl.
Qed.

Lemma UnionEnumerable_init_union (xs ys : list (elem A)) :
  union (UnionEnumerable_init hash key (Enumerable_init xs) (Enumerable_init ys))
  = union_load hash key (xs ++ ys).
Proof.
  unfold UnionEnumerable_init, concat_to_list.
  destruct (to_list_at_start (Enumerable_init_at_start xs)) as (e1 & Hl1 & _).
  destruct (to_list_at_start (Enumerable_init_at_start ys)) as (e2 & Hl2 & _).
  unfold elem in *. now rewrite Hl1, Hl2.
Qed.

(** Grouping two elements gives one grouping with both exactly when
    their key hashes are equal; no key names are needed for that. *)
Lemma same_group_iff (x y : elem A) :
  key_names = [] ->
  (same_group hash key key_names x y <-> key_hash hash key x = key_hash hash key y).
Proof.
  intros Hnames. unfold same_group. rewrite GroupedEnumerable_load_init. split.
  - intros (grouping & h & g & Hload & Hg & Hd).
    destruct (@grouped_load_spec [x; y] grouping Hload) as (_ & Hdata & _).
    subst grouping. specialize (Hdata h g (or_introl eq_refl)).
    rewrite Hd in Hdata.
    assert (Hx : In x (filter (fun z => (key_hash hash key z =? h)%Z) [x; y]))
      by (rewrite <- Hdata; now left).
    assert (Hy : In y (filter (fun z => (key_hash hash key z =? h)%Z) [x; y]))
      by (rewrite <- Hdata; right; now left).
    apply filter_In in Hx, Hy. destruct Hx as [_ Hx], Hy as [_ Hy].
    apply Z.eqb_eq in Hx, Hy. congruence.
  - intros E. subst key_names.
    cbn [grouped_load]. unfold grouped_step at 1.
    cbn [dict_get enumerate length seq combine key_prop_loop app].
    cbn [grouped_load]. unfold grouped_step.
    cbn [dict_get]. rewrite E, Z.eqb_refl. cbn [dict_update]. rewrite Z.eqb_refl.
    eexists _, _, _. split; [reflexivity|]. split; reflexivity.
Qed.

(** C4, as the code has it: [group_by] puts two elements of a sequence
    in one grouping, and [union] keeps one element for the two, exactly
    when the hashes of the JSON texts of their keys are equal; [union]
    keeps the first element of the sequence with that hash. *)
Theorem C4_same_key_is_same_hash
  (xs : list (elem A)) (grouping : dict (Grouping A)) (x y : elem A) :
  grouped_load hash key key_names xs [] = Return grouping ->
  In x xs ->
  In y xs ->
  ((exists h G, In (h, G) grouping /\
                In x (_data (grouping_enumerable G)) /\
                In y (_data (grouping_enumerable G)))
   <-> key_hash hash key x = key_hash hash key y) /\
  (dict_get (union_load hash key xs) (key_hash hash key x)
   = dict_get (union_load hash key xs) (key_hash hash key y)
   <-> key_hash hash key x = key_hash hash key y) /\
  dict_get (union_load hash key xs) (key_hash hash key x)
  = find (fun d => (key_hash hash key d =? key_hash hash key x)%Z) xs.
Proof.
  intros Hload Hx Hy.
  destruct (@grouped_load_spec xs grouping Hload) as (Hnd & Hdata & Hkeys).
  destruct (union_load_spec xs) as (Und & Ufirst & Ukeys).
  assert (Uget : forall z, In z xs ->
            dict_get (union_load hash key xs) (key_hash hash key z)
            = find (fun d => (key_hash hash key d =? key_hash hash key z)%Z) xs).
  { intros z Hz.
    destruct (dict_get (union_load hash key xs) (key_hash hash key z)) as [v|] eqn:Hget.
    - apply dict_get_In in Hget. symmetry. now apply Ufirst.
    - apply dict_get_None in Hget. exfalso. apply Hget. now apply Ukeys. }
  split; [| split].
  - split.
    + intros (h & G & Hin & HxG & HyG).
      rewrite (Hdata _ _ Hin) in HxG, HyG.
      apply filter_In in HxG, HyG.
      destruct HxG as [_ Ex], HyG as [_ Ey].
      apply Z.eqb_eq in Ex, Ey. congruence.
    + intros E.
      pose proof (Hkeys x Hx) as Hk. apply in_map_iff in Hk.
      destruct Hk as ([h G] & Hh & Hin). cbn [fst] in Hh. subst h.
      exists (key_hash hash key x), G. split; [assumption|].
      rewrite (Hdata _ _ Hin). split; apply filter_In; split; auto.
      * apply Z.eqb_refl.
      * apply Z.eqb_eq. congruence.
  - split; [| intros E; now rewrite E].
    rewrite (Uget x Hx), (Uget y Hy). intros E.
    destruct (find _ xs) as [v|] eqn:Hf.
    + apply find_some in Hf. symmetry in E. apply find_some in E.
      destruct Hf as [_ H1], E as [_ H2]. apply Z.eqb_eq in H1, H2. congruence.
    + pose proof (find_none _ _ Hf x Hx) as Hn. cbv beta in Hn.
      rewrite Z.eqb_refl in Hn. discriminate.
  - now apply Uget.
Qed.

End KeyedFacts.

(** C4 as stated fails, whatever [hash] is: the tuple [(1, 2)] and the
    list [[1, 2]] are different keys, and [json.dumps] writes both as
    [[1, 2]], so [group_by] puts the two in one grouping and [union]
    keeps the first for both. *)
Lemma C4_tuple_and_list_are_one_key :
  ~ (exists hash : String.string -> Z,
       forall x y : elem pyval,
         (same_group hash (fun e => match e with Some v => v | None => PyNone end) [] x y
          <-> x = y) /\
         (same_union_key hash (fun e => match e with Some v => v | None => PyNone end) x y
          <-> x = y)).
Proof.
  intros [hash H].
  destruct (H (Some (PyTuple [PyInt 1; PyInt 2])) (Some (PyList [PyInt 1; PyInt 2])))
    as [[Hg _] _].
  assert (E : Some (PyTuple [PyInt 1; PyInt 2]) = Some (PyList [PyInt 1; PyInt 2])).
  { apply Hg. apply same_group_iff; reflexivity. }
  discriminate E.
Qed.

(** C4 on the sequence [(1, 2), [1, 2], 3], with the length of the text
    as hash. *)
Lemma C4_same_key_is_same_hash_witness :
  ((exists h G,
      In (h, G)
         (match
            grouped_load (fun s => Z.of_nat (String.length s))
              (fun e => match e with Some v => v | None => PyNone end) []
              [Some (PyTuple [PyInt 1; PyInt 2]); Some (PyList [PyInt 1; PyInt 2]);
               Some (PyInt 3)] []
          with
          | Return g => g
          | Raise _ => []
          end) /\
      In (Some (PyTuple [PyInt 1; PyInt 2])) (_data (grouping_enumerable G)) /\
      In (Some (PyList [PyInt 1; PyInt 2])) (_data (grouping_enumerable G)))
   <-> key_hash (fun s => Z.of_nat (String.length s))
         (fun e => match e with Some v => v | None => PyNone end)
         (Some (PyTuple [PyInt 1; PyInt 2]))
       = key_hash (fun s => Z.of_nat (String.length s))
           (fun e => match e with Some v => v | None => PyNone end)
           (Some (PyList [PyInt 1; PyInt 2]))).
Proof.
  apply (@C4_same_key_is_same_hash pyval (fun s => Z.of_nat (String.length s))
           (fun e => match e with Some v => v | None => PyNone end) []
           [Some (PyTuple [PyInt 1; PyInt 2]); Some (PyList [PyInt 1; PyInt 2]);
            Some (PyInt 3)]).
  - vm_compute. reflexivity.
  - simpl. tauto.
  - simpl. tauto.
Defined.

(** * More of the module: what the other methods and classes do *)

(** ** The methods of a node built over a list *)

Section ListNodeFacts.

Variable A : Type.

(** [any()] on a node that stands at its start: whether the list has a
    first element and that element is not [None]. *)
Lemma any_spec (fuel : nat) (self : Enumerable A) :
  at_start self ->
  exists s,
    any fuel self
    = Some (Return (match _data self with Some _ :: _ => true | _ => false end), s) /\
    at_start s /\ _data s = _data self.
Proof.
  intros Hs.
  destruct (getitem_at_start fuel 0 Hs) as (s & Hg & Hd & Hs').
  exists s. unfold any, first_or_default, element_at_or_default, element_at, bind, ret.
  change (Z.of_nat 0) with 0%Z in Hg. rewrite Hg.
  destruct (_data self) as [|[a|] rest]; simpl; auto.
Qed.

(** [element_at(n)] and [element_at_or_default(n)] on a node that stands
    at its start. *)
Lemma element_at_spec (fuel : nat) (n : Z) (self : Enumerable A) :
  at_start self ->
  exists s,
    element_at fuel n self
    = Some (if (n <? 0)%Z then Raise IndexError
            else match nth (Z.to_nat n) (_data self) None with
                 | Some a => Return (Some a)
                 | None => Raise IndexError
                 end, s) /\
    element_at_or_default fuel n self
    = Some (if (n <? 0)%Z then Return None
            else Return (nth (Z.to_nat n) (_data self) None), s) /\
    at_start s /\ _data s = _data self.
Proof.
  intros Hs. unfold element_at_or_default, element_at, bind, ret.
  destruct (Z.ltb_spec n 0) as [Hn|Hn].
  - exists self. unfold getitem.
    destruct (Z.ltb_spec n 0); [|lia]. unfold ret. auto.
  - destruct (getitem_at_start fuel (Z.to_nat n) Hs) as (s & Hg & Hd & Hs').
    rewrite Z2Nat.id in Hg by assumption.
    exists s. rewrite Hg.
    destruct (nth (Z.to_nat n) (_data self) None); simpl; auto.
Qed.

(** X1.  On a node built over a list, [element_at(n)] returns the
    element at index [n] when [0 <= n < len] and that element is not
    [None], and raises [IndexError] in every other case: a negative
    index, an index past the end, a [None] element.  There
    [element_at_or_default(n)] returns [None].  Neither call moves the
    node from its start. *)
Theorem element_at_in_and_out_of_bounds (fuel : nat) (n : Z) (data : list (elem A)) :
  exists s,
    element_at fuel n (Enumerable_init data)
    = Some (if (n <? 0)%Z then Raise IndexError
            else match nth (Z.to_nat n) data None with
                 | Some a => Return (Some a)
                 | None => Raise IndexError
                 end, s) /\
    element_at_or_default fuel n (Enumerable_init data)
    = Some (if (n <? 0)%Z then Return None
            else Return (nth (Z.to_nat n) data None), s) /\
    at_start s /\ _data s = data.
Proof.
  exact (element_at_spec fuel n (Enumerable_init_at_start data)).
Qed.

(** X2.  [default_if_empty(value)] returns [Enumerable([value])] not
    only on an empty node but on every node whose first element is
    [None], whatever follows it, since [any()] is [False] there; on a node
    whose first element is not [None] it returns the node itself. *)
Theorem default_if_empty_tests_the_first_element
  (fuel : nat) (value : elem A) (data : list (elem A)) :
  exists s,
    default_if_empty fuel value (Enumerable_init data)
    = Some (Return (match data with
                    | Some _ :: _ => Self
                    | _ => New (Enumerable_init [value])
                    end), s) /\
    any fuel (Enumerable_init data)
    = Some (Return (match data with Some _ :: _ => true | _ => false end), s) /\
    at_start s /\ _data s = data.
Proof.
  destruct (any_spec fuel (Enumerable_init_at_start data)) as (s & Ha & Hs & Hd).
  exists s. unfold default_if_empty, bind, ret. rewrite Ha.
  simpl in *. destruct data as [|[a|] rest]; auto.
Qed.

(** *** [min] and [max] *)

Lemma fold_min_spec (func : elem A -> Z) (t : list (elem A)) :
  forall x : elem A,
    In (fold_left (fun m y => if (func y <? func m)%Z then y else m) t x) (x :: t) /\
    Forall (fun y => (func (fold_left (fun m y => if (func y <? func m)%Z then y else m) t x)
                      <= func y)%Z) (x :: t).
Proof.
  induction t as [|y t IH]; intros x.
  - simpl. split; [now left|]. constructor; [lia | constructor].
  - cbn [fold_left].
    destruct (IH (if (func y <? func x)%Z then y else x)) as [Hin Hall].
    inversion Hall as [|? ? Hm Ht]; subst.
    split.
    + destruct Hin as [E|Hin]; [|right; right; assumption].
      rewrite <- E. destruct (func y <? func x)%Z; [right; left|left]; reflexivity.
    + destruct (Z.ltb_spec (func y) (func x));
        (constructor; [lia | constructor; [lia | assumption]]).
Qed.

Lemma fold_max_spec (func : elem A -> Z) (t : list (elem A)) :
  forall x : elem A,
    In (fold_left (fun m y => if (func m <? func y)%Z then y else m) t x) (x :: t) /\
    Forall (fun y => (func y
                      <= func (fold_left (fun m y => if (func m <? func y)%Z then y else m) t x))%Z)
           (x :: t).
Proof.
  induction t as [|y t IH]; intros x.
  - simpl. split; [now left|]. constructor; [lia | constructor].
  - cbn [fold_left].
    destruct (IH (if (func x <? func y)%Z then y else x)) as [Hin Hall].
    inversion Hall as [|? ? Hm Ht]; subst.
    split.
    + destruct Hin as [E|Hin]; [|right; right; assumption].
      rewrite <- E. destruct (func x <? func y)%Z; [right; left|left]; reflexivity.
    + destruct (Z.ltb_spec (func x) (func y));
        (constructor; [lia | constructor; [lia | assumption]]).
Qed.

(** X3.  On a node built over a list whose first element is not [None],
    [min(func)] and [max(func)] return values that [func] takes on the
    list and that bound every value it takes there.  When the first
    element is [None] both raise [NoElementsError], although the list is
    not empty. *)
Theorem min_and_max_bound_the_projections
  (fuel : nat) (func : elem A -> Z) (a : A) (rest : list (elem A)) :
  (exists lo hi s1 s2,
     min fuel func (Enumerable_init (Some a :: rest)) = Some (Return lo, s1) /\
     max fuel func (Enumerable_init (Some a :: rest)) = Some (Return hi, s2) /\
     In lo (map func (Some a :: rest)) /\
     In hi (map func (Some a :: rest)) /\
     Forall (fun x => (lo <= func x <= hi)%Z) (Some a :: rest) /\
     at_start s1 /\ at_start s2) /\
  (exists s1 s2,
     min fuel func (Enumerable_init (None :: rest)) = Some (Raise NoElementsError, s1) /\
     max fuel func (Enumerable_init (None :: rest)) = Some (Raise NoElementsError, s2)).
Proof.
  split.
  - destruct (any_spec fuel (Enumerable_init_at_start (Some a :: rest)))
      as (s & Ha & Hs & Hd).
    destruct (to_list_at_start Hs) as (s' & Hl & Hd' & Hs').
    destruct (fold_min_spec func rest (Some a)) as [Hmin Hlo].
    destruct (fold_max_spec func rest (Some a)) as [Hmax Hhi].
    eexists _, _, s', s'.
    unfold min, max, require_any, bind, ret. rewrite Ha. cbn [_data Enumerable_init].
    cbn [node_iter Enumerable_Node]. rewrite Hl, Hd. cbn [_data Enumerable_init builtin_min builtin_max].
    repeat split; auto using in_map.
    rewrite Forall_forall in *. intros x Hx.
    specialize (Hlo x Hx). specialize (Hhi x Hx). lia.
  - destruct (any_spec fuel (Enumerable_init_at_start (None :: rest)))
      as (s & Ha & Hs & Hd).
    exists s, s. unfold min, max, require_any, bind, ret. rewrite Ha.
    split; reflexivity.
Qed.

(** *** [aggregate] *)

Lemma aggregate_loop_seeded (func : elem A -> elem A -> elem A) (seed : A)
  (xs : list (elem A)) :
  forall (k : nat) (r : elem A),
    fold_left
      (fun result '(i, e) => if (i =? 0) && is_None (Some seed) then result else func result e)
      (combine (seq k (length xs)) xs) r
    = fold_left func xs r.
Proof.
  induction xs as [|x xs IH]; intros k r; [reflexivity|].
  cbn [length seq combine fold_left is_None]. rewrite andb_false_r. apply IH.
Qed.

(** X4.  [aggregate(func, seed)] with a seed folds [func] over the whole
    list from the seed, from left to right; without a seed, on a list
    whose first element is not [None], it folds [func] over the rest of
    the list from the first element. *)
Theorem aggregate_folds_from_the_left
  (fuel : nat) (func : elem A -> elem A -> elem A) (seed a : A)
  (data rest : list (elem A)) :
  (exists s,
     aggregate fuel func (Some seed) (Enumerable_init data)
     = Some (Return (fold_left func data (Some seed)), s) /\ at_start s) /\
  (exists s,
     aggregate fuel func None (Enumerable_init (Some a :: rest))
     = Some (Return (fold_left func rest (Some a)), s)).
Proof.
  split.
  - destruct (to_list_at_start (Enumerable_init_at_start data)) as (s & Hl & Hd & Hs).
    exists s. unfold aggregate, bind, ret. cbn [is_None node_iter Enumerable_Node].
    rewrite Hl. cbn [_data Enumerable_init]. unfold aggregate_loop, enumerate.
    rewrite aggregate_loop_seeded. auto.
  - apply (aggregate_no_seed fuel func (Enumerable_init_at_start (Some a :: rest)) eq_refl).
Qed.

End ListNodeFacts.

(** ** [skip], [take], [skip_last] and [take_last] *)

Section SkipTakeFacts.

Variable A : Type.

Lemma skip_iter_from (n : Z) (xs : list (elem A)) :
  forall k : nat,
    map snd (filter (fun '(index, _) => (n <=? Z.of_nat index)%Z)
                    (combine (seq k (length xs)) xs))
    = skipn (Z.to_nat n - k) xs.
Proof.
  induction xs as [|x xs IH]; intros k.
  - simpl. now rewrite skipn_nil.
  - cbn [length seq combine filter].
    destruct (Z.leb_spec n (Z.of_nat k)).
    + cbn [map snd]. rewrite IH.
      replace (Z.to_nat n - k) with 0 by lia.
      replace (Z.to_nat n - S k) with 0 by lia. reflexivity.
    + rewrite IH.
      replace (Z.to_nat n - k) with (S (Z.to_nat n - S k)) by lia. reflexivity.
Qed.

Lemma take_iter_from (n : Z) (xs : list (elem A)) :
  forall k : nat,
    map snd (filter (fun '(index, _) => (Z.of_nat index <? n)%Z)
                    (combine (seq k (length xs)) xs))
    = firstn (Z.to_nat n - k) xs.
Proof.
  induction xs as [|x xs IH]; intros k.
  - simpl. now rewrite firstn_nil.
  - cbn [length seq combine filter].
    destruct (Z.ltb_spec (Z.of_nat k) n).
    + cbn [map snd]. rewrite IH.
      replace (Z.to_nat n - k) with (S (Z.to_nat n - S k)) by lia. reflexivity.
    + rewrite IH.
      replace (Z.to_nat n - k) with 0 by lia.
      replace (Z.to_nat n - S k) with 0 by lia. reflexivity.
Qed.

(** What the two generators yield of what their upstream node yields:
    the elements from index [n] on, and the [n] first elements; all of
    them, and none, when [n] is negative. *)
Lemma skip_iter_skipn (n : Z) (xs : list (elem A)) :
  skip_iter n xs = skipn (Z.to_nat n) xs.
Proof.
  unfold skip_iter, enumerate. rewrite skip_iter_from. now rewrite Nat.sub_0_r.
Qed.

Lemma take_iter_firstn (n : Z) (xs : list (elem A)) :
  take_iter n xs = firstn (Z.to_nat n) xs.
Proof.
  unfold take_iter, enumerate. rewrite take_iter_from. now rewrite Nat.sub_0_r.
Qed.

Section AnyUpstream.

Context {S : Type} `{Node A S}.

Lemma node_iter_skip (fuel : nat) (n : Z) (s s' : S) (xs : list (elem A)) :
  node_iter fuel s = Some (xs, s') ->
  node_iter fuel (skip n s) = Some (skipn (Z.to_nat n) xs, skip n s').
Proof.
  intros Hi. unfold skip. cbn [node_iter SkipEnumerable_Node].
  unfold on_attr, bind, ret. cbn [skip_data skip_n]. rewrite Hi.
  now rewrite skip_iter_skipn.
Qed.

Lemma node_iter_take (fuel : nat) (n : Z) (s s' : S) (xs : list (elem A)) :
  node_iter fuel s = Some (xs, s') ->
  node_iter fuel (take n s) = Some (firstn (Z.to_nat n) xs, take n s').
Proof.
  intros Hi. unfold take. cbn [node_iter TakeEnumerable_Node].
  unfold on_attr, bind, ret. cbn [take_data take_n]. rewrite Hi.
  now rewrite take_iter_firstn.
Qed.

End AnyUpstream.

(** X5.  On a node built over a list, [take(n)] yields the [n] first
    elements and [skip(n)] the others, so that one after the other they
    yield the list; with a negative [n] both raise [ValueError] when the
    node is made.  [skip(m).take(n)] yields the page of [n] elements that
    starts at index [m]. *)
Theorem take_then_skip_is_the_list (fuel : nat) (m n : Z) (data : list (elem A)) :
  ((n < 0)%Z ->
   TakeEnumerable_init n (Enumerable_init data) = Raise ValueError /\
   SkipEnumerable_init n (Enumerable_init data) = Raise ValueError) /\
  ((0 <= n)%Z ->
   exists t s,
     TakeEnumerable_init n (Enumerable_init data) = Return t /\
     SkipEnumerable_init n (Enumerable_init data) = Return s /\
     option_map fst (node_iter fuel t) = Some (firstn (Z.to_nat n) data) /\
     option_map fst (node_iter fuel s) = Some (skipn (Z.to_nat n) data) /\
     firstn (Z.to_nat n) data ++ skipn (Z.to_nat n) data = data) /\
  ((0 <= m)%Z -> (0 <= n)%Z ->
   exists s t,
     SkipEnumerable_init m (Enumerable_init data) = Return s /\
     TakeEnumerable_init n s = Return t /\
     option_map fst (node_iter fuel t)
     = Some (firstn (Z.to_nat n) (skipn (Z.to_nat m) data))).
Proof.
  destruct (to_list_at_start (Enumerable_init_at_start data)) as (s & Hl & Hd & Hs).
  assert (Hi : node_iter fuel (Enumerable_init data) = Some (data, s)).
  { cbn [node_iter Enumerable_Node]. now rewrite Hl. }
  unfold TakeEnumerable_init, SkipEnumerable_init.
  split; [| split].
  - intros Hn. destruct (Z.ltb_spec n 0); [auto | lia].
  - intros Hn. destruct (Z.ltb_spec n 0); [lia|].
    do 2 eexists. split; [reflexivity|]. split; [reflexivity|].
    rewrite (node_iter_take fuel n _ Hi), (node_iter_skip fuel n _ Hi).
    repeat split. apply firstn_skipn.
  - intros Hm Hn.
    destruct (Z.ltb_spec m 0); [lia|]. destruct (Z.ltb_spec n 0); [lia|].
    do 2 eexists. split; [reflexivity|]. split; [reflexivity|].
    now rewrite (node_iter_take fuel n _ (node_iter_skip fuel m _ Hi)).
Qed.

(** X6.  On a node built over a list, [skip_last(n)] and [take_last(n)]
    with [n] not more than the length of the list split the list in two:
    what the first yields followed by what the second yields is the list,
    and [take_last(n)] yields [n] elements, none when [n] is negative.
    With [n] more than the length of the list both raise [ValueError]. *)
Theorem skip_last_then_take_last_is_the_list (fuel : nat) (n : Z) (data : list (elem A)) :
  ((n <= Z.of_nat (length data))%Z ->
   exists t s xs ys,
     skip_last fuel n (Enumerable_init data) = Some (Return t) /\
     take_last fuel n (Enumerable_init data) = Some (Return s) /\
     option_map fst (node_iter fuel t) = Some xs /\
     option_map fst (node_iter fuel s) = Some ys /\
     xs ++ ys = data /\
     length ys = Z.to_nat n) /\
  ((Z.of_nat (length data) < n)%Z ->
   skip_last fuel n (Enumerable_init data) = Some (Raise ValueError) /\
   take_last fuel n (Enumerable_init data) = Some (Raise ValueError)).
Proof.
  destruct (to_list_at_start (Enumerable_init_at_start data)) as (s & Hl & Hd & Hs).
  destruct (to_list_at_start Hs) as (s' & Hl' & Hd' & Hs').
  assert (Hi : node_iter fuel s = Some (data, s')).
  { cbn [node_iter Enumerable_Node]. rewrite Hl'. now rewrite Hd. }
  unfold skip_last, take_last, count, bind, ret, TakeEnumerable_init, SkipEnumerable_init.
  cbn [node_iter Enumerable_Node]. rewrite Hl. cbn [_data Enumerable_init].
  split; intros Hn.
  - destruct (Z.ltb_spec (Z.of_nat (length data) - n) 0); [lia|].
    do 4 eexists. split; [reflexivity|]. split; [reflexivity|].
    rewrite (node_iter_take fuel _ _ Hi), (node_iter_skip fuel _ _ Hi).
    split; [reflexivity|]. split; [reflexivity|].
    cbn [option_map fst].
    split; [apply firstn_skipn|].
    rewrite length_skipn. lia.
  - destruct (Z.ltb_spec (Z.of_nat (length data) - n) 0); [auto | lia].
Qed.

End SkipTakeFacts.

(** ** Nodes that can be traversed again and again *)

(** A method that gives [x] on every state that satisfies an invariant,
    and keeps the invariant, gives [x] at each of any number of calls made
    one after the other. *)
Lemma successive_invariant {T X : Type} (Inv : T -> Prop) (m : M T X) (x : X) :
  (forall s, Inv s -> exists s', m s = Some (x, s') /\ Inv s') ->
  forall (k : nat) (s : T),
    Inv s -> exists s', successive k m s = Some (repeat x k, s') /\ Inv s'.
Proof.
  intros Hm. induction k as [|k IH]; intros s Hs.
  - exists s. split; [reflexivity | assumption].
  - destruct (Hm s Hs) as (s1 & E1 & H1). destruct (IH s1 H1) as (s2 & E2 & H2).
    exists s2. cbn [successive repeat]. unfold bind, ret. rewrite E1, E2. auto.
Qed.

Section SteadyFacts.

Variable A : Type.
Context {S : Type} `{Node A S}.

Variable Inv : S -> Prop.
Variable l : nat.
Variable xs : list (elem A).
Variable F : nat.

Hypothesis Hsteady : steady Inv l xs F.

Lemma steady_len (fuel : nat) (s : S) :
  Inv s -> F <= fuel -> exists s', node_len fuel s = Some (l, s') /\ Inv s'.
Proof. intros Hs Hf. apply (Hsteady Hs Hf). Qed.

Lemma steady_iter (fuel : nat) (s : S) :
  Inv s -> F <= fuel -> exists s', node_iter fuel s = Some (xs, s') /\ Inv s'.
Proof. intros Hs Hf. apply (Hsteady Hs Hf). Qed.

Lemma successive_steady (fuel k : nat) (s : S) :
  Inv s -> F <= fuel ->
  exists s', successive k (node_iter fuel) s = Some (repeat xs k, s') /\ Inv s'.
Proof.
  intros Hs Hf. apply (successive_invariant Inv); [|assumption].
  intros s0 H0. now apply steady_iter.
Qed.

Lemma count_steady (fuel : nat) (s : S) :
  Inv s -> F <= fuel -> exists s', count fuel s = Some (length xs, s') /\ Inv s'.
Proof.
  intros Hs Hf. destruct (steady_iter Hs Hf) as (s' & Hi & H').
  exists s'. unfold count, bind, ret. rewrite Hi. auto.
Qed.

(** The methods that read by index need [len] only to tell an empty node
    from one that is not. *)
Hypothesis Hempty : l = 0 -> xs = [].

Lemma getitem_steady (fuel m : nat) (s : S) :
  Inv s -> F <= fuel ->
  exists s', getitem fuel (Z.of_nat m) s = Some (Return (nth m xs None), s') /\ Inv s'.
Proof.
  intros Hs Hf.
  destruct (steady_len Hs Hf) as (s1 & Hl & H1).
  destruct (steady_iter H1 Hf) as (s2 & Hi & H2).
  pose proof (@getitem_spec A S _ fuel m s s1 s2 l xs Hl Hi) as Hg.
  rewrite Hg. destruct (Nat.eqb_spec l 0) as [E|E].
  - exists s1. rewrite (Hempty E). destruct m; auto.
  - exists s2. auto.
Qed.

Lemma element_at_steady (fuel : nat) (n : Z) (s : S) :
  Inv s -> F <= fuel ->
  exists s',
    element_at fuel n s
    = Some (if (n <? 0)%Z then Raise IndexError
            else match nth (Z.to_nat n) xs None with
                 | Some a => Return (Some a)
                 | None => Raise IndexError
                 end, s') /\
    element_at_or_default fuel n s
    = Some (if (n <? 0)%Z then Return None
            else Return (nth (Z.to_nat n) xs None), s') /\
    Inv s'.
Proof.
  intros Hs Hf. unfold element_at_or_default, element_at, bind, ret.
  destruct (Z.ltb_spec n 0) as [Hn|Hn].
  - exists s. unfold getitem.
    destruct (Z.ltb_spec n 0); [|lia]. unfold ret. auto.
  - destruct (getitem_steady (Z.to_nat n) Hs Hf) as (s' & Hg & H').
    rewrite Z2Nat.id in Hg by assumption.
    exists s'. rewrite Hg.
    destruct (nth (Z.to_nat n) xs None); simpl; auto.
Qed.

Lemma first_steady (fuel : nat) (s : S) :
  Inv s -> F <= fuel ->
  exists s',
    first fuel s
    = Some (match xs with Some a :: _ => Return (Some a) | _ => Raise IndexError end, s') /\
    first_or_default fuel s
    = Some (Return (match xs with x :: _ => x | [] => None end), s') /\
    Inv s'.
Proof.
  intros Hs Hf. destruct (element_at_steady 0 Hs Hf) as (s' & He & Hd & H').
  exists s'. unfold first, first_or_default. rewrite He, Hd.
  destruct xs as [|[a|] rest]; simpl; auto.
Qed.

Lemma any_steady (fuel : nat) (s : S) :
  Inv s -> F <= fuel ->
  exists s',
    any fuel s = Some (Return (match xs with Some _ :: _ => true | _ => false end), s') /\
    Inv s'.
Proof.
  intros Hs Hf. destruct (first_steady Hs Hf) as (s' & _ & Hd & H').
  exists s'. unfold any, bind, ret. rewrite Hd.
  destruct xs as [|[a|] rest]; simpl; auto.
Qed.

Lemma single_steady (fuel : nat) (s : S) :
  Inv s -> F <= fuel ->
  exists s',
    single fuel s
    = Some (match xs with
            | [Some a] => Return (Some a)
            | Some _ :: _ :: _ => Raise MoreThanOneMatchingElement
            | _ => Raise NoMatchingElement
            end, s') /\
    single_or_default fuel s
    = Some (match xs with
            | [Some a] => Return (Some a)
            | Some _ :: _ :: _ => Raise MoreThanOneMatchingElement
            | _ => Return None
            end, s') /\
    Inv s'.
Proof.
  intros Hs Hf. unfold single_or_default, single, bind, ret.
  destruct (any_steady Hs Hf) as (s1 & Ha & H1).
  destruct (count_steady H1 Hf) as (s2 & Hc & H2).
  destruct (first_steady H2 Hf) as (s3 & Hfi & _ & H3).
  rewrite Ha.
  destruct xs as [|[a|] [|y rest]]; try (exists s1; split; [reflexivity | auto]).
  - rewrite Hc. cbn [length Nat.ltb Nat.leb]. rewrite Hfi. exists s3. auto.
  - rewrite Hc. exists s2. auto.
Qed.

End SteadyFacts.

(** A node built over a list is steady: [len] is the length of the list
    and every traversal yields the list. *)
Lemma list_node_steady (A : Type) (data : list (elem A)) :
  steady (list_at_start data) (length data) data 0.
Proof.
  intros fuel s [Hd Hs] _. split.
  - exists s. cbn [node_len Enumerable_Node]. unfold len. rewrite Hd.
    repeat split; auto.
  - destruct (to_list_at_start Hs) as (s' & Hl & Hd' & Hs').
    exists s'. cbn [node_iter Enumerable_Node]. rewrite Hl, Hd.
    repeat split; auto. congruence.
Qed.

Lemma Enumerable_init_list_at_start (A : Type) (data : list (elem A)) :
  list_at_start data (Enumerable_init data).
Proof. split; [reflexivity | apply Enumerable_init_at_start]. Qed.

(** ** [where] and the methods that take a predicate *)

Section WhereFacts.

Variable A : Type.

#[local] Arguments skipn : simpl never.
#[local] Arguments firstn : simpl never.

Lemma over_at_lt (data : list (elem A)) (c : cycle (elem A) nat) (d : Enumerable A)
  (p : nat) :
  over_at data c d p -> p < length data.
Proof.
  intros Ho; inversion Ho; subst; eauto using cursor_at_lt.
Qed.

Lemma over_at_data (data : list (elem A)) (c : cycle (elem A) nat) (d : Enumerable A)
  (p : nat) :
  over_at data c d p -> _data d = data.
Proof. intros Ho; inversion Ho; subst; auto. Qed.

Lemma over_at_cursor (data : list (elem A)) (c : cycle (elem A) nat) (d : Enumerable A) :
  over_at data c d 0 -> cursor_at data (_cycle d) 0.
Proof. intros Ho; inversion Ho; subst; auto. Qed.

(** A traversal of the node itself, run to its end while the cycle over
    it stands at the first element, leaves that cycle where it is. *)
Lemma over_at_node (data : list (elem A)) (c : cycle (elem A) nat) (d d' : Enumerable A) :
  over_at data c d 0 ->
  _data d' = data ->
  at_start d' ->
  over_at data c d' 0.
Proof.
  intros Ho Hd Hs.
  pose proof (over_at_lt Ho) as Hlt.
  assert (Hc : cursor_at data (_cycle d') 0).
  { destruct Hs as [E|Hc]; [|now rewrite Hd in Hc].
    rewrite Hd in E. rewrite E in Hlt. simpl in Hlt. lia. }
  inversion Ho; subst.
  - now apply (over_first_pass (p := 0)).
  - now apply over_wrap.
  - now apply over_replay.
Qed.

(** [next] of a cycle over a node gives the element the cycle stands at
    and moves the cycle to the next one, back to the first after the
    last. *)
Lemma node_cycle_next_at (data : list (elem A)) (c : cycle (elem A) nat) (d : Enumerable A)
  (p : nat) (x : elem A) :
  over_at data c d p ->
  nth_error data p = Some x ->
  exists c' d',
    node_cycle_next c d = (Some x, c', d') /\
    over_at data c' d' (if length data <=? S p then 0 else S p).
Proof.
  intros Ho Hx.
  assert (Hp : p < length data) by (apply nth_error_Some; congruence).
  inversion Ho; subst; unfold node_cycle_next, cycle_next, bind, ret;
    cbn [it saved index].
  - destruct (next_cycle_at d H0 Hx) as (d' & Hn & Hd & Hc).
    unfold generator_next, iter_next.
    destruct (Nat.ltb_spec p (len d)); [| unfold len in *; lia].
    rewrite Hn. rewrite (firstn_snoc_nth _ _ Hx).
    do 2 eexists; split; [reflexivity|].
    unfold len in Hc. rewrite Hd in Hc.
    destruct (Nat.leb_spec (length (_data d)) (S p)).
    + assert (E : S p = length (_data d)) by lia.
      rewrite E, firstn_all.
      apply over_wrap; [exact Hd | exact Hc].
    + apply over_first_pass; [exact Hd | exact Hc].
  - unfold generator_next. rewrite iter_next_end by (unfold len; lia).
    unfold replay. cbn [saved index it]. rewrite Hx.
    do 2 eexists; split; [reflexivity|].
    apply over_replay; [reflexivity | assumption |].
    destruct (Nat.leb_spec (length (_data d)) 1); lia.
  - unfold replay. cbn [saved index it]. rewrite Hx.
    do 2 eexists; split; [reflexivity|].
    apply over_replay; [reflexivity | assumption |].
    destruct (Nat.leb_spec (length (_data d)) (S p)); lia.
Qed.

(** A cycle over a new node over a list stands at the first element. *)
Lemma cycle_new_over_at (data : list (elem A)) :
  data <> [] -> over_at data (cycle_new 0) (Enumerable_init data) 0.
Proof.
  intros Hne. unfold cycle_new.
  apply (over_first_pass (data := data) (p := 0) (Enumerable_init data) eq_refl).
  apply (cursor_first data (p := 0)).
  destruct data; [congruence | simpl; lia].
Qed.

Lemma where_loop_at (data : list (elem A)) (k : nat) :
  forall (self : WhereEnumerable A) (p : nat),
    over_at data (wh_cycle self) (wh_data self) p ->
    p + k <= length data ->
    exists self',
      where_loop k self
      = (filter (wh_predicate self) (firstn k (skipn p data)), self') /\
      wh_predicate self' = wh_predicate self /\
      over_at data (wh_cycle self') (wh_data self')
              (if length data <=? p + k then 0 else p + k).
Proof.
  induction k as [|k IH]; intros self p Ho Hk.
  - exists self. pose proof (over_at_lt Ho) as Hlt.
    rewrite Nat.add_0_r. destruct (Nat.leb_spec (length data) p); [lia|].
    repeat split; auto.
  - assert (Hlt : p < length data) by lia.
    destruct (nth_error data p) as [x|] eqn:Hx; [| apply nth_error_None in Hx; lia].
    destruct (node_cycle_next_at Ho Hx) as (c' & d' & Hn & Ho').
    cbn [where_loop]. unfold where_next. rewrite Hn.
    rewrite (skipn_cons_nth _ _ Hx). rewrite firstn_cons. cbn [filter].
    destruct (Nat.leb_spec (length data) (S p)) as [Hle|Hgt].
    + assert (k = 0) as -> by lia. cbn [where_loop].
      exists (mkWhere d' (wh_predicate self) c'). split; [|split; [reflexivity|]].
      * rewrite firstn_0. destruct (wh_predicate self x); reflexivity.
      * cbn [wh_cycle wh_data]. destruct (Nat.leb_spec (length data) (p + 1)); [|lia].
        assumption.
    + destruct (IH (mkWhere d' (wh_predicate self) c') (S p) Ho') as (s' & Hl & Hp & Ho2);
        [lia|].
      rewrite Hl. cbn [wh_predicate] in *.
      exists s'. split; [|split; [assumption|]].
      * destruct (wh_predicate self x); reflexivity.
      * replace (p + S k) with (S p + k) by lia. assumption.
Qed.

Lemma where_init_at_start (pred : elem A -> bool) (data : list (elem A)) :
  where_at_start data pred (where_ pred (Enumerable_init data)).
Proof.
  split; [reflexivity | split; [reflexivity|]].
  destruct data as [|x data]; [now left | right].
  apply cycle_new_over_at. discriminate.
Qed.

Lemma where_at_start_node (pred : elem A -> bool) (data : list (elem A))
  (self : WhereEnumerable A) :
  where_at_start data pred self -> list_at_start data (wh_data self).
Proof.
  intros (Hd & _ & [E|Ho]); split; auto.
  - left. congruence.
  - right. rewrite Hd. now apply over_at_cursor with (c := wh_cycle self).
Qed.

Lemma where_to_list_at_start (pred : elem A -> bool) (data : list (elem A))
  (self : WhereEnumerable A) :
  where_at_start data pred self ->
  exists self',
    where_to_list self = (filter pred data, self') /\ where_at_start data pred self'.
Proof.
  intros (Hd & Hp & [E|Ho]).
  - exists self. unfold where_to_list, len. rewrite Hd, E.
    split; [reflexivity|]. split; [congruence | split; [assumption | now left]].
  - destruct (@where_loop_at data (length data) self 0 Ho) as (s' & Hl & Hp' & Ho'); [lia|].
    exists s'. unfold where_to_list, len. rewrite Hd, Hl, Hp.
    unfold skipn. rewrite firstn_all. split; [reflexivity|].
    cbn [Nat.add] in Ho'. rewrite Nat.leb_refl in Ho'.
    split; [now apply over_at_data with (c := wh_cycle s') (p := 0)|].
    split; [congruence | now right].
Qed.

Lemma where_len_at_start (pred : elem A -> bool) (data : list (elem A))
  (self : WhereEnumerable A) :
  where_at_start data pred self ->
  exists self',
    where_len self = (length (filter pred data), self') /\ where_at_start data pred self'.
Proof.
  intros Hw. destruct (where_at_start_node Hw) as [Hd Hs].
  destruct Hw as (_ & Hp & Hor).
  destruct (to_list_at_start Hs) as (d' & Hl & Hd' & Hs').
  eexists. unfold where_len. rewrite Hl, Hd, Hp. split; [reflexivity|].
  split; [cbn [wh_data]; congruence | split; [reflexivity|]].
  destruct Hor as [E|Ho]; [now left | right].
  cbn [wh_cycle wh_data]. apply over_at_node with (d := wh_data self); auto. congruence.
Qed.

(** A [where] node over a node built over a list is steady: it yields
    the elements of the list that satisfy the predicate, and [len] of it
    is their number. *)
Lemma where_steady (pred : elem A -> bool) (data : list (elem A)) :
  steady (where_at_start data pred) (length (filter pred data)) (filter pred data) 0.
Proof.
  intros fuel s Hs _. split.
  - destruct (where_len_at_start Hs) as (s' & Hl & Hs').
    exists s'. cbn [node_len WhereEnumerable_Node]. rewrite Hl. auto.
  - destruct (where_to_list_at_start Hs) as (s' & Hl & Hs').
    exists s'. cbn [node_iter WhereEnumerable_Node]. rewrite Hl. auto.
Qed.

Lemma filter_length_0 (pred : elem A -> bool) (data : list (elem A)) :
  length (filter pred data) = 0 -> filter pred data = [].
Proof. destruct (filter pred data); [reflexivity | discriminate]. Qed.

Lemma filter_head_find (pred : elem A -> bool) (data : list (elem A)) :
  find pred data = match filter pred data with x :: _ => Some x | [] => None end.
Proof.
  induction data as [|x data IH]; [reflexivity|].
  simpl. destruct (pred x); auto.
Qed.

(** X7.  [where(predicate)] on a node built over a list yields the
    elements of the list that satisfy the predicate, in their order, at
    each of any number of traversals run to their end one after the other;
    [len] of the node is the number of those elements, and the node it was
    made from is left at its start. *)
Theorem where_yields_the_matching_elements
  (fuel k : nat) (predicate : elem A -> bool) (data : list (elem A)) :
  exists s s',
    successive k (node_iter fuel) (where_ predicate (Enumerable_init data))
    = Some (repeat (filter predicate data) k, s) /\
    node_len fuel s = Some (length (filter predicate data), s') /\
    list_at_start data (wh_data s').
Proof.
  destruct (successive_steady (@where_steady predicate data) k _
              (where_init_at_start predicate data) (Nat.le_0_l fuel))
    as (s & Hk & Hs).
  destruct (steady_len (@where_steady predicate data) _ Hs (Nat.le_0_l fuel))
    as (s' & Hl & Hs').
  exists s, s'. repeat split; auto; now apply (where_at_start_node Hs').
Qed.

(** X8.  On a node built over a list, [count(predicate)] is the number
    of elements that satisfy the predicate; [first(predicate)] returns the
    first of them, and raises [IndexError] when there is none or when the
    first of them is [None]; [first_or_default(predicate)] returns [None]
    in these two cases, and [any(predicate)] is [False] there.  Each call
    leaves the node at its start. *)
Theorem methods_with_a_predicate_read_the_first_match
  (fuel : nat) (predicate : elem A -> bool) (data : list (elem A)) :
  (exists s,
     count_where fuel predicate (Enumerable_init data)
     = Some (length (filter predicate data), s) /\ list_at_start data s) /\
  (exists s,
     first_where fuel predicate (Enumerable_init data)
     = Some (match find predicate data with
             | Some (Some a) => Return (Some a)
             | _ => Raise IndexError
             end, s) /\ list_at_start data s) /\
  (exists s,
     first_or_default_where fuel predicate (Enumerable_init data)
     = Some (match find predicate data with
             | Some x => Return x
             | None => Return None
             end, s) /\ list_at_start data s) /\
  (exists s,
     any_where fuel predicate (Enumerable_init data)
     = Some (Return (match find predicate data with
                     | Some (Some _) => true
                     | _ => false
                     end), s) /\ list_at_start data s).
Proof.
  pose proof (@where_steady predicate data) as Hst.
  pose proof (where_init_at_start predicate data) as Hi.
  pose proof (@filter_length_0 predicate data) as He.
  destruct (count_steady Hst _ Hi (Nat.le_0_l fuel)) as (s1 & Hc & H1).
  destruct (first_steady Hst He _ Hi (Nat.le_0_l fuel)) as (s2 & Hf & Hd & H2).
  unfold any_where, first_or_default_where, first_where, count_where, with_where, bind, ret.
  rewrite Hc, Hf, Hd, filter_head_find.
  split; [exists (wh_data s1) | split; [exists (wh_data s2) |
    split; [exists (wh_data s2) | exists (wh_data s2)]]];
    (split; [| eapply where_at_start_node; eassumption]);
    destruct (filter predicate data) as [|[a|] rest]; reflexivity.
Qed.

(** X9.  On a node built over a list, [single()] returns the element
    of a list of one element that is not [None]; it raises
    [MoreThanOneMatchingElement] when the list has more elements and the
    first is not [None], and [NoMatchingElement] when the list is empty or
    its first element is [None], however many elements follow.
    [single(predicate)] does the same on the elements that satisfy the
    predicate, and the [_or_default] methods return [None] where these
    raise [NoMatchingElement]. *)
Theorem single_counts_after_testing_the_first_element
  (fuel : nat) (predicate : elem A -> bool) (data : list (elem A)) :
  (exists s,
     single fuel (Enumerable_init data)
     = Some (match data with
             | [Some a] => Return (Some a)
             | Some _ :: _ :: _ => Raise MoreThanOneMatchingElement
             | _ => Raise NoMatchingElement
             end, s) /\
     single_or_default fuel (Enumerable_init data)
     = Some (match data with
             | [Some a] => Return (Some a)
             | Some _ :: _ :: _ => Raise MoreThanOneMatchingElement
             | _ => Return None
             end, s) /\
     list_at_start data s) /\
  (exists s,
     single_where fuel predicate (Enumerable_init data)
     = Some (match filter predicate data with
             | [Some a] => Return (Some a)
             | Some _ :: _ :: _ => Raise MoreThanOneMatchingElement
             | _ => Raise NoMatchingElement
             end, s) /\
     single_or_default_where fuel predicate (Enumerable_init data)
     = Some (match filter predicate data with
             | [Some a] => Return (Some a)
             | Some _ :: _ :: _ => Raise MoreThanOneMatchingElement
             | _ => Return None
             end, s) /\
     list_at_start data s).
Proof.
  split.
  - assert (He : length data = 0 -> data = []) by (destruct data; [auto | discriminate]).
    apply (single_steady (@list_node_steady A data) He _
             (Enumerable_init_list_at_start data) (Nat.le_0_l fuel)).
  - pose proof (@where_steady predicate data) as Hst.
    pose proof (where_init_at_start predicate data) as Hi.
    pose proof (@filter_length_0 predicate data) as He.
    destruct (single_steady Hst He _ Hi (Nat.le_0_l fuel)) as (s & Hsi & _ & Hs).
    exists (wh_data s).
    unfold single_or_default_where, single_where, with_where, bind, ret. rewrite Hsi.
    split; [reflexivity|]. split; [| eapply where_at_start_node; eassumption].
    destruct (filter predicate data) as [|[a|] [|y rest]]; reflexivity.
Qed.

End WhereFacts.

(** ** [reverse] of a steady node, and [last] *)

Section ReverseSteady.

Variable A : Type.
Context {N : Type} `{Node A N}.

Variable Inv : N -> Prop.
Variable xs : list (elem A).
Variable F : nat.

(** The node that is reversed: [len] of it is the number of elements it
    yields. *)
Hypothesis Hsteady : steady Inv (length xs) xs F.

#[local] Arguments skipn : simpl never.
#[local] Arguments firstn : simpl never.

Lemma length_0_nil : length xs = 0 -> xs = [].
Proof. destruct xs; [reflexivity | discriminate]. Qed.

Lemma rev_len_steady (f : nat) (s : N) (c : cycle (elem A) Z) :
  Inv s -> F <= f ->
  exists s', rev_len f (mkReversed s c) = Some (length xs, mkReversed s' c) /\ Inv s'.
Proof.
  intros Hs Hf. destruct (steady_iter Hsteady s Hs Hf) as (s' & Hi & Hs').
  exists s'. unfold rev_len, on_attr, upstream_len, bind, ret.
  cbn [rev_data rev_cycle]. rewrite Hi. auto.
Qed.

(** On its first pass the cycle reads the upstream node by index. *)
Lemma rev_next_first (f k : nat) (s : N) (sv : list (elem A)) (ix : nat) :
  Inv s -> F <= f ->
  exists s',
    rev_next_cycle f (mkReversed s (mkCycle (Some (Z.of_nat k)) sv ix))
    = Some (Some (nth k xs None),
            mkReversed s' (mkCycle (Some (Z.of_nat k - 1)%Z) (sv ++ [nth k xs None]) ix)) /\
    Inv s'.
Proof.
  intros Hs Hf.
  destruct (getitem_steady Hsteady length_0_nil k s Hs Hf) as (s' & Hg & Hs').
  exists s'. unfold rev_next_cycle, cycle_next, reversed_next, bind, ret.
  cbn [rev_data rev_cycle it saved index].
  destruct (Z.leb_spec 0 (Z.of_nat k)); [|lia].
  rewrite Hg. auto.
Qed.

(** Once [reversed] has gone below index 0 the cycle replays what it
    saved, and no longer touches the upstream node. *)
Lemma rev_next_done (f : nat) (s : N) (sv : list (elem A)) (x : elem A) :
  nth_error sv 0 = Some x ->
  rev_next_cycle f (mkReversed s (mkCycle (Some (-1)%Z) sv 0))
  = Some (Some x, mkReversed s (mkCycle None sv (if length sv <=? 1 then 0 else 1))).
Proof.
  intros Hx. unfold rev_next_cycle, cycle_next, reversed_next, bind, ret, replay.
  cbn [rev_data rev_cycle it saved index Z.leb Z.compare]. now rewrite Hx.
Qed.

Lemma rev_next_replay (f : nat) (s : N) (sv : list (elem A)) (p : nat) (x : elem A) :
  nth_error sv p = Some x ->
  rev_next_cycle f (mkReversed s (mkCycle None sv p))
  = Some (Some x, mkReversed s (mkCycle None sv (if length sv <=? S p then 0 else S p))).
Proof.
  intros Hx. unfold rev_next_cycle, cycle_next, ret, replay.
  cbn [rev_data rev_cycle it saved index]. now rewrite Hx.
Qed.

(** The first traversal of a reversed node, taken up at its [i]-th
    element. *)
Lemma reversed_iter_first (k : nat) :
  forall (i fuel : nat) (s : N),
    Inv s ->
    i + k = length xs ->
    F + k < fuel ->
    exists s',
      inherited_iter (@rev_len A _ _) (@rev_next_cycle A _ _) fuel i
        (mkReversed s (mkCycle (Some (Z.of_nat k - 1)%Z) (firstn i (rev xs)) 0))
      = Some (skipn i (rev xs), mkReversed s' (mkCycle (Some (-1)%Z) (rev xs) 0)) /\
      Inv s'.
Proof.
  induction k as [|k IH]; intros i fuel s Hs Hi Hf;
    (destruct fuel as [|f]; [lia|]).
  - destruct (rev_len_steady (mkCycle (Some (Z.of_nat 0 - 1)%Z) (firstn i (rev xs)) 0)
                Hs (f := f)) as (s1 & Hl & Hs1); [lia|].
    cbn [inherited_iter]; unfold bind at 1; rewrite Hl.
    destruct (Nat.ltb_spec i (length xs)); [lia|].
    exists s1. rewrite skipn_all2 by (rewrite length_rev; lia).
    rewrite firstn_all2 by (rewrite length_rev; lia). auto.
  - destruct (rev_len_steady (mkCycle (Some (Z.of_nat (S k) - 1)%Z) (firstn i (rev xs)) 0)
                Hs (f := f)) as (s1 & Hl & Hs1); [lia|].
    cbn [inherited_iter]; unfold bind at 1; rewrite Hl.
    destruct (Nat.ltb_spec i (length xs)); [|lia].
    replace (Z.of_nat (S k) - 1)%Z with (Z.of_nat k) by lia.
    destruct (rev_next_first k (firstn i (rev xs)) 0 Hs1 (f := f)) as (s2 & Hn & Hs2); [lia|].
    unfold bind at 1. rewrite Hn.
    assert (Hnth : nth_error (rev xs) i = Some (nth k xs None)).
    { rewrite nth_error_nth' with (d := None) by (rewrite length_rev; lia).
      rewrite rev_nth by lia. do 2 f_equal. lia. }
    rewrite (firstn_snoc_nth _ _ Hnth).
    destruct (IH (S i) f s2 Hs2) as (s3 & Hrec & Hs3); try lia.
    unfold bind, ret. rewrite Hrec. exists s3.
    now rewrite (skipn_cons_nth _ _ Hnth).
Qed.

(** A later traversal, taken up at its [i]-th element: the cycle
    replays. *)
Lemma reversed_iter_replay (k : nat) :
  forall (i fuel : nat) (s : N),
    Inv s ->
    i + k = length xs ->
    F + k < fuel ->
    exists s',
      inherited_iter (@rev_len A _ _) (@rev_next_cycle A _ _) fuel i
        (mkReversed s (mkCycle None (rev xs) (if length xs <=? i then 0 else i)))
      = Some (skipn i (rev xs), mkReversed s' (mkCycle None (rev xs) 0)) /\
      Inv s'.
Proof.
  induction k as [|k IH]; intros i fuel s Hs Hi Hf;
    (destruct fuel as [|f]; [lia|]).
  - destruct (Nat.leb_spec (length xs) i); [|lia].
    destruct (rev_len_steady (mkCycle None (rev xs) 0) Hs (f := f))
      as (s1 & Hl & Hs1); [lia|].
    cbn [inherited_iter]; unfold bind at 1; rewrite Hl.
    destruct (Nat.ltb_spec i (length xs)); [lia|].
    exists s1. rewrite skipn_all2 by (rewrite length_rev; lia). auto.
  - destruct (Nat.leb_spec (length xs) i); [lia|].
    destruct (rev_len_steady (mkCycle None (rev xs) i) Hs (f := f))
      as (s1 & Hl & Hs1); [lia|].
    cbn [inherited_iter]; unfold bind at 1; rewrite Hl.
    destruct (Nat.ltb_spec i (length xs)); [|lia].
    destruct (nth_error (rev xs) i) as [x|] eqn:Hx;
      [| apply nth_error_None in Hx; rewrite length_rev in Hx; lia].
    unfold bind at 1. rewrite (rev_next_replay f s1 _ _ Hx). rewrite length_rev.
    destruct (IH (S i) f s1 Hs1) as (s2 & Hrec & Hs2); try lia.
    unfold bind, ret. rewrite Hrec. exists s2.
    now rewrite (skipn_cons_nth _ _ Hx).
Qed.

(** [reverse()] of a steady node gives a node that stands at its
    start. *)
Lemma reverse_at_start (fuel : nat) (s : N) :
  Inv s -> F <= fuel ->
  exists r, reverse fuel s = Some r /\ reversed_at_start Inv xs r.
Proof.
  intros Hs Hf. destruct (steady_len Hsteady s Hs Hf) as (s' & Hl & Hs').
  eexists. unfold reverse, ReversedEnumerable_init. rewrite Hl.
  split; [reflexivity|]. split; [exact Hs' | now left].
Qed.

(** The reversed node is steady in its turn: it yields what the upstream
    node yields, in the opposite order, and [len] of it is the number of
    these elements. *)
Lemma reversed_steady :
  steady (reversed_at_start Inv xs) (length (rev xs)) (rev xs) (F + length xs + 1).
Proof.
  intros fuel [s c] [Hs Hc] Hf. cbn [rev_data rev_cycle] in *. split.
  - destruct (rev_len_steady c Hs (f := fuel)) as (s' & Hl & Hs'); [lia|].
    exists (mkReversed s' c). cbn [node_len ReversedEnumerable_Node].
    rewrite Hl, length_rev. split; [reflexivity|]. split; assumption.
  - cbn [node_iter ReversedEnumerable_Node].
    destruct Hc as [-> | [-> | ->]].
    + destruct (@reversed_iter_first (length xs) 0 fuel s Hs) as (s' & Hi & Hs'); try lia.
      unfold cycle_new. unfold firstn, skipn in Hi. rewrite Hi.
      eexists. split; [reflexivity|]. split; [assumption | right; now left].
    + destruct fuel as [|f]; [lia|].
      destruct (rev_len_steady (mkCycle (Some (-1)%Z) (rev xs) 0) Hs (f := f))
        as (s1 & Hl & Hs1); [lia|].
      cbn [inherited_iter]; unfold bind at 1; rewrite Hl.
      destruct (Nat.ltb_spec 0 (length xs)) as [Hpos|Hz].
      * destruct (nth_error (rev xs) 0) as [x|] eqn:Hx;
          [| apply nth_error_None in Hx; rewrite length_rev in Hx; lia].
        unfold bind at 1. rewrite (rev_next_done f s1 _ Hx). rewrite length_rev.
        destruct (@reversed_iter_replay (length xs - 1) 1 f s1 Hs1) as (s2 & Hi & Hs2);
          try lia.
        unfold bind, ret. rewrite Hi.
        exists (mkReversed s2 (mkCycle None (rev xs) 0)).
        split; [|split; [assumption | right; now right]].
        rewrite <- (skipn_cons_nth _ _ Hx). reflexivity.
      * exists (mkReversed s1 (mkCycle (Some (-1)%Z) (rev xs) 0)).
        split; [|split; [assumption | right; now left]].
        assert (E : rev xs = []) by (apply length_zero_iff_nil; rewrite length_rev; lia).
        unfold ret. do 2 f_equal. now symmetry.
    + destruct (@reversed_iter_replay (length xs) 0 fuel s Hs) as (s' & Hi & Hs'); try lia.
      destruct (length xs <=? 0) in Hi; unfold skipn in Hi; rewrite Hi;
        (eexists; split; [reflexivity|]; split; [assumption | right; now right]).
Qed.

Lemma rev_length_0_nil : length (rev xs) = 0 -> rev xs = [].
Proof. destruct (rev xs); [reflexivity | discriminate]. Qed.

(** [last()] reads the first element of the reversed node. *)
Lemma last_steady (fuel : nat) (s : N) :
  Inv s -> F + length xs + 1 <= fuel ->
  exists s',
    last fuel s
    = Some (match rev xs with Some a :: _ => Return (Some a) | _ => Raise IndexError end, s') /\
    last_or_default fuel s
    = Some (Return (match rev xs with x :: _ => x | [] => None end), s') /\
    Inv s'.
Proof.
  intros Hs Hf.
  destruct (@reverse_at_start fuel s Hs) as (r & Hr & Hrs); [lia|].
  destruct (first_steady reversed_steady rev_length_0_nil r Hrs Hf) as (r' & Hfi & Hd & Hr').
  exists (rev_data r'). unfold last, last_or_default. rewrite Hr, Hfi, Hd.
  repeat split. apply Hr'.
Qed.

End ReverseSteady.

Section ReverseFactsMore.

Variable A : Type.

(** X10.  On a node built over a list, [reverse()] gives a node that
    yields the list in the opposite order at each of any number of
    traversals run to their end one after the other, and [reverse()] of
    that node, taken after these traversals, yields the list in its own
    order again. *)
Theorem reverse_twice_is_the_list (fuel k : nat) (data : list (elem A)) :
  2 * length data + 2 <= fuel ->
  exists r r' rr rr',
    reverse fuel (Enumerable_init data) = Some r /\
    successive k (node_iter fuel) r = Some (repeat (rev data) k, r') /\
    reverse fuel r' = Some rr /\
    successive k (node_iter fuel) rr = Some (repeat data k, rr').
Proof.
  intros Hf.
  pose proof (@list_node_steady A data) as H0.
  pose proof (reversed_steady H0) as H1.
  pose proof (reversed_steady H1) as H2.
  rewrite rev_involutive, length_rev in H2.
  destruct (reverse_at_start H0 (fuel := fuel) _ (Enumerable_init_list_at_start data))
    as (r & Hr & Hrs); [lia|].
  destruct (successive_steady H1 k r Hrs (fuel := fuel)) as (r' & Hk & Hrs'); [lia|].
  destruct (reverse_at_start H1 (fuel := fuel) r' Hrs') as (rr & Hrr & Hrrs); [lia|].
  destruct (successive_steady H2 k rr Hrrs (fuel := fuel)) as (rr' & Hkk & _); [lia|].
  exists r, r', rr, rr'. auto.
Qed.

(** X11.  On a node built over a list, [last()] returns the last element
    of the list, and [last(func)] the last of the elements that satisfy
    [func]; both raise [IndexError] when there is no such element or when
    it is [None], where the [_or_default] methods return [None].  Each
    call leaves the node at its start. *)
Theorem last_is_the_first_of_the_reversed_node
  (fuel : nat) (func : elem A -> bool) (data : list (elem A)) :
  length data < fuel ->
  (exists s,
     last fuel (Enumerable_init data)
     = Some (match rev data with Some a :: _ => Return (Some a) | _ => Raise IndexError end, s) /\
     last_or_default fuel (Enumerable_init data)
     = Some (Return (match rev data with x :: _ => x | [] => None end), s) /\
     list_at_start data s) /\
  (exists s,
     last_where fuel func (Enumerable_init data)
     = Some (match rev (filter func data) with
             | Some a :: _ => Return (Some a)
             | _ => Raise IndexError
             end, s) /\
     last_or_default_where fuel func (Enumerable_init data)
     = Some (Return (match rev (filter func data) with x :: _ => x | [] => None end), s) /\
     list_at_start data s).
Proof.
  intros Hf. split.
  - apply (last_steady (@list_node_steady A data) _ (Enumerable_init_list_at_start data)).
    lia.
  - pose proof (filter_length_le func data) as Hle.
    assert (Hst : steady (where_at_start data func) (length (filter func data))
                    (filter func data) 0) by apply where_steady.
    destruct (last_steady Hst (fuel := fuel) _ (where_init_at_start func data))
      as (s & Hl & Hd & Hs); [lia|].
    exists (wh_data s). unfold last_where, last_or_default_where, with_where.
    rewrite Hl, Hd. repeat split; apply (where_at_start_node Hs).
Qed.

End ReverseFactsMore.

Lemma reverse_twice_is_the_list_witness :
  2 * length [Some 1; Some 2; Some 3] + 2 <= 8 /\
  exists r r' rr rr',
    reverse 8 (Enumerable_init [Some 1; Some 2; Some 3]) = Some r /\
    successive 2 (node_iter 8) r = Some (repeat (rev [Some 1; Some 2; Some 3]) 2, r') /\
    reverse 8 r' = Some rr /\
    successive 2 (node_iter 8) rr = Some (repeat [Some 1; Some 2; Some 3] 2, rr').
Proof.
  split; [simpl; lia|].
  apply (reverse_twice_is_the_list 2 [Some 1; Some 2; Some 3]). simpl; lia.
Defined.

(** ** [concat], [append], [prepend] and [add] *)

Section ConcatenateFacts.

Variable A : Type.

#[local] Arguments skipn : simpl never.
#[local] Arguments firstn : simpl never.

(** A resumption of a generator whose node stands at [p]. *)
Lemma iter_next_cursor (self : Enumerable A) (i p : nat) (x : elem A) :
  i < len self ->
  cursor_at (_data self) (_cycle self) p ->
  nth_error (_data self) p = Some x ->
  exists self',
    iter_next i self = (Some x, S i, self') /\
    _data self' = _data self /\
    cursor_at (_data self') (_cycle self') (if len self <=? S p then 0 else S p).
Proof.
  intros Hi Hc Hx. destruct (next_cycle_at self Hc Hx) as (s & Hn & Hd & Hc').
  exists s. unfold iter_next. destruct (Nat.ltb_spec i (len self)); [|lia].
  rewrite Hn. auto.
Qed.

Lemma at_start_cursor (self : Enumerable A) :
  at_start self -> _data self <> [] -> cursor_at (_data self) (_cycle self) 0.
Proof. intros [E|Hc] Hne; [contradiction | assumption]. Qed.

Lemma concat_at_lt (xs ys : list (elem A)) (self : ConcatenateEnumerable A) (p : nat) :
  concat_at xs ys self p -> p < length (xs ++ ys).
Proof.
  intros Hc.
  inversion Hc as [q d e Hd He Hcur Hse | d e Hd He Hsd Hcur | q d e Hd He Hsd Hcur Hq
                  | st d e Hd He Hsd Hse Hne Hst | q d e Hd He Hsd Hse Hq];
    subst; rewrite ?length_app.
  - pose proof (cursor_at_lt Hcur). lia.
  - pose proof (cursor_at_lt Hcur). lia.
  - pose proof (cursor_at_lt Hcur). lia.
  - destruct (_data d), (_data e); simpl in *; try lia; congruence.
  - rewrite length_app in Hq. assumption.
Qed.

Lemma concat_at_data (xs ys : list (elem A)) (self : ConcatenateEnumerable A) (p : nat) :
  concat_at xs ys self p ->
  _data (concat_data self) = xs /\ _data (concat_enumerable self) = ys.
Proof. intros Hc; inversion Hc; subst; auto. Qed.

Lemma cursor_at_start (data : list (elem A)) (self : Enumerable A) :
  _data self = data -> cursor_at data (_cycle self) 0 -> at_start self.
Proof. intros Hd Hc. right. now rewrite Hd. Qed.

(** The state in which the chain has given its last element. *)
Lemma concat_wrapped (xs ys : list (elem A)) (d e : Enumerable A) (i : nat) :
  _data d = xs -> _data e = ys ->
  at_start d -> at_start e ->
  0 < length xs + length ys ->
  (ys = [] -> i = length xs) ->
  concat_at xs ys
    (mkConcatenate d e
       (mkCycle (Some (if length ys =? 0 then chain_first i else chain_second (length ys)))
                (xs ++ ys) 0)) 0.
Proof.
  intros Hd He Hsd Hse Hpos Hi. apply concat_wrap; auto.
  - intros E. apply (f_equal (@length _)) in E. rewrite length_app in E. simpl in E. lia.
  - destruct ys as [|y ys']; [right | left; reflexivity].
    rewrite (Hi eq_refl). auto.
Qed.

(** [next(self._cycle)] gives the element the cycle stands at and moves
    the cycle to the next one, back to the first after the last. *)
Lemma concatenate_next_at (xs ys : list (elem A)) (self : ConcatenateEnumerable A)
  (p : nat) (x : elem A) :
  concat_at xs ys self p ->
  nth_error (xs ++ ys) p = Some x ->
  exists self',
    concatenate_next self = (Some x, self') /\
    concat_at xs ys self' (if length (xs ++ ys) <=? S p then 0 else S p).
Proof.
  intros Hc Hx. rewrite length_app.
  inversion Hc as [q d e Hd He Hcur Hse | d e Hd He Hsd Hcur | q d e Hd He Hsd Hcur Hq
                  | st d e Hd He Hsd Hse Hne Hst | q d e Hd He Hsd Hse Hq];
    unfold concatenate_next, cycle_next, bind, ret;
    cbn [concat_cycle concat_data concat_enumerable it saved index].
  - (* the chain reads the first node *)
    subst q self. cbn [chain_next].
    pose proof (cursor_at_lt Hcur) as Hlt.
    rewrite nth_error_app1 in Hx by assumption.
    rewrite <- Hd in Hcur, Hx.
    destruct (iter_next_cursor d (i := p) (p := p)) with (x := x)
      as (d' & Hn & Hd' & Hc'); auto; [unfold len; rewrite Hd; assumption|].
    rewrite Hn. unfold len in Hc'. rewrite Hd', Hd in Hc'. rewrite Hd in Hx.
    rewrite (firstn_snoc_nth _ _ Hx).
    eexists; split; [reflexivity|].
    assert (Hd1 : _data d' = xs) by congruence.
    destruct (Nat.leb_spec (length xs) (S p)) as [Hle|Hgt].
    + assert (E : S p = length xs) by lia.
      rewrite E, firstn_all.
      destruct ys as [|y ys'].
      * destruct (Nat.leb_spec (length xs + length (@nil (elem A))) (length xs));
          [|simpl in *; lia].
        pose proof (@concat_wrapped xs [] d' e (length xs) Hd1 He
                      (@cursor_at_start _ _ Hd1 Hc') Hse) as W.
        rewrite app_nil_r in W. apply W; [simpl; lia | reflexivity].
      * destruct (Nat.leb_spec (length xs + length (y :: ys')) (length xs));
          [simpl in *; lia|].
        apply concat_between; auto; [now apply (@cursor_at_start xs)|].
        rewrite <- He. apply at_start_cursor; [assumption | congruence].
    + destruct (Nat.leb_spec (length xs + length ys) (S p)); [lia|].
      apply concat_in_first; auto.
  - (* the chain goes on to the second node *)
    subst p self. cbn [chain_next].
    rewrite nth_error_app2 in Hx by lia. rewrite Nat.sub_diag in Hx.
    rewrite iter_next_end by (unfold len; rewrite Hd; lia).
    pose proof (cursor_at_lt Hcur) as Hlt.
    rewrite <- He in Hcur, Hx.
    destruct (iter_next_cursor e (i := 0) (p := 0)) with (x := x)
      as (e' & Hn & He' & Hc'); auto; [unfold len; rewrite He; assumption|].
    rewrite Hn. unfold len in Hc'. rewrite He', He in Hc'. rewrite He in Hx.
    eexists; split; [reflexivity|].
    assert (He1 : _data e' = ys) by congruence.
    assert (Hf1 : [x] = firstn 1 ys).
    { destruct ys as [|y ys']; [discriminate|]. simpl in Hx. now inversion Hx. }
    destruct (Nat.leb_spec (length ys) 1) as [Hle|Hgt].
    + destruct (Nat.leb_spec (length xs + length ys) (S (length xs))); [|lia].
      assert (E1 : firstn 1 ys = ys) by (apply firstn_all2; lia).
      rewrite Hf1, E1.
      pose proof (@concat_wrapped xs ys d e' 0 Hd He1 Hsd (@cursor_at_start _ _ He1 Hc')) as W.
      destruct (Nat.eqb_spec (length ys) 0); [lia|].
      replace 1 with (length ys) by lia.
      apply W; [lia|]. intros E0. rewrite E0 in Hlt. simpl in Hlt. lia.
    + destruct (Nat.leb_spec (length xs + length ys) (S (length xs))); [lia|].
      rewrite Hf1. replace (S (length xs)) with (length xs + 1) by lia.
      apply concat_in_second; auto.
  - (* the chain reads the second node *)
    subst p self. cbn [chain_next].
    rewrite nth_error_app2 in Hx by lia.
    replace (length xs + q - length xs) with q in Hx by lia.
    pose proof (cursor_at_lt Hcur) as Hlt.
    rewrite <- He in Hcur, Hx.
    destruct (iter_next_cursor e (i := q) (p := q)) with (x := x)
      as (e' & Hn & He' & Hc'); auto; [unfold len; rewrite He; assumption|].
    rewrite Hn. unfold len in Hc'. rewrite He', He in Hc'. rewrite He in Hx.
    eexists; split; [reflexivity|].
    assert (He1 : _data e' = ys) by congruence.
    rewrite <- app_assoc, (firstn_snoc_nth _ _ Hx).
    destruct (Nat.leb_spec (length ys) (S q)) as [Hle|Hgt].
    + destruct (Nat.leb_spec (length xs + length ys) (S (length xs + q))); [|lia].
      assert (E : S q = length ys) by lia.
      rewrite E, firstn_all.
      pose proof (@concat_wrapped xs ys d e' 0 Hd He1 Hsd (@cursor_at_start _ _ He1 Hc')) as W.
      destruct (Nat.eqb_spec (length ys) 0); [lia|].
      apply W; [lia|]. intros E0. rewrite E0 in Hlt. simpl in Hlt. lia.
    + destruct (Nat.leb_spec (length xs + length ys) (S (length xs + q))); [lia|].
      replace (S (length xs + q)) with (length xs + S q) by lia.
      apply concat_in_second; auto.
  - (* the chain has given its last element *)
    subst p self.
    assert (Hend : chain_next st (d, e) = Some ((None, chain_end), (d, e))).
    { destruct Hst as [-> | [-> Hy]]; cbn [chain_next].
      - now rewrite iter_next_end by (unfold len; rewrite He; lia).
      - rewrite iter_next_end by (unfold len; rewrite Hd; lia).
        now rewrite iter_next_end by (unfold len; rewrite He, Hy; simpl; lia). }
    rewrite Hend. unfold replay. cbn [saved index it]. rewrite Hx.
    eexists; split; [reflexivity|].
    rewrite <- length_app.
    apply concat_replay; auto.
    assert (0 < length (xs ++ ys))
      by (destruct (xs ++ ys); [congruence | simpl; lia]).
    destruct (Nat.leb_spec (length (xs ++ ys)) 1); lia.
  - (* the cycle replays *)
    subst q self.
    unfold replay. cbn [saved index it]. rewrite Hx.
    eexists; split; [reflexivity|].
    rewrite <- length_app.
    apply concat_replay; auto.
    destruct (Nat.leb_spec (length (xs ++ ys)) (S p)); lia.
Qed.

Lemma concatenate_loop_at (xs ys : list (elem A)) (k : nat) :
  forall (self : ConcatenateEnumerable A) (p : nat),
    concat_at xs ys self p ->
    p + k <= length (xs ++ ys) ->
    exists self',
      concatenate_loop k self = (firstn k (skipn p (xs ++ ys)), self') /\
      concat_at xs ys self' (if length (xs ++ ys) <=? p + k then 0 else p + k).
Proof.
  induction k as [|k IH]; intros self p Hc Hk.
  - exists self. pose proof (concat_at_lt Hc) as Hlt.
    rewrite Nat.add_0_r. destruct (Nat.leb_spec (length (xs ++ ys)) p); [lia|].
    split; [reflexivity | assumption].
  - assert (Hlt : p < length (xs ++ ys)) by lia.
    destruct (nth_error (xs ++ ys) p) as [x|] eqn:Hx; [| apply nth_error_None in Hx; lia].
    destruct (concatenate_next_at Hc Hx) as (s1 & Hn & Hc1).
    cbn [concatenate_loop]. rewrite Hn.
    rewrite (skipn_cons_nth _ _ Hx). rewrite firstn_cons.
    destruct (Nat.leb_spec (length (xs ++ ys)) (S p)) as [Hle|Hgt].
    + assert (k = 0) as -> by lia. cbn [concatenate_loop].
      exists s1. split; [now rewrite firstn_0|].
      destruct (Nat.leb_spec (length (xs ++ ys)) (p + 1)); [assumption | lia].
    + destruct (IH s1 (S p) Hc1) as (s2 & Hl & Hc2); [lia|].
      rewrite Hl. exists s2. split; [reflexivity|].
      replace (p + S k) with (S p + k) by lia. assumption.
Qed.

(** A node that concatenates two nodes that stand at their start stands
    at its start. *)
Lemma concat_init_at_start (xs ys : list (elem A)) (d e : Enumerable A) :
  list_at_start xs d -> list_at_start ys e ->
  concat_at_start xs ys (concat e d).
Proof.
  intros [Hd Hsd] [He Hse]. split; [assumption | split; [assumption|]].
  destruct xs as [|x xs'].
  - destruct ys as [|y ys']; [now left | right].
    unfold concat, ConcatenateEnumerable_init, cycle_new.
    apply (concat_between (xs := []) (ys := y :: ys')); auto.
    rewrite <- He. apply at_start_cursor; [assumption | congruence].
  - right. unfold concat, ConcatenateEnumerable_init, cycle_new.
    apply (concat_in_first (xs := x :: xs') (ys := ys) (q := 0)); auto.
    rewrite <- Hd. apply at_start_cursor; [assumption | congruence].
Qed.

(** The node is steady: it yields the elements of the first node and
    then those of the second, and [len] of it is their number. *)
Lemma concat_steady (xs ys : list (elem A)) :
  steady (concat_at_start xs ys) (length (xs ++ ys)) (xs ++ ys) 0.
Proof.
  intros fuel s (Hd & He & Hor) _. split.
  - exists s. cbn [node_len ConcatenateEnumerable_Node].
    unfold concatenate_len, len. rewrite Hd, He, length_app.
    split; [reflexivity|]. repeat split; assumption.
  - cbn [node_iter ConcatenateEnumerable_Node]. unfold concatenate_to_list.
    unfold concatenate_len, len. rewrite Hd, He, <- length_app.
    destruct Hor as [E|Hc].
    + exists s. rewrite E. cbn [length concatenate_loop].
      split; [reflexivity|]. split; [assumption | split; [assumption | now left]].
    + destruct (@concatenate_loop_at xs ys (length (xs ++ ys)) s 0 Hc) as (s' & Hl & Hc');
        [lia|].
      exists s'. rewrite Hl. unfold skipn. rewrite firstn_all.
      split; [reflexivity|].
      cbn [Nat.add] in Hc'. rewrite Nat.leb_refl in Hc'.
      destruct (concat_at_data Hc') as [Hd' He'].
      split; [assumption | split; [assumption | now right]].
Qed.

Lemma concat_at_start_nodes (xs ys : list (elem A)) (self : ConcatenateEnumerable A) :
  concat_at_start xs ys self ->
  list_at_start xs (concat_data self) /\ list_at_start ys (concat_enumerable self).
Proof.
  intros (Hd & He & [E|Hc]).
  - apply app_eq_nil in E. destruct E as [Ex Ey].
    split; (split; [assumption | left; congruence]).
  - inversion Hc as [q d e Hd' He' Hcur Hse | d e Hd' He' Hsd Hcur | q d e Hd' He' Hsd Hcur Hq
                    | st d e Hd' He' Hsd Hse Hne Hst | q d e Hd' He' Hsd Hse Hq];
      subst self; cbn [concat_data concat_enumerable] in *;
      (split; split; auto).
    + apply (@cursor_at_start xs); [assumption|]. now subst.
    + match goal with E : length xs = 0 |- _ => rewrite E in Hcur end.
      now apply (@cursor_at_start ys).
    + lia.
Qed.

(** X12.  [concat] of two nodes built over lists, which are two
    different objects, yields the elements of the receiver and then those
    of the argument, at each of any number of traversals run to their end
    one after the other; [len] of the node is the sum of the two lengths,
    and both nodes are left at their start. *)
Theorem concat_yields_one_list_after_the_other
  (fuel k : nat) (xs ys : list (elem A)) :
  exists s,
    successive k (node_iter fuel) (concat (Enumerable_init ys) (Enumerable_init xs))
    = Some (repeat (xs ++ ys) k, s) /\
    node_len fuel s = Some (length xs + length ys, s) /\
    list_at_start xs (concat_data s) /\
    list_at_start ys (concat_enumerable s).
Proof.
  pose proof (concat_init_at_start (Enumerable_init_list_at_start xs)
                (Enumerable_init_list_at_start ys)) as Hi.
  destruct (successive_steady (@concat_steady xs ys) k _ Hi (Nat.le_0_l fuel))
    as (s & Hk & Hs).
  exists s. split; [assumption|].
  destruct (concat_at_start_nodes Hs) as [[Hd Hsd] [He Hse]].
  split; [| split; split; assumption].
  cbn [node_len ConcatenateEnumerable_Node]. unfold concatenate_len, len.
  now rewrite Hd, He.
Qed.

(** X13.  On a node built over a list, [append(x)] yields the list
    followed by [x] and [prepend(x)] yields [x] followed by the list;
    [add(None)] returns the node itself and [add(x)] is [append(x)] for
    any other [x].  When [x] is not [None], [append(x).last()] and
    [prepend(x).first()] return [x]. *)
Theorem append_and_prepend_put_the_element_at_an_end
  (fuel : nat) (x : elem A) (a : A) (data : list (elem A)) :
  length data + 1 < fuel ->
  option_map fst (node_iter fuel (append x (Enumerable_init data))) = Some (data ++ [x]) /\
  option_map fst (node_iter fuel (prepend x (Enumerable_init data))) = Some (x :: data) /\
  add None (Enumerable_init data) = Self /\
  add (Some a) (Enumerable_init data) = New (append (Some a) (Enumerable_init data)) /\
  option_map fst (last fuel (append (Some a) (Enumerable_init data)))
  = Some (Return (Some a)) /\
  option_map fst (first fuel (prepend (Some a) (Enumerable_init data)))
  = Some (Return (Some a)).
Proof.
  intros Hf.
  assert (Happ : forall y, concat_at_start data [y] (append y (Enumerable_init data))).
  { intros y. apply concat_init_at_start; apply Enumerable_init_list_at_start. }
  assert (Hpre : forall y, concat_at_start [y] data (prepend y (Enumerable_init data))).
  { intros y. apply concat_init_at_start; apply Enumerable_init_list_at_start. }
  assert (He : forall l : list (elem A), length l = 0 -> l = [])
    by (intros l; destruct l; [auto | discriminate]).
  destruct (steady_iter (@concat_steady data [x]) _ (Happ x) (Nat.le_0_l fuel))
    as (s1 & H1 & _).
  destruct (steady_iter (@concat_steady [x] data) _ (Hpre x) (Nat.le_0_l fuel))
    as (s2 & H2 & _).
  destruct (last_steady (@concat_steady data [Some a]) (fuel := fuel) _ (Happ (Some a)))
    as (s3 & H3 & _); [rewrite length_app; simpl; lia|].
  destruct (first_steady (@concat_steady [Some a] data) (He _) _ (Hpre (Some a))
              (Nat.le_0_l fuel)) as (s4 & H4 & _).
  rewrite H1, H2, H3, H4. rewrite rev_app_distr. repeat split.
Qed.

End ConcatenateFacts.

Lemma append_and_prepend_put_the_element_at_an_end_witness :
  option_map fst (node_iter 4 (append (Some 3) (Enumerable_init [Some 1; Some 2])))
  = Some ([Some 1; Some 2] ++ [Some 3]) /\
  option_map fst (node_iter 4 (prepend (Some 3) (Enumerable_init [Some 1; Some 2])))
  = Some [Some 3; Some 1; Some 2] /\
  add None (Enumerable_init [Some 1; Some 2]) = Self /\
  add (Some 3) (Enumerable_init [Some 1; Some 2])
  = New (append (Some 3) (Enumerable_init [Some 1; Some 2])) /\
  option_map fst (last 4 (append (Some 3) (Enumerable_init [Some 1; Some 2])))
  = Some (Return (Some 3)) /\
  option_map fst (first 4 (prepend (Some 3) (Enumerable_init [Some 1; Some 2])))
  = Some (Return (Some 3)).
Proof.
  apply (append_and_prepend_put_the_element_at_an_end (Some 3) 3 [Some 1; Some 2]).
  simpl; lia.
Defined.

Lemma last_is_the_first_of_the_reversed_node_witness :
  (exists s,
     last 4 (Enumerable_init [Some 1; Some 2; Some 3])
     = Some (Return (Some 3), s) /\
     last_or_default 4 (Enumerable_init [Some 1; Some 2; Some 3])
     = Some (Return (Some 3), s) /\
     list_at_start [Some 1; Some 2; Some 3] s) /\
  (exists s,
     last_where 4 (fun x => match x with Some n => n <? 3 | None => false end)
       (Enumerable_init [Some 1; Some 2; Some 3])
     = Some (Return (Some 2), s) /\
     last_or_default_where 4 (fun x => match x with Some n => n <? 3 | None => false end)
       (Enumerable_init [Some 1; Some 2; Some 3])
     = Some (Return (Some 2), s) /\
     list_at_start [Some 1; Some 2; Some 3] s).
Proof.
  apply (last_is_the_first_of_the_reversed_node
           (fun x => match x with Some n => n <? 3 | None => false end)
           [Some 1; Some 2; Some 3]).
  simpl; lia.
Defined.

(** ** [zip] *)

Lemma nth_error_zip (A B C : Type) (func : elem A * elem B -> elem C)
  (xs : list (elem A)) :
  forall (ys : list (elem B)) (i : nat),
    i < Nat.min (length xs) (length ys) ->
    nth_error (map func (combine xs ys)) i = Some (func (nth i xs None, nth i ys None)).
Proof.
  induction xs as [|x xs IH]; intros ys i Hi; [simpl in Hi; lia|].
  destruct ys as [|y ys]; [simpl in Hi; lia|].
  destruct i as [|i]; [reflexivity|].
  simpl. apply IH. simpl in Hi. lia.
Qed.

Section ZipFacts.

Variables A B C : Type.
Context {N1 : Type} `{Node A N1} {N2 : Type} `{Node B N2}.

Variable Inv1 : N1 -> Prop.
Variable xs : list (elem A).
Variable F1 : nat.
Variable Inv2 : N2 -> Prop.
Variable ys : list (elem B).
Variable F2 : nat.
Variable func : elem A * elem B -> elem C.

(** The two nodes that are zipped: [len] of each is the number of
    elements it yields. *)
Hypothesis Hsteady1 : steady Inv1 (length xs) xs F1.
Hypothesis Hsteady2 : steady Inv2 (length ys) ys F2.

#[local] Arguments skipn : simpl never.

Lemma zip_len_steady (fuel : nat) (s : ZipEnumerable A B C) :
  zip_at_start Inv1 Inv2 func s ->
  Nat.max F1 F2 <= fuel ->
  exists s',
    zip_len fuel s = Some (Nat.min (length xs) (length ys), s') /\
    zip_at_start Inv1 Inv2 func s'.
Proof.
  intros (H1 & H2 & Hf) Hfuel.
  destruct (steady_len Hsteady1 _ H1 (fuel := fuel)) as (d & Hl1 & Hd); [lia|].
  destruct (steady_len Hsteady2 _ H2 (fuel := fuel)) as (e & Hl2 & He); [lia|].
  exists (mkZip d e (zip_result_func s)). unfold zip_len. rewrite Hl1, Hl2.
  split; [reflexivity|]. repeat split; assumption.
Qed.

Lemma zip_iter_from (k : nat) :
  forall (i fuel : nat) (s : ZipEnumerable A B C),
    zip_at_start Inv1 Inv2 func s ->
    i + k = Nat.min (length xs) (length ys) ->
    Nat.max F1 F2 + k < fuel ->
    exists s',
      zip_iter fuel i s = Some (skipn i (map func (combine xs ys)), s') /\
      zip_at_start Inv1 Inv2 func s'.
Proof.
  assert (He1 : length xs = 0 -> xs = []) by (destruct xs; [auto | discriminate]).
  assert (He2 : length ys = 0 -> ys = []) by (destruct ys; [auto | discriminate]).
  induction k as [|k IH]; intros i fuel s Hs Hi Hf;
    (destruct fuel as [|f]; [lia|]).
  - destruct (@zip_len_steady f s Hs) as (s1 & Hl & Hs1); [lia|].
    cbn [zip_iter]; unfold bind at 1; rewrite Hl.
    destruct (Nat.ltb_spec i (Nat.min (length xs) (length ys))); [lia|].
    exists s1. rewrite skipn_all2 by (rewrite length_map, length_combine; lia). auto.
  - destruct (@zip_len_steady f s Hs) as (s1 & Hl & (H1 & H2 & Hfn)); [lia|].
    cbn [zip_iter]; unfold bind at 1; rewrite Hl.
    destruct (Nat.ltb_spec i (Nat.min (length xs) (length ys))) as [Hlt|Hge]; [|lia].
    destruct (getitem_steady Hsteady1 He1 i _ H1 (fuel := f)) as (d & Hg1 & Hd); [lia|].
    destruct (getitem_steady Hsteady2 He2 i _ H2 (fuel := f)) as (e & Hg2 & He); [lia|].
    rewrite Hg1, Hg2.
    destruct (IH (Datatypes.S i) f (mkZip d e (zip_result_func s1))) as (s2 & Hrec & Hs2);
      try lia; [repeat split; assumption|].
    unfold bind, ret. rewrite Hrec. exists s2. split; [|assumption].
    rewrite Hfn.
    now rewrite (skipn_cons_nth (map func (combine xs ys)) i (nth_error_zip func xs ys Hlt)).
Qed.

(** A node that zips two steady nodes is steady: it yields the images of
    the pairs of elements of equal index, as many as the shorter node
    has, and [len] of it is their number. *)
Lemma zip_steady :
  steady (zip_at_start Inv1 Inv2 func)
         (length (map func (combine xs ys))) (map func (combine xs ys))
         (Nat.max F1 F2 + Nat.min (length xs) (length ys) + 1).
Proof.
  intros fuel s Hs Hf. rewrite length_map, length_combine. split.
  - apply zip_len_steady; [assumption | lia].
  - cbn [node_iter ZipEnumerable_Node].
    destruct (@zip_iter_from (Nat.min (length xs) (length ys)) 0 fuel s Hs)
      as (s' & Hi & Hs'); try lia.
    exists s'. unfold skipn in Hi. auto.
Qed.

End ZipFacts.

(** X14.  [zip] of two nodes built over lists yields
    [func((x, y))] for the pairs of elements of equal index, as many as the
    shorter list has, at each of any number of traversals run to their end
    one after the other; [len] of the node is the length of the shorter
    list. *)
Theorem zip_pairs_the_elements_of_equal_index
  (A B C : Type) (fuel k : nat) (func : elem A * elem B -> elem C)
  (xs : list (elem A)) (ys : list (elem B)) :
  Nat.min (length xs) (length ys) < fuel ->
  exists s s',
    successive k (node_iter fuel) (zip (Enumerable_init ys) func (Enumerable_init xs))
    = Some (repeat (map func (combine xs ys)) k, s) /\
    node_len fuel s = Some (Nat.min (length xs) (length ys), s').
Proof.
  intros Hf.
  pose proof (zip_steady (func := func) (@list_node_steady A xs) (@list_node_steady B ys))
    as Hst.
  assert (Hi : zip_at_start (list_at_start xs) (list_at_start ys) func
                 (zip (Enumerable_init ys) func (Enumerable_init xs))).
  { split; [apply Enumerable_init_list_at_start|].
    split; [apply Enumerable_init_list_at_start | reflexivity]. }
  destruct (successive_steady Hst k _ Hi (fuel := fuel)) as (s & Hk & Hs);
    [simpl; lia|].
  destruct (steady_len Hst _ Hs (fuel := fuel)) as (s' & Hl & _); [simpl; lia|].
  rewrite length_map, length_combine in Hl.
  exists s, s'. auto.
Qed.

Lemma zip_pairs_the_elements_of_equal_index_witness :
  exists s s',
    successive 2 (node_iter 3)
      (zip (Enumerable_init [Some true; Some false])
           (fun p : elem nat * elem bool =>
              match p with
              | (Some n, Some b) => Some (n, b)
              | _ => None
              end)
           (Enumerable_init [Some 1; Some 2; Some 3]))
    = Some (repeat [Some (1, true); Some (2, false)] 2, s) /\
    node_len 3 s = Some (2, s').
Proof.
  apply (zip_pairs_the_elements_of_equal_index 2
           (fun p : elem nat * elem bool =>
              match p with
              | (Some n, Some b) => Some (n, b)
              | _ => None
              end)
           [Some 1; Some 2; Some 3] [Some true; Some false]).
  simpl; lia.
Defined.

(** ** [distinct] *)

Section DistinctFacts.

Variable A : Type.
Variable key : elem A -> Z.

(** The dictionary of a distinct node holds, at each key met, the first
    element with that key. *)
Lemma distinct_fold_keeps (xs : list (elem A)) :
  forall (ps : list (elem A)) (u : dict (elem A)),
    NoDup (map fst u) ->
    (forall h v, In (h, v) u -> find (fun x => (key x =? h)%Z) ps = Some v) ->
    (forall x, In x ps -> In (key x) (map fst u)) ->
    NoDup (map fst (fold_left (distinct_step key) xs u)) /\
    (forall h v, In (h, v) (fold_left (distinct_step key) xs u) ->
       find (fun x => (key x =? h)%Z) (ps ++ xs) = Some v) /\
    (forall x, In x (ps ++ xs) ->
       In (key x) (map fst (fold_left (distinct_step key) xs u))).
Proof.
  induction xs as [|d xs IH]; intros ps u Hnd Hfirst Hkeys; cbn [fold_left].
  - rewrite app_nil_r. auto.
  - replace (ps ++ d :: xs) with ((ps ++ [d]) ++ xs) by (rewrite <- app_assoc; reflexivity).
    apply IH; unfold distinct_step.
    + destruct (dict_get u (key d)) eqn:Hget; [assumption|].
      rewrite map_app. cbn [map fst].
      apply NoDup_app; [assumption | repeat constructor; intros [] |].
      intros k Hk [<-|[]]. revert Hk. now apply dict_get_None.
    + intros h v Hin. rewrite find_in_app.
      destruct (dict_get u (key d)) eqn:Hget.
      * now rewrite (Hfirst _ _ Hin).
      * apply in_app_or in Hin. destruct Hin as [Hin|[E|[]]].
        -- now rewrite (Hfirst _ _ Hin).
        -- inversion E; subst h v.
           destruct (find _ ps) as [v|] eqn:Hf.
           ++ apply find_some in Hf. destruct Hf as [Hv Hh].
              apply Z.eqb_eq in Hh. exfalso.
              apply dict_get_None in Hget. apply Hget.
              rewrite <- Hh. now apply Hkeys.
           ++ cbn [find]. now rewrite Z.eqb_refl.
    + intros x Hx. apply in_app_or in Hx.
      destruct (dict_get u (key d)) eqn:Hget.
      * destruct Hx as [Hx|[<-|[]]]; [now apply Hkeys|].
        apply dict_get_In in Hget. apply (in_map fst) in Hget. exact Hget.
      * rewrite map_app. apply in_or_app.
        destruct Hx as [Hx|[<-|[]]]; [left; now apply Hkeys | right; now left].
Qed.

Lemma distinct_fold_spec (xs : list (elem A)) :
  NoDup (map fst (fold_left (distinct_step key) xs [])) /\
  (forall h v, In (h, v) (fold_left (distinct_step key) xs []) ->
     find (fun x => (key x =? h)%Z) xs = Some v) /\
  (forall x, In x xs -> In (key x) (map fst (fold_left (distinct_step key) xs []))).
Proof.
  apply (@distinct_fold_keeps xs [] []);
    [constructor | intros h v [] | intros x []].
Qed.

(** A second traversal adds nothing to the dictionary. *)
Lemma distinct_fold_again (xs : list (elem A)) :
  forall u : dict (elem A),
    (forall x, In x xs -> In (key x) (map fst u)) ->
    fold_left (distinct_step key) xs u = u.
Proof.
  induction xs as [|d xs IH]; intros u Hkeys; [reflexivity|].
  cbn [fold_left]. unfold distinct_step at 2.
  destruct (dict_get u (key d)) eqn:Hget.
  - apply IH. intros x Hx. apply Hkeys. now right.
  - exfalso. apply dict_get_None in Hget. apply Hget. apply Hkeys. now left.
Qed.

(** On keys that are all different nothing is dropped. *)
Lemma distinct_fold_nodup (xs : list (elem A)) :
  forall u : dict (elem A),
    NoDup (map fst u ++ map key xs) ->
    fold_left (distinct_step key) xs u = u ++ map (fun x => (key x, x)) xs.
Proof.
  induction xs as [|d xs IH]; intros u Hnd; cbn [fold_left map].
  - now rewrite app_nil_r.
  - unfold distinct_step at 2.
    destruct (dict_get u (key d)) eqn:Hget.
    + exfalso. apply dict_get_In in Hget. apply (in_map fst) in Hget. cbn [fst] in Hget.
      cbn [map] in Hnd. apply NoDup_remove_2 in Hnd. apply Hnd.
      apply in_or_app. now left.
    + rewrite IH.
      * rewrite <- app_assoc. reflexivity.
      * rewrite map_app. cbn [map fst]. rewrite <- app_assoc. exact Hnd.
Qed.

Lemma distinct_of_keys (xs : list (elem A)) :
  map key (distinct_of key xs) = map fst (fold_left (distinct_step key) xs []).
Proof.
  destruct (distinct_fold_spec xs) as (_ & Hfirst & _).
  unfold distinct_of. rewrite map_map. apply map_ext_in.
  intros [h v] Hin. cbn [fst snd].
  apply Hfirst in Hin. apply find_some in Hin. destruct Hin as [_ Hh].
  now apply Z.eqb_eq in Hh.
Qed.

Lemma distinct_of_first (xs : list (elem A)) (y : elem A) :
  In y (distinct_of key xs) <-> find (fun x => (key x =? key y)%Z) xs = Some y.
Proof.
  destruct (distinct_fold_spec xs) as (Hnd & Hfirst & Hkeys).
  unfold distinct_of. split.
  - intros Hin. apply in_map_iff in Hin. destruct Hin as ([h v] & E & Hin).
    cbn [snd] in E. subst v.
    pose proof (Hfirst _ _ Hin) as Hf.
    pose proof (find_some _ _ Hf) as [_ Hh]. apply Z.eqb_eq in Hh. now rewrite Hh.
  - intros Hf. pose proof (find_some _ _ Hf) as [Hy _].
    pose proof (Hkeys _ Hy) as Hk. apply in_map_iff in Hk.
    destruct Hk as ([h v] & E & Hin). cbn [fst] in E. subst h.
    pose proof (Hfirst _ _ Hin) as Hf'. rewrite Hf in Hf'. inversion Hf'; subst v.
    apply in_map_iff. exists (key y, y). auto.
Qed.

Section AnyUpstream.

Context {N : Type} `{Node A N}.

Variable Inv : N -> Prop.
Variable l : nat.
Variable xs : list (elem A).
Variable F : nat.

Hypothesis Hsteady : steady Inv l xs F.

(** A distinct node over a steady node is steady: it yields the first
    element of each key, and [len] of it is the number of elements that
    the upstream node yields. *)
Lemma distinct_steady :
  steady (distinct_at_start Inv key xs) (length xs) (distinct_of key xs) F.
Proof.
  intros fuel [d k0 set] (Hd & Hk & Hset) Hf.
  cbn [distinct_data distinct_key distinct_set] in *. subst k0.
  destruct (steady_iter Hsteady _ Hd Hf) as (d' & Hi & Hd').
  split.
  - exists (mkDistinct d' key set). cbn [node_len DistinctEnumerable_Node].
    unfold on_attr, upstream_len, bind, ret. cbn [distinct_data distinct_key distinct_set].
    rewrite Hi. split; [reflexivity|]. repeat split; assumption.
  - exists (mkDistinct d' key (fold_left (distinct_step key) xs [])).
    cbn [node_iter DistinctEnumerable_Node distinct_data distinct_key distinct_set].
    rewrite Hi.
    assert (E : fold_left (distinct_step key) xs set = fold_left (distinct_step key) xs []).
    { destruct Hset as [->| ->]; [reflexivity|].
      apply distinct_fold_again. apply distinct_fold_spec. }
    rewrite E. split; [reflexivity|].
    split; [assumption | split; [reflexivity | now right]].
Qed.

End AnyUpstream.

(** X15.  [distinct(key)] on a node built over a list yields, at each
    of any number of traversals run to their end one after the other, the
    elements of the list that are the first with their key: no two of
    them have the same key, and a list whose keys are all different is
    yielded as it is.  [len] of the node is the length of the list, with
    the elements that are dropped. *)
Theorem distinct_keeps_the_first_of_each_key
  (fuel k : nat) (data : list (elem A)) :
  exists s s',
    successive k (node_iter fuel) (distinct key (Enumerable_init data))
    = Some (repeat (distinct_of key data) k, s) /\
    node_len fuel s = Some (length data, s') /\
    NoDup (map key (distinct_of key data)) /\
    (forall y, In y (distinct_of key data)
               <-> find (fun x => (key x =? key y)%Z) data = Some y) /\
    (NoDup (map key data) -> distinct_of key data = data).
Proof.
  pose proof (distinct_steady (@list_node_steady A data)) as Hst.
  assert (Hi : distinct_at_start (list_at_start data) key data
                 (distinct key (Enumerable_init data))).
  { split; [apply Enumerable_init_list_at_start | split; [reflexivity | now left]]. }
  destruct (successive_steady Hst k _ Hi (Nat.le_0_l fuel)) as (s & Hk & Hs).
  destruct (steady_len Hst _ Hs (Nat.le_0_l fuel)) as (s' & Hl & _).
  exists s, s'. split; [assumption | split; [assumption|]].
  split; [|split].
  - rewrite distinct_of_keys. apply distinct_fold_spec.
  - apply distinct_of_first.
  - intros Hnd. unfold distinct_of.
    rewrite distinct_fold_nodup by exact Hnd.
    cbn [app]. rewrite map_map. cbn [snd]. apply map_id.
Qed.

End DistinctFacts.

(** ** Traversals that are abandoned: [all], [intersect] and [except_] *)

Section CursorFacts.

Variable A : Type.

#[local] Arguments skipn : simpl never.
#[local] Arguments firstn : simpl never.

Lemma at_start_somewhere (data : list (elem A)) (self : Enumerable A) :
  list_at_start data self -> somewhere data self.
Proof.
  intros [Hd [E|Hc]]; split; auto.
  - left. congruence.
  - right. exists 0. now rewrite <- Hd.
Qed.

(** A generator resumed [k] times from a cursor at [p], with [k]
    elements left before the end of the list. *)
Lemma drain_segment (k : nat) :
  forall (i p : nat) (self : Enumerable A),
    cursor_at (_data self) (_cycle self) p ->
    i + k <= len self ->
    p + k <= len self ->
    exists self',
      drain k i self = (firstn k (skipn p (_data self)), self') /\
      _data self' = _data self /\
      cursor_at (_data self') (_cycle self') (if len self <=? p + k then 0 else p + k).
Proof.
  induction k as [|k IH]; intros i p self Hc Hi Hp.
  - exists self; simpl; repeat split; auto.
    assert (p < len self) by (apply (cursor_at_lt Hc)).
    rewrite Nat.add_0_r.
    destruct (Nat.leb_spec (len self) p); [lia | assumption].
  - assert (Hlt : p < length (_data self)) by (unfold len in *; lia).
    destruct (nth_error (_data self) p) as [x|] eqn:Hx;
      [| apply nth_error_None in Hx; lia].
    destruct (iter_next_cursor self (i := i) (p := p)) with (x := x)
      as (s1 & Hn & Hd & Hc1); auto; [lia|].
    cbn [drain]. rewrite Hn.
    assert (Hlen : len s1 = len self) by (unfold len; now rewrite Hd).
    destruct (Nat.leb_spec (len self) (S p)) as [Hle|Hgt].
    + assert (k = 0) as -> by lia. cbn [drain].
      exists s1. rewrite (skipn_cons_nth _ _ Hx).
      split; [reflexivity | split; [assumption|]].
      destruct (Nat.leb_spec (len self) (p + 1)); [assumption | lia].
    + destruct (IH (S i) (S p) s1 Hc1) as (s2 & Hs2 & Hd2 & Hc2); try lia.
      rewrite Hs2. exists s2. rewrite (skipn_cons_nth _ _ Hx), Hd.
      split; [reflexivity | split; [congruence|]].
      rewrite Hlen in Hc2. replace (p + S k) with (S p + k) by lia. assumption.
Qed.

(** A generator that yields at each of its [k1] first resumptions goes
    on as a generator resumed from there. *)
Lemma drain_app (k1 k2 : nat) :
  forall (i : nat) (self s1 : Enumerable A) (a : list (elem A)),
    drain k1 i self = (a, s1) ->
    length a = k1 ->
    drain (k1 + k2) i self
    = (a ++ fst (drain k2 (i + k1) s1), snd (drain k2 (i + k1) s1)).
Proof.
  induction k1 as [|k1 IH]; intros i self s1 a Hd Ha.
  - cbn [drain] in Hd. inversion Hd; subst. rewrite Nat.add_0_r. cbn [Nat.add app].
    now destruct (drain k2 i s1).
  - cbn [Nat.add drain] in *.
    destruct (iter_next i self) as [[[x|] i'] s'] eqn:Hn.
    + assert (Ei : i' = S i).
      { unfold iter_next in Hn. destruct (i <? len self); [|discriminate].
        destruct (next_cycle self) as [[y|] s0]; inversion Hn; reflexivity. }
      subst i'.
      destruct (drain k1 (S i) s') as [xs0 s0] eqn:Hd0.
      inversion Hd; subst a s1. cbn [length] in Ha.
      rewrite (IH (S i) s' s0 xs0 Hd0) by lia.
      replace (i + S k1) with (S i + k1) by lia. reflexivity.
    + inversion Hd; subst a. discriminate.
Qed.

(** A traversal run to its end from a cursor at [p] yields the list
    from [p] on and then the list up to [p], and leaves the cursor at
    [p]. *)
Lemma to_list_rotated (self : Enumerable A) (p : nat) :
  cursor_at (_data self) (_cycle self) p ->
  exists self',
    to_list self = (skipn p (_data self) ++ firstn p (_data self), self') /\
    _data self' = _data self /\
    cursor_at (_data self') (_cycle self') p.
Proof.
  intros Hc. pose proof (cursor_at_lt Hc) as Hlt.
  destruct (@drain_segment (len self - p) 0 p self Hc) as (s1 & H1 & Hd1 & Hc1);
    try (unfold len; lia).
  replace (p + (len self - p)) with (len self) in Hc1 by (unfold len; lia).
  rewrite Nat.leb_refl in Hc1.
  destruct (@drain_segment p (len self - p) 0 s1 Hc1) as (s2 & H2 & Hd2 & Hc2);
    try (unfold len in *; rewrite ?Hd1; lia).
  exists s2. unfold to_list.
  replace (len self) with ((len self - p) + p) at 1 by (unfold len; lia).
  rewrite (@drain_app (len self - p) p 0 self s1 _ H1)
    by (rewrite length_firstn, length_skipn; unfold len; lia).
  cbn [Nat.add]. rewrite H2. cbn [fst snd].
  rewrite firstn_all2 by (rewrite length_skipn; unfold len; lia).
  unfold skipn at 2. rewrite Hd1.
  split; [reflexivity | split; [congruence|]].
  cbn [Nat.add] in Hc2.
  assert (Hlen : len s1 = len self) by (unfold len; now rewrite Hd1).
  rewrite Hlen in Hc2. destruct (Nat.leb_spec (len self) p); [unfold len in *; lia|].
  assumption.
Qed.

(** [any] goes past the elements on which the predicate fails. *)
Lemma any_loop_none (pred : elem A -> bool) (k : nat) :
  forall (f i p : nat) (self : Enumerable A),
    cursor_at (_data self) (_cycle self) p ->
    i + k <= len self ->
    p + k <= len self ->
    existsb pred (firstn k (skipn p (_data self))) = false ->
    exists self',
      any_loop (k + f) pred i self = any_loop f pred (i + k) self' /\
      _data self' = _data self /\
      cursor_at (_data self') (_cycle self') (if len self <=? p + k then 0 else p + k).
Proof.
  induction k as [|k IH]; intros f i p self Hc Hi Hp He.
  - exists self. rewrite !Nat.add_0_r. cbn [Nat.add].
    assert (p < len self) by (apply (cursor_at_lt Hc)).
    destruct (Nat.leb_spec (len self) p); [lia|]. auto.
  - assert (Hlt : p < length (_data self)) by (unfold len in *; lia).
    destruct (nth_error (_data self) p) as [x|] eqn:Hx;
      [| apply nth_error_None in Hx; lia].
    destruct (iter_next_cursor self (i := i) (p := p)) with (x := x)
      as (s1 & Hn & Hd & Hc1); auto; [lia|].
    rewrite (skipn_cons_nth _ _ Hx), firstn_cons in He. cbn [existsb] in He.
    apply orb_false_iff in He. destruct He as [Hpx He].
    cbn [Nat.add any_loop]. rewrite Hn, Hpx.
    assert (Hlen : len s1 = len self) by (unfold len; now rewrite Hd).
    destruct (Nat.leb_spec (len self) (S p)) as [Hle|Hgt].
    + assert (k = 0) as -> by lia. cbn [Nat.add].
      exists s1. replace (i + 1) with (S i) by lia.
      split; [reflexivity | split; [assumption|]].
      destruct (Nat.leb_spec (len self) (p + 1)); [assumption | lia].
    + rewrite <- Hd in He.
      destruct (IH f (S i) (S p) s1 Hc1) as (s2 & Hs2 & Hd2 & Hc2); try lia; auto.
      exists s2. rewrite Hs2. replace (S i + k) with (i + S k) by lia.
      split; [reflexivity | split; [congruence|]].
      rewrite Hlen in Hc2. replace (p + S k) with (S p + k) by lia. assumption.
Qed.

(** [any] stops at the first element on which the predicate holds. *)
Lemma any_loop_found (pred : elem A -> bool) (k : nat) :
  forall (f i p : nat) (self : Enumerable A),
    cursor_at (_data self) (_cycle self) p ->
    i + k <= len self ->
    p + k <= len self ->
    existsb pred (firstn k (skipn p (_data self))) = true ->
    exists self' p',
      any_loop (k + f) pred i self = (true, self') /\
      _data self' = _data self /\
      cursor_at (_data self') (_cycle self') p'.
Proof.
  induction k as [|k IH]; intros f i p self Hc Hi Hp He.
  - rewrite firstn_0 in He. discriminate.
  - assert (Hlt : p < length (_data self)) by (unfold len in *; lia).
    destruct (nth_error (_data self) p) as [x|] eqn:Hx;
      [| apply nth_error_None in Hx; lia].
    destruct (iter_next_cursor self (i := i) (p := p)) with (x := x)
      as (s1 & Hn & Hd & Hc1); auto; [lia|].
    rewrite (skipn_cons_nth _ _ Hx), firstn_cons in He. cbn [existsb] in He.
    cbn [Nat.add any_loop]. rewrite Hn.
    destruct (pred x) eqn:Hpx.
    + exists s1. eexists. split; [reflexivity | split; [assumption | eassumption]].
    + cbn [orb] in He.
      assert (Hlen : len s1 = len self) by (unfold len; now rewrite Hd).
      destruct (Nat.leb_spec (len self) (S p)) as [Hle|Hgt].
      * assert (k = 0) as -> by lia. rewrite firstn_0 in He. discriminate.
      * rewrite <- Hd in He.
        destruct (IH f (S i) (S p) s1 Hc1) as (s2 & p' & Hs2 & Hd2 & Hc2); try lia; auto.
        exists s2, p'. split; [assumption | split; [congruence | assumption]].
Qed.

(** Wherever the cycle of the node stands, the builtin [any] over a new
    generator of it tells whether the predicate holds on some element of
    the list, and leaves the cycle somewhere. *)
Lemma builtin_any_somewhere (pred : elem A -> bool) (ys : list (elem A))
  (self : Enumerable A) :
  somewhere ys self ->
  exists self', builtin_any pred self = (existsb pred ys, self') /\ somewhere ys self'.
Proof.
  intros [Hd [E|[p Hc]]].
  - exists self. unfold builtin_any, len. rewrite Hd, E. cbn [length any_loop].
    unfold iter_next, len. rewrite Hd, E. cbn [length Nat.ltb Nat.leb existsb].
    split; [reflexivity|]. split; [congruence | now left].
  - rewrite <- Hd in Hc. pose proof (cursor_at_lt Hc) as Hlt.
    assert (Hsplit : existsb pred ys
                     = existsb pred (skipn p ys) || existsb pred (firstn p ys)).
    { rewrite <- (firstn_skipn p ys) at 1. rewrite existsb_app. apply orb_comm. }
    unfold builtin_any.
    replace (S (len self)) with ((len self - p) + (p + 1)) by (unfold len; lia).
    destruct (existsb pred (skipn p ys)) eqn:E1.
    + destruct (@any_loop_found pred (len self - p) (p + 1) 0 p self Hc)
        as (s1 & p1 & H1 & Hd1 & Hc1); try (unfold len; lia).
      { rewrite firstn_all2 by (rewrite length_skipn; unfold len; lia). now rewrite Hd. }
      exists s1. rewrite H1, Hsplit. split; [reflexivity|].
      split; [congruence | right]. exists p1. rewrite Hd1, Hd in Hc1. assumption.
    + destruct (@any_loop_none pred (len self - p) (p + 1) 0 p self Hc)
        as (s1 & H1 & Hd1 & Hc1); try (unfold len; lia).
      { rewrite firstn_all2 by (rewrite length_skipn; unfold len; lia). now rewrite Hd. }
      rewrite H1. cbn [Nat.add].
      replace (p + (len self - p)) with (len self) in Hc1 by (unfold len; lia).
      rewrite Nat.leb_refl in Hc1.
      assert (Hlen : len s1 = len self) by (unfold len; now rewrite Hd1).
      destruct (existsb pred (firstn p ys)) eqn:E2.
      * destruct (@any_loop_found pred p 1 (len self - p) 0 s1 Hc1)
          as (s2 & p2 & H2 & Hd2 & Hc2); try (rewrite Hlen; unfold len; lia).
        { unfold skipn. now rewrite Hd1, Hd. }
        exists s2. rewrite H2, Hsplit. split; [reflexivity|].
        split; [congruence | right]. exists p2. rewrite Hd2, Hd1, Hd in Hc2. assumption.
      * destruct (@any_loop_none pred p 1 (len self - p) 0 s1 Hc1)
          as (s2 & H2 & Hd2 & Hc2); try (rewrite Hlen; unfold len; lia).
        { unfold skipn. now rewrite Hd1, Hd. }
        rewrite H2. cbn [any_loop].
        assert (Hlen2 : len s2 = len self) by (unfold len; rewrite Hd2; now rewrite Hd1).
        rewrite iter_next_end by (rewrite Hlen2; unfold len; lia).
        exists s2. rewrite Hsplit. split; [reflexivity|].
        split; [congruence | right]. eexists. rewrite Hd2, Hd1, Hd in Hc2. eassumption.
Qed.

End CursorFacts.

Section IntersectFacts.

Variable A : Type.
Context {K : Type} `{KeyEq K}.
Variable key : elem A -> K.

#[local] Arguments skipn : simpl never.
#[local] Arguments firstn : simpl never.

Lemma intersect_loop_at (keep : bool) (xs ys : list (elem A)) (k : nat) :
  forall (j : nat) (d e : Enumerable A),
    _data d = xs ->
    (j < length xs -> cursor_at xs (_cycle d) j) ->
    (j = length xs -> at_start d) ->
    somewhere ys e ->
    j + k = length xs ->
    exists s,
      intersect_loop keep k j (mkIntersect d e key)
      = (filter (fun i => Bool.eqb (key_in key ys i) keep) (skipn j xs), s) /\
      intersect_at_start xs ys key s.
Proof.
  induction k as [|k IH]; intros j d e Hd Hc Hend He Hj.
  - exists (mkIntersect d e key). cbn [intersect_loop].
    rewrite skipn_all2 by lia. split; [reflexivity|].
    split; [split; [assumption | apply Hend; lia] | split; [assumption | reflexivity]].
  - assert (Hlt : j < length xs) by lia.
    destruct (nth_error xs j) as [x|] eqn:Hx; [| apply nth_error_None in Hx; lia].
    pose proof (Hc Hlt) as Hcur. rewrite <- Hd in Hcur, Hx.
    destruct (iter_next_cursor d (i := j) (p := j)) with (x := x)
      as (d' & Hn & Hd' & Hc'); auto; [unfold len; rewrite Hd; lia|].
    cbn [intersect_loop intersect_data intersect_enumerable intersect_key].
    rewrite Hn.
    destruct (builtin_any_somewhere (fun i2 => key_eqb (key i2) (key x)) He)
      as (e' & Ha & He').
    rewrite Ha.
    unfold len in Hc'. rewrite Hd', Hd in Hc'. rewrite Hd in Hx.
    destruct (IH (S j) d' e') as (s & Hl & Hs); try lia; auto; try congruence.
    + intros Hlt'. destruct (Nat.leb_spec (length xs) (S j)); [lia | assumption].
    + intros E. destruct (Nat.leb_spec (length xs) (S j)); [|lia].
      apply (@cursor_at_start A xs); [congruence | assumption].
    + rewrite Hl. exists s. split; [|assumption].
      rewrite (skipn_cons_nth _ _ Hx). cbn [filter].
      change (existsb (fun i2 => key_eqb (key i2) (key x)) ys) with (key_in key ys x).
      destruct (Bool.eqb (key_in key ys x) keep); reflexivity.
Qed.

Lemma intersect_iter_at_start (keep : bool) (xs ys : list (elem A))
  (s : @IntersectEnumerable A K) :
  intersect_at_start xs ys key s ->
  exists s',
    intersect_loop keep (len (intersect_data s)) 0 s
    = (filter (fun i => Bool.eqb (key_in key ys i) keep) xs, s') /\
    intersect_at_start xs ys key s'.
Proof.
  destruct s as [d e k0]. intros ([Hd Hs] & He & Hk).
  cbn [intersect_data intersect_enumerable intersect_key] in *. subst k0.
  unfold len. rewrite Hd.
  destruct (@intersect_loop_at keep xs ys (length xs) 0 d e Hd) as (s' & Hl & Hs');
    auto.
  - intros Hlt. rewrite <- Hd. apply at_start_cursor; [assumption|].
    intros E. rewrite Hd in E. rewrite E in Hlt. simpl in Hlt. lia.
  - exists s'. auto.
Qed.

Lemma intersect_len_at_start (xs ys : list (elem A)) (s : @IntersectEnumerable A K) :
  intersect_at_start xs ys key s ->
  exists s', intersect_len s = (length xs, s') /\ intersect_at_start xs ys key s'.
Proof.
  destruct s as [d e k0]. intros ([Hd Hs] & He & Hk).
  cbn [intersect_data intersect_enumerable intersect_key] in *.
  destruct (to_list_at_start Hs) as (d' & Hl & Hd' & Hs').
  exists (mkIntersect d' e k0). unfold intersect_len.
  cbn [intersect_data intersect_enumerable intersect_key]. rewrite Hl, Hd.
  split; [reflexivity|].
  split; [split; [cbn [intersect_data]; congruence | assumption] | split; assumption].
Qed.

(** Both nodes are steady: they yield the elements of the first list
    whose key is, or is not, the key of some element of the second list;
    [len] of them is the length of the first list. *)
Lemma intersect_steady (xs ys : list (elem A)) :
  steady (intersect_at_start xs ys key) (length xs) (filter (key_in key ys) xs) 0.
Proof.
  intros fuel s Hs _. split.
  - destruct (intersect_len_at_start Hs) as (s' & Hl & Hs').
    exists s'. cbn [node_len IntersectEnumerable_Node]. rewrite Hl. auto.
  - destruct (intersect_iter_at_start true Hs) as (s' & Hl & Hs').
    exists s'. cbn [node_iter IntersectEnumerable_Node]. unfold intersect_to_list.
    rewrite Hl. split; [|assumption]. do 2 f_equal.
    apply filter_ext. intros i. now destruct (key_in key ys i).
Qed.

Lemma except_steady (xs ys : list (elem A)) :
  steady (fun s => intersect_at_start xs ys key (except_base s)) (length xs)
         (filter (fun i => negb (key_in key ys i)) xs) 0.
Proof.
  intros fuel [s] Hs _. cbn [except_base] in Hs. split.
  - destruct (intersect_len_at_start Hs) as (s' & Hl & Hs').
    exists (mkExcept s'). cbn [node_len ExceptEnumerable_Node except_base]. rewrite Hl. auto.
  - destruct (intersect_iter_at_start false Hs) as (s' & Hl & Hs').
    exists (mkExcept s'). cbn [node_iter ExceptEnumerable_Node]. unfold except_to_list.
    cbn [except_base]. rewrite Hl. split; [|assumption]. do 2 f_equal.
Qed.

(** X16.  For two nodes built over lists, which are two different
    objects, [intersect] yields the elements of the receiver whose key is
    equal to the key of some element of the argument, and [except_]
    yields the others, in the order of the receiver and with their
    repetitions, at each of any number of traversals run to their end one
    after the other.  [len] of both nodes is the length of the receiver. *)
Theorem intersect_and_except_split_the_receiver
  (fuel k : nat) (xs ys : list (elem A)) :
  (exists s s',
     successive k (node_iter fuel)
       (intersect (Enumerable_init ys) key (Enumerable_init xs))
     = Some (repeat (filter (key_in key ys) xs) k, s) /\
     node_len fuel s = Some (length xs, s')) /\
  (exists s s',
     successive k (node_iter fuel)
       (except_ (Enumerable_init ys) key (Enumerable_init xs))
     = Some (repeat (filter (fun i => negb (key_in key ys i)) xs) k, s) /\
     node_len fuel s = Some (length xs, s')).
Proof.
  assert (Hi : intersect_at_start xs ys key
                 (intersect (Enumerable_init ys) key (Enumerable_init xs))).
  { split; [apply Enumerable_init_list_at_start|].
    split; [apply at_start_somewhere, Enumerable_init_list_at_start | reflexivity]. }
  split.
  - destruct (successive_steady (@intersect_steady xs ys) k _ Hi (Nat.le_0_l fuel))
      as (s & Hk & Hs).
    destruct (steady_len (@intersect_steady xs ys) _ Hs (Nat.le_0_l fuel))
      as (s' & Hl & _).
    exists s, s'. auto.
  - destruct (successive_steady (@except_steady xs ys) k
                (except_ (Enumerable_init ys) key (Enumerable_init xs)) Hi
                (Nat.le_0_l fuel)) as (s & Hk & Hs).
    destruct (steady_len (@except_steady xs ys) _ Hs (Nat.le_0_l fuel))
      as (s' & Hl & _).
    exists s, s'. auto.
Qed.

End IntersectFacts.

Section AllFacts.

Variable A : Type.

#[local] Arguments skipn : simpl never.
#[local] Arguments firstn : simpl never.

(** [all] goes past the elements on which the predicate holds. *)
Lemma all_loop_pass (pred : elem A -> bool) (k : nat) :
  forall (f i p : nat) (self : Enumerable A),
    cursor_at (_data self) (_cycle self) p ->
    i + k <= len self ->
    p + k <= len self ->
    forallb pred (firstn k (skipn p (_data self))) = true ->
    exists self',
      all_loop (k + f) pred i self = all_loop f pred (i + k) self' /\
      _data self' = _data self /\
      cursor_at (_data self') (_cycle self') (if len self <=? p + k then 0 else p + k).
Proof.
  induction k as [|k IH]; intros f i p self Hc Hi Hp He.
  - exists self. rewrite !Nat.add_0_r. cbn [Nat.add].
    assert (p < len self) by (apply (cursor_at_lt Hc)).
    destruct (Nat.leb_spec (len self) p); [lia|]. auto.
  - assert (Hlt : p < length (_data self)) by (unfold len in *; lia).
    destruct (nth_error (_data self) p) as [x|] eqn:Hx;
      [| apply nth_error_None in Hx; lia].
    destruct (iter_next_cursor self (i := i) (p := p)) with (x := x)
      as (s1 & Hn & Hd & Hc1); auto; [lia|].
    rewrite (skipn_cons_nth _ _ Hx), firstn_cons in He. cbn [forallb] in He.
    apply andb_true_iff in He. destruct He as [Hpx He].
    cbn [Nat.add all_loop]. rewrite Hn, Hpx.
    assert (Hlen : len s1 = len self) by (unfold len; now rewrite Hd).
    destruct (Nat.leb_spec (len self) (S p)) as [Hle|Hgt].
    + assert (k = 0) as -> by lia. cbn [Nat.add].
      exists s1. replace (i + 1) with (S i) by lia.
      split; [reflexivity | split; [assumption|]].
      destruct (Nat.leb_spec (len self) (p + 1)); [assumption | lia].
    + rewrite <- Hd in He.
      destruct (IH f (S i) (S p) s1 Hc1) as (s2 & Hs2 & Hd2 & Hc2); try lia; auto.
      exists s2. rewrite Hs2. replace (S i + k) with (i + S k) by lia.
      split; [reflexivity | split; [congruence|]].
      rewrite Hlen in Hc2. replace (p + S k) with (S p + k) by lia. assumption.
Qed.

(** [all] on a list on which the predicate holds everywhere. *)
Lemma all_holds (pred : elem A -> bool) (data : list (elem A)) :
  forallb pred data = true ->
  exists s, all pred (Enumerable_init data) = (true, s) /\ list_at_start data s.
Proof.
  intros Hall. destruct data as [|x0 rest] eqn:E.
  - exists (Enumerable_init []). split; [reflexivity|].
    apply Enumerable_init_list_at_start.
  - rewrite <- E in *.
    assert (Hc : cursor_at (_data (Enumerable_init data)) (_cycle (Enumerable_init data)) 0).
    { apply at_start_cursor; [apply Enumerable_init_at_start|]. subst data. discriminate. }
    destruct (@all_loop_pass pred (length data) 1 0 0 (Enumerable_init data) Hc)
      as (s & Hl & Hd & Hc'); try (unfold len; simpl; lia).
    { unfold skipn. cbn [_data Enumerable_init]. now rewrite firstn_all. }
    exists s. unfold all.
    replace (S (len (Enumerable_init data))) with (length data + 1)
      by (unfold len; simpl; lia).
    rewrite Hl. cbn [all_loop Nat.add].
    rewrite iter_next_end by (unfold len; rewrite Hd; simpl; lia).
    split; [reflexivity|]. split; [exact Hd|].
    right. unfold len in Hc'. cbn [_data Enumerable_init Nat.add] in Hc'.
    rewrite Nat.leb_refl in Hc'. exact Hc'.
Qed.

(** [all] on a list on which the predicate fails first on [y]: the
    generator is abandoned there, and the cycle of the node stands at the
    element after [y]. *)
Lemma all_fails (pred : elem A -> bool) (pre post : list (elem A)) (y : elem A) :
  forallb pred pre = true ->
  pred y = false ->
  exists s,
    all pred (Enumerable_init (pre ++ y :: post)) = (false, s) /\
    fst (to_list s) = post ++ pre ++ [y].
Proof.
  intros Hpre Hy.
  set (data := pre ++ y :: post).
  assert (Hn : length data = length pre + S (length post))
    by (unfold data; rewrite length_app; reflexivity).
  assert (Hc : cursor_at (_data (Enumerable_init data)) (_cycle (Enumerable_init data)) 0).
  { apply at_start_cursor; [apply Enumerable_init_at_start|].
    cbn [_data Enumerable_init]. intros E. rewrite E in Hn. simpl in Hn. lia. }
  destruct (@all_loop_pass pred (length pre) (S (length post) + 1) 0 0
              (Enumerable_init data) Hc) as (s1 & Hl & Hd1 & Hc1);
    try (unfold len; cbn [_data Enumerable_init]; lia).
  { unfold skipn. cbn [_data Enumerable_init]. unfold data.
    rewrite firstn_app, Nat.sub_diag, firstn_0, app_nil_r, firstn_all. exact Hpre. }
  cbn [_data Enumerable_init] in Hd1.
  unfold len in Hc1. rewrite Hd1 in Hc1. cbn [_data Enumerable_init Nat.add] in Hc1.
  destruct (Nat.leb_spec (length data) (length pre)); [lia|].
  assert (Hx : nth_error (_data s1) (length pre) = Some y).
  { rewrite Hd1. unfold data. rewrite nth_error_app2 by lia.
    now rewrite Nat.sub_diag. }
  rewrite <- Hd1 in Hc1.
  destruct (iter_next_cursor s1 (i := length pre) (p := length pre)) with (x := y)
    as (s2 & Hi & Hd2 & Hc2); auto; [unfold len; rewrite Hd1; lia|].
  exists s2. split.
  - unfold all.
    replace (S (len (Enumerable_init data))) with (length pre + (S (length post) + 1))
      by (unfold len; cbn [_data Enumerable_init]; lia).
    rewrite Hl. cbn [Nat.add all_loop]. now rewrite Hi, Hy.
  - destruct (to_list_rotated s2 Hc2) as (s3 & Ht & _).
    rewrite Ht. cbn [fst]. rewrite Hd2, Hd1. unfold len. rewrite Hd1.
    destruct (Nat.leb_spec (length data) (S (length pre))) as [Hle|Hgt].
    + assert (post = []) by (destruct post; [reflexivity | simpl in Hn; lia]).
      subst post. unfold skipn, firstn. unfold data. now rewrite app_nil_r.
    + unfold data.
      replace (pre ++ y :: post) with ((pre ++ [y]) ++ post)
        by (rewrite <- app_assoc; reflexivity).
      assert (El : S (length pre) = length (pre ++ [y]))
        by (rewrite length_app; simpl; lia).
      rewrite El, skipn_app, firstn_app, Nat.sub_diag, skipn_all, firstn_all.
      unfold skipn at 1. unfold firstn at 1. now rewrite app_nil_r.
Qed.

Lemma forallb_first_failure (pred : elem A -> bool) (data : list (elem A)) :
  forallb pred data = false ->
  exists pre y post,
    data = pre ++ y :: post /\ forallb pred pre = true /\ pred y = false.
Proof.
  induction data as [|x data IH]; [discriminate|].
  cbn [forallb]. destruct (pred x) eqn:Hx.
  - cbn [andb]. intros Hf. destruct (IH Hf) as (pre & y & post & E & Hpre & Hy).
    exists (x :: pre), y, post. subst data. cbn [forallb]. rewrite Hx. auto.
  - intros _. exists [], x, data. auto.
Qed.

Lemma first_failure_unique (pred : elem A -> bool) (pre pre' post post' : list (elem A))
  (y y' : elem A) :
  pre ++ y :: post = pre' ++ y' :: post' ->
  forallb pred pre = true -> pred y = false ->
  forallb pred pre' = true -> pred y' = false ->
  pre = pre' /\ y = y' /\ post = post'.
Proof.
  revert pre'. induction pre as [|x pre IH]; intros [|x' pre'] E Hp Hy Hp' Hy';
    cbn [app forallb] in *.
  - inversion E. auto.
  - inversion E; subst. apply andb_true_iff in Hp'. destruct Hp' as [Hc _]. congruence.
  - inversion E; subst. apply andb_true_iff in Hp. destruct Hp as [Hc _]. congruence.
  - inversion E; subst.
    apply andb_true_iff in Hp, Hp'. destruct Hp as [_ Hp]. destruct Hp' as [_ Hp'].
    destruct (IH pre' H1 Hp Hy Hp' Hy') as (-> & -> & ->). auto.
Qed.

(** X17.  On a node built over a list, [all(predicate)] tells whether
    the predicate holds on every element.  When it does, the node is left
    at its start; when it fails first on an element [y], the traversal is
    abandoned there, and the next traversal of the node starts with the
    element after [y] and ends with [y]. *)
Theorem all_leaves_the_node_after_the_first_failure
  (predicate : elem A -> bool) (data : list (elem A)) :
  exists s,
    all predicate (Enumerable_init data) = (forallb predicate data, s) /\
    (forallb predicate data = true -> list_at_start data s) /\
    (forall pre y post,
       data = pre ++ y :: post ->
       forallb predicate pre = true ->
       predicate y = false ->
       fst (to_list s) = post ++ pre ++ [y]).
Proof.
  destruct (forallb predicate data) eqn:Hall.
  - destruct (all_holds predicate data Hall) as (s & Ha & Hs).
    exists s. split; [assumption | split; [auto|]].
    intros pre y post E Hpre Hy. subst data.
    rewrite forallb_app in Hall. cbn [forallb] in Hall. rewrite Hy in Hall.
    rewrite andb_false_r in Hall. discriminate.
  - destruct (forallb_first_failure predicate data Hall) as (pre & y & post & E & Hpre & Hy).
    destruct (@all_fails predicate pre post y Hpre Hy) as (s & Ha & Ht).
    exists s. subst data. split; [assumption | split; [discriminate|]].
    intros pre' y' post' E' Hpre' Hy'.
    destruct (@first_failure_unique predicate pre pre' post post' y y' E' Hpre Hy Hpre' Hy')
      as (-> & -> & ->).
    assumption.
Qed.

End AllFacts.

(** ** [join] *)

Section JoinFacts.

Variables A B C : Type.
Context {K : Type} `{KeyEq K}.

Variable outer_key : elem A -> K.
Variable inner_key : elem B -> K.
Variable result_func : elem A * elem B -> elem C.

#[local] Arguments skipn : simpl never.
#[local] Arguments firstn : simpl never.

(** The inner loop reads the inner list from where its cycle stands. *)
Lemma join_inner_loop_at (ys : list (elem B)) (o : elem A) (k : nat) :
  forall (d : Enumerable A) (e : Enumerable B) (dc : cycle (elem A) nat)
         (ec : cycle (elem B) nat) (p : nat),
    over_at ys ec e p ->
    p + k <= length ys ->
    exists ec' e',
      join_inner_loop k o (mkJoin d e outer_key inner_key result_func dc ec)
      = (map (fun inner => result_func (o, inner))
             (filter (fun inner => key_eqb (outer_key o) (inner_key inner))
                     (firstn k (skipn p ys))),
         false,
         mkJoin d e' outer_key inner_key result_func dc ec') /\
      over_at ys ec' e' (if length ys <=? p + k then 0 else p + k).
Proof.
  induction k as [|k IH]; intros d e dc ec p Ho Hk.
  - exists ec, e. pose proof (over_at_lt Ho) as Hlt.
    rewrite Nat.add_0_r. destruct (Nat.leb_spec (length ys) p); [lia|].
    split; [reflexivity | assumption].
  - assert (Hlt : p < length ys) by lia.
    destruct (nth_error ys p) as [x|] eqn:Hx; [| apply nth_error_None in Hx; lia].
    destruct (node_cycle_next_at Ho Hx) as (c1 & e1 & Hn & Ho1).
    cbn [join_inner_loop enumerable_cycle join_inner_enumerable join_data join_outer_key
         join_inner_key join_result_func data_cycle].
    rewrite Hn. rewrite (skipn_cons_nth _ _ Hx), firstn_cons. cbn [filter].
    destruct (Nat.leb_spec (length ys) (S p)) as [Hle|Hgt].
    + assert (k = 0) as -> by lia. cbn [join_inner_loop].
      exists c1, e1. rewrite firstn_0. cbn [filter map].
      split; [destruct (key_eqb (outer_key o) (inner_key x)); reflexivity|].
      destruct (Nat.leb_spec (length ys) (p + 1)); [assumption | lia].
    + destruct (IH d e1 dc c1 (S p) Ho1) as (c2 & e2 & Hl & Ho2); [lia|].
      rewrite Hl. exists c2, e2.
      split; [destruct (key_eqb (outer_key o) (inner_key x)); reflexivity|].
      replace (p + S k) with (S p + k) by lia. assumption.
Qed.

(** The outer loop reads the outer list from where its cycle stands, and
    the inner list once from its start for each outer element. *)
Lemma join_outer_loop_at (xs : list (elem A)) (ys : list (elem B)) (k : nat) :
  forall (d : Enumerable A) (e : Enumerable B) (dc : cycle (elem A) nat)
         (ec : cycle (elem B) nat) (p : nat),
    over_at xs dc d p ->
    _data e = ys ->
    (ys = [] \/ over_at ys ec e 0) ->
    p + k <= length xs ->
    exists dc' d' ec' e',
      join_outer_loop k (mkJoin d e outer_key inner_key result_func dc ec)
      = (join_of outer_key inner_key result_func (firstn k (skipn p xs)) ys,
         mkJoin d' e' outer_key inner_key result_func dc' ec') /\
      over_at xs dc' d' (if length xs <=? p + k then 0 else p + k) /\
      _data e' = ys /\
      (ys = [] \/ over_at ys ec' e' 0).
Proof.
  induction k as [|k IH]; intros d e dc ec p Ho He Hi Hk.
  - exists dc, d, ec, e. pose proof (over_at_lt Ho) as Hlt.
    rewrite Nat.add_0_r. destruct (Nat.leb_spec (length xs) p); [lia|].
    repeat split; auto.
  - assert (Hlt : p < length xs) by lia.
    destruct (nth_error xs p) as [x|] eqn:Hx; [| apply nth_error_None in Hx; lia].
    destruct (node_cycle_next_at Ho Hx) as (c1 & d1 & Hn & Ho1).
    cbn [join_outer_loop enumerable_cycle join_inner_enumerable join_data join_outer_key
         join_inner_key join_result_func data_cycle].
    rewrite Hn. rewrite (skipn_cons_nth _ _ Hx), firstn_cons.
    unfold join_of at 1. cbn [flat_map]. fold (join_of outer_key inner_key result_func).
    assert (Hin : exists ec1 e1,
               join_inner_loop (len e) x
                 (mkJoin d1 e outer_key inner_key result_func c1 ec)
               = (map (fun inner => result_func (x, inner))
                      (filter (fun inner => key_eqb (outer_key x) (inner_key inner)) ys),
                  false,
                  mkJoin d1 e1 outer_key inner_key result_func c1 ec1) /\
               _data e1 = ys /\ (ys = [] \/ over_at ys ec1 e1 0)).
    { unfold len. rewrite He. destruct Hi as [E|Hoi].
      - exists ec, e. rewrite E. cbn [length join_inner_loop filter map].
        split; [reflexivity | split; [congruence | now left]].
      - destruct (@join_inner_loop_at ys x (length ys) d1 e c1 ec 0 Hoi)
          as (ec1 & e1 & Hl & Ho2); [lia|].
        exists ec1, e1. rewrite Hl. unfold skipn. rewrite firstn_all.
        cbn [Nat.add] in Ho2. rewrite Nat.leb_refl in Ho2.
        split; [reflexivity|]. split; [now apply over_at_data with (c := ec1) (p := 0)|].
        now right. }
    destruct Hin as (ec1 & e1 & Hl & He1 & Hi1). rewrite Hl.
    destruct (Nat.leb_spec (length xs) (S p)) as [Hle|Hgt].
    + assert (k = 0) as -> by lia. cbn [join_outer_loop].
      exists c1, d1, ec1, e1. rewrite firstn_0.
      unfold join_of. cbn [flat_map].
      split; [reflexivity|].
      destruct (Nat.leb_spec (length xs) (p + 1)); [auto | lia].
    + destruct (IH d1 e1 c1 ec1 (S p) Ho1 He1 Hi1) as (dc2 & d2 & ec2 & e2 & Hl2 & Ho2 & He2 & Hi2);
        [lia|].
      rewrite Hl2. exists dc2, d2, ec2, e2.
      split; [reflexivity|].
      replace (p + S k) with (S p + k) by lia. auto.
Qed.

(** A join node over two nodes built over lists is steady: it yields the
    images of the pairs of equal keys, in the order of the outer list and
    then of the inner one; [len] of it is the length of the outer list. *)
Lemma join_steady (xs : list (elem A)) (ys : list (elem B)) :
  steady (join_at_start xs ys outer_key inner_key result_func) (length xs)
         (join_of outer_key inner_key result_func xs ys) 0.
Proof.
  intros fuel [d e ok ik rf dc ec] (Hd & He & Ho & Hi & Hok & Hik & Hrf) _.
  cbn [join_data join_inner_enumerable data_cycle enumerable_cycle join_outer_key
       join_inner_key join_result_func] in *.
  subst ok ik rf. split.
  - assert (Hs : at_start d).
    { destruct Ho as [E|Ho]; [left; congruence | right].
      rewrite Hd. now apply over_at_cursor with (c := dc). }
    destruct (to_list_at_start Hs) as (d' & Hl & Hd' & Hs').
    exists (mkJoin d' e outer_key inner_key result_func dc ec).
    cbn [node_len JoinEnumerable_Node]. unfold join_len.
    cbn [join_data join_inner_enumerable data_cycle enumerable_cycle join_outer_key
         join_inner_key join_result_func].
    rewrite Hl, Hd. split; [reflexivity|].
    split; [cbn [join_data]; congruence|].
    split; [assumption|].
    split; [|repeat split; assumption].
    destruct Ho as [E|Ho]; [now left | right].
    cbn [data_cycle join_data]. apply over_at_node with (d := d); auto. congruence.
  - cbn [node_iter JoinEnumerable_Node]. unfold join_to_list, len.
    cbn [join_data]. rewrite Hd.
    destruct Ho as [E|Ho].
    + exists (mkJoin d e outer_key inner_key result_func dc ec).
      rewrite E. cbn [length join_outer_loop]. split; [reflexivity|].
      rewrite <- E. repeat split; auto.
    + destruct (@join_outer_loop_at xs ys (length xs) d e dc ec 0 Ho He Hi)
        as (dc' & d' & ec' & e' & Hl & Ho' & He' & Hi'); [lia|].
      eexists. rewrite Hl. unfold skipn. rewrite firstn_all.
      split; [reflexivity|].
      cbn [Nat.add] in Ho'. rewrite Nat.leb_refl in Ho'.
      split; [now apply over_at_data with (c := dc') (p := 0)|].
      split; [assumption|].
      split; [now right|]. repeat split; assumption.
Qed.

(** X18.  [join] of two nodes built over lists, which are two
    different objects, yields [result_func((o, i))] for every outer element
    [o] and every inner element [i] whose keys are equal, in the order of
    the outer list and, for one outer element, of the inner list, at each
    of any number of traversals run to their end one after the other.
    [len] of the node is the length of the outer list, and [count()] is
    the number of pairs. *)
Theorem join_yields_the_pairs_of_equal_keys
  (fuel k : nat) (xs : list (elem A)) (ys : list (elem B)) :
  exists s s' s'',
    successive k (node_iter fuel)
      (Enumerable_join (Enumerable_init ys) outer_key inner_key result_func
         (Enumerable_init xs))
    = Some (repeat (join_of outer_key inner_key result_func xs ys) k, s) /\
    node_len fuel s = Some (length xs, s') /\
    count fuel s' = Some (length (join_of outer_key inner_key result_func xs ys), s'').
Proof.
  assert (Hi : join_at_start xs ys outer_key inner_key result_func
                 (Enumerable_join (Enumerable_init ys) outer_key inner_key result_func
                    (Enumerable_init xs))).
  { split; [reflexivity | split; [reflexivity|]].
    split; [|split; [|repeat split]].
    - destruct xs as [|x xs']; [now left | right].
      apply cycle_new_over_at. discriminate.
    - destruct ys as [|y ys']; [now left | right].
      apply cycle_new_over_at. discriminate. }
  destruct (successive_steady (@join_steady xs ys) k _ Hi (Nat.le_0_l fuel))
    as (s & Hk & Hs).
  destruct (steady_len (@join_steady xs ys) _ Hs (Nat.le_0_l fuel)) as (s' & Hl & Hs').
  destruct (count_steady (@join_steady xs ys) _ Hs' (Nat.le_0_l fuel)) as (s'' & Hc & _).
  exists s, s', s''. auto.
Qed.

End JoinFacts.

(** ** Traversals of [union] and [group_by] nodes *)

Section KeysFacts.

#[local] Arguments skipn : simpl never.
#[local] Arguments firstn : simpl never.

Lemma skipn_nth_cons (X : Type) (l : list X) (p : nat) (x : X) :
  nth_error l p = Some x -> skipn p l = x :: skipn (S p) l.
Proof.
  revert p; induction l as [|y l IH]; intros [|p] Hx; try discriminate.
  - simpl in Hx. inversion Hx. reflexivity.
  - simpl in Hx. unfold skipn; fold (skipn p l); fold (skipn (S p) l). now apply IH.
Qed.

Lemma firstn_nth_snoc (X : Type) (l : list X) (p : nat) (x : X) :
  nth_error l p = Some x -> firstn p l ++ [x] = firstn (S p) l.
Proof.
  revert p; induction l as [|y l IH]; intros [|p] Hx; try discriminate.
  - simpl in Hx. inversion Hx. reflexivity.
  - simpl in Hx. unfold firstn; fold (firstn p l); fold (firstn (S p) l).
    simpl. f_equal. now apply IH.
Qed.

Lemma keys_at_lt (ks : list Z) (c : cycle Z (list Z)) (p : nat) :
  keys_at ks c p -> p < length ks.
Proof.
  intros Hk; inversion Hk; subst; auto.
  destruct ks; [congruence | simpl; lia].
Qed.

(** [next] of the cycle over the keys gives the key the cycle stands at
    and moves the cycle to the next one, back to the first after the
    last. *)
Lemma keys_next_at (ks : list Z) (c : cycle Z (list Z)) (p : nat) (k : Z) :
  keys_at ks c p ->
  nth_error ks p = Some k ->
  exists c',
    cycle_next keys_next c tt = Some ((Some k, c'), tt) /\
    keys_at ks c' (if length ks <=? S p then 0 else S p).
Proof.
  intros Hk Hx.
  assert (Hp : p < length ks) by (apply nth_error_Some; congruence).
  inversion Hk; subst; unfold cycle_next, bind, ret; cbn [it saved index].
  - rewrite (skipn_nth_cons _ _ Hx). cbn [keys_next]. unfold ret.
    rewrite (firstn_nth_snoc _ _ Hx).
    eexists; split; [reflexivity|].
    destruct (Nat.leb_spec (length ks) (S p)).
    + assert (Hn : S p = length ks) by lia.
      rewrite Hn, skipn_all, firstn_all. constructor.
      intros ->; simpl in *; lia.
    + now constructor.
  - cbn [keys_next]. unfold ret, replay. cbn [saved index it]. rewrite Hx.
    eexists; split; [reflexivity|].
    constructor. destruct (Nat.leb_spec (length ks) 1); lia.
  - unfold replay; cbn [saved index it]. rewrite Hx.
    eexists; split; [reflexivity|].
    constructor. destruct (Nat.leb_spec (length ks) (S p)); lia.
Qed.

Lemma cycle_new_keys_at (ks : list Z) :
  ks <> [] -> keys_at ks (cycle_new ks) 0.
Proof.
  intros Hne. unfold cycle_new. apply (keys_first ks (p := 0)).
  destruct ks; [congruence | simpl; lia].
Qed.

(** The value that a dictionary holds at its [p]-th key. *)
Lemma dict_get_nth (V : Type) (u : dict V) (p : nat) (h : Z) (v : V) :
  NoDup (map fst u) ->
  nth_error u p = Some (h, v) ->
  nth_error (map fst u) p = Some h /\ dict_get u h = Some v.
Proof.
  intros Hnd Hx. split.
  - now rewrite nth_error_map, Hx.
  - apply In_dict_get; [assumption|]. eapply nth_error_In; eassumption.
Qed.

End KeysFacts.

Section UnionFacts.

Variable A : Type.

#[local] Arguments skipn : simpl never.
#[local] Arguments firstn : simpl never.

Lemma union_iter_at (u : dict (elem A)) (k : nat) :
  NoDup (map fst u) ->
  forall (d e : Enumerable A) (c : cycle Z (list Z)) (p : nat),
    keys_at (map fst u) c p ->
    p + k <= length u ->
    exists c',
      union_iter k (mkUnion d e u c) = (map snd (firstn k (skipn p u)), mkUnion d e u c') /\
      keys_at (map fst u) c' (if length u <=? p + k then 0 else p + k).
Proof.
  intros Hnd. induction k as [|k IH]; intros d e c p Hk Hp.
  - exists c. pose proof (keys_at_lt Hk) as Hlt. rewrite length_map in Hlt.
    rewrite Nat.add_0_r. destruct (Nat.leb_spec (length u) p); [lia|].
    split; [reflexivity | assumption].
  - assert (Hlt : p < length u) by lia.
    destruct (nth_error u p) as [[h v]|] eqn:Hx; [| apply nth_error_None in Hx; lia].
    destruct (@dict_get_nth _ u p h v Hnd Hx) as [Hh Hv].
    destruct (keys_next_at Hk Hh) as (c1 & Hn & Hk1).
    rewrite length_map in Hk1.
    cbn [union_iter union_cycle union union_data union_enumerable].
    rewrite Hn, Hv.
    rewrite (skipn_nth_cons _ _ Hx), firstn_cons. cbn [map snd].
    destruct (Nat.leb_spec (length u) (S p)) as [Hle|Hgt].
    + assert (k = 0) as -> by lia. cbn [union_iter].
      exists c1. rewrite firstn_0. split; [reflexivity|].
      destruct (Nat.leb_spec (length u) (p + 1)); [assumption | lia].
    + destruct (IH d e c1 (S p) Hk1) as (c2 & Hl & Hk2); [lia|].
      rewrite Hl. exists c2. split; [reflexivity|].
      replace (p + S k) with (S p + k) by lia. assumption.
Qed.

(** A union node is steady: it yields the values of its dictionary, in
    the order of the keys, and [len] of it is their number. *)
Lemma union_steady (u : dict (elem A)) :
  NoDup (map fst u) ->
  steady (union_at_start u) (length (map snd u)) (map snd u) 0.
Proof.
  intros Hnd fuel [d e u0 c] [Hu Hor] _. cbn [union union_cycle] in *. subst u0.
  rewrite length_map. split.
  - exists (mkUnion d e u c). cbn [node_len UnionEnumerable_Node union].
    split; [reflexivity|]. split; [reflexivity | assumption].
  - cbn [node_iter UnionEnumerable_Node]. unfold union_to_list. cbn [union].
    destruct Hor as [E|Hk].
    + exists (mkUnion d e u c). rewrite E. cbn [length union_iter map].
      split; [reflexivity|]. rewrite <- E. split; [reflexivity | now left].
    + destruct (@union_iter_at u (length u) Hnd d e c 0 Hk) as (c' & Hl & Hk'); [lia|].
      exists (mkUnion d e u c'). rewrite Hl. unfold skipn. rewrite firstn_all.
      split; [reflexivity|]. split; [reflexivity|].
      cbn [Nat.add] in Hk'. rewrite Nat.leb_refl in Hk'. now right.
Qed.

Variable hash : String.string -> Z.
Variable key : elem A -> pyval.

(** What [UnionEnumerable.__init__] makes of two new nodes. *)
Lemma UnionEnumerable_init_state (xs ys : list (elem A)) :
  union_at_start (union_load hash key (xs ++ ys))
    (Enumerable_union hash (Enumerable_init ys) key (Enumerable_init xs)).
Proof.
  unfold Enumerable_union, UnionEnumerable_init, concat_to_list.
  destruct (to_list_at_start (Enumerable_init_at_start xs)) as (e1 & Hl1 & _).
  destruct (to_list_at_start (Enumerable_init_at_start ys)) as (e2 & Hl2 & _).
  unfold elem in *. rewrite Hl1, Hl2. cbn [_data Enumerable_init].
  split; [reflexivity|]. cbn [union_cycle].
  destruct (union_load hash key (xs ++ ys)) as [|p u] eqn:E; [now left | right].
  apply cycle_new_keys_at. discriminate.
Qed.

(** The values of the dictionary of a union node are what [distinct]
    yields of the two lists, one after the other, with the key hash as
    key. *)
Lemma union_load_distinct (l : list (elem A)) :
  map snd (union_load hash key l) = distinct_of (key_hash hash key) l.
Proof. reflexivity. Qed.

(** X19.  [union] of two nodes built over lists yields, at each of any
    number of traversals run to their end one after the other, what
    [distinct] yields of the elements of the receiver followed by those of
    the argument, with [hash(json.dumps(key(x)))] as the key: the elements
    that are the first with their key hash, no two of which have the same
    key hash.  [len] of the node is their number. *)
Theorem union_is_distinct_of_the_concatenation
  (fuel k : nat) (xs ys : list (elem A)) :
  exists s,
    successive k (node_iter fuel)
      (Enumerable_union hash (Enumerable_init ys) key (Enumerable_init xs))
    = Some (repeat (distinct_of (key_hash hash key) (xs ++ ys)) k, s) /\
    node_len fuel s
    = Some (length (distinct_of (key_hash hash key) (xs ++ ys)), s) /\
    NoDup (map (key_hash hash key) (distinct_of (key_hash hash key) (xs ++ ys))) /\
    (forall y,
       In y (distinct_of (key_hash hash key) (xs ++ ys))
       <-> find (fun x => (key_hash hash key x =? key_hash hash key y)%Z) (xs ++ ys)
           = Some y).
Proof.
  destruct (union_load_spec hash key (xs ++ ys)) as (Hnd & _ & _).
  pose proof (union_steady Hnd) as Hst. rewrite union_load_distinct in Hst.
  destruct (successive_steady Hst k _ (UnionEnumerable_init_state xs ys) (Nat.le_0_l fuel))
    as (s & Hk & Hs).
  exists s. split; [assumption|]. split; [|split].
  - destruct Hs as [Hu _]. cbn [node_len UnionEnumerable_Node]. rewrite Hu.
    now rewrite <- union_load_distinct, length_map.
  - rewrite distinct_of_keys. apply distinct_fold_spec.
  - apply distinct_of_first.
Qed.

End UnionFacts.

Section GroupByFacts.

Variable A : Type.
Variable hash : String.string -> Z.
Variable key : elem A -> pyval.
Variable key_names : list String.string.

#[local] Arguments skipn : simpl never.
#[local] Arguments firstn : simpl never.

(** *** What the constructor raises *)

Lemma key_prop_loop_raises (key_value : pyval) (names : list (nat * String.string)) (e : exn) :
  key_prop_loop key_value names = Raise e -> e = IndexError.
Proof.
  induction names as [|[i prop] names IH]; cbn [key_prop_loop]; [discriminate|].
  destruct (_can_enumerate key_value) eqn:Hc.
  - destruct key_value as [| | |items|items]; try discriminate;
      cbn [py_index]; (destruct (nth_error items i);
        [destruct (key_prop_loop _ names); [discriminate | intros E; apply IH; congruence]
        | intros E; congruence]).
  - destruct (key_prop_loop key_value names); [discriminate | intros E; apply IH; congruence].
Qed.

Lemma grouped_load_raises (xs : list (elem A)) :
  forall (g : dict (Grouping A)) (e : exn),
    grouped_load hash key key_names xs g = Raise e -> e = IndexError.
Proof.
  induction xs as [|d xs IH]; intros g e; cbn [grouped_load]; [discriminate|].
  unfold grouped_step.
  destruct (dict_get g (key_hash hash key d)).
  - apply IH.
  - destruct (key_prop_loop (key d) (enumerate key_names)) eqn:Hk.
    + apply IH.
    + intros E. inversion E; subst. eapply key_prop_loop_raises; eassumption.
Qed.

Lemma key_prop_loop_returns (key_value : pyval) (names : list (nat * String.string)) :
  names = [] \/ _can_enumerate key_value = false ->
  exists key_prop, key_prop_loop key_value names = Return key_prop.
Proof.
  intros [-> | Hc]; [now exists []|].
  induction names as [|[i prop] names IH]; [now exists []|].
  cbn [key_prop_loop]. rewrite Hc. destruct IH as (kp & ->). eauto.
Qed.

Lemma grouped_load_returns (xs : list (elem A)) :
  key_names = [] \/ (forall x, In x xs -> _can_enumerate (key x) = false) ->
  forall g : dict (Grouping A),
    exists g', grouped_load hash key key_names xs g = Return g'.
Proof.
  intros Hor. induction xs as [|d xs IH]; intros g; cbn [grouped_load]; [eauto|].
  assert (Hor' : key_names = [] \/ (forall x, In x xs -> _can_enumerate (key x) = false)).
  { destruct Hor as [E|Hc]; [now left | right]. intros x Hx. apply Hc. now right. }
  unfold grouped_step.
  destruct (dict_get g (key_hash hash key d)); [now apply IH|].
  destruct (@key_prop_loop_returns (key d) (enumerate key_names)) as (kp & ->).
  - destruct Hor as [-> | Hc]; [now left | right]. apply Hc. now left.
  - now apply IH.
Qed.

(** *** The keys of the dictionary and the fields of the [Key] objects *)

(** The key hashes come in the order in which [distinct] would meet
    them. *)
Lemma grouped_load_keys (xs : list (elem A)) :
  forall (g g' : dict (Grouping A)) (u : dict (elem A)),
    map fst g = map fst u ->
    grouped_load hash key key_names xs g = Return g' ->
    map fst g' = map fst (fold_left (distinct_step (key_hash hash key)) xs u).
Proof.
  induction xs as [|d xs IH]; intros g g' u Hk; cbn [grouped_load fold_left].
  - intros E. inversion E; subst. assumption.
  - unfold grouped_step, distinct_step at 2.
    destruct (dict_get g (key_hash hash key d)) eqn:Hg.
    + destruct (dict_get u (key_hash hash key d)) eqn:Hu.
      * apply IH. now rewrite dict_update_keys.
      * exfalso. apply dict_get_None in Hu. apply Hu. rewrite <- Hk.
        apply dict_get_In in Hg. apply (in_map fst) in Hg. exact Hg.
    + destruct (dict_get u (key_hash hash key d)) eqn:Hu.
      * exfalso. apply dict_get_None in Hg. apply Hg. rewrite Hk.
        apply dict_get_In in Hu. apply (in_map fst) in Hu. exact Hu.
      * destruct (key_prop_loop (key d) (enumerate key_names)); [|discriminate].
        apply IH. rewrite !map_app. cbn [map fst]. now rewrite Hk.
Qed.

Lemma key_prop_loop_names (key_value : pyval) (names : list String.string) :
  forall (k : nat) (key_prop : list (String.string * pyval)),
    key_prop_loop key_value (combine (seq k (length names)) names) = Return key_prop ->
    map fst key_prop = names.
Proof.
  induction names as [|n names IH]; intros k kp; cbn [length seq combine key_prop_loop].
  - intros E. inversion E. reflexivity.
  - destruct (if _can_enumerate key_value then py_index key_value k else Return key_value);
      [|discriminate].
    destruct (key_prop_loop key_value (combine (seq (S k) (length names)) names)) eqn:Hr;
      [|discriminate].
    intros E. inversion E; subst. cbn [map fst]. f_equal. eapply IH. eassumption.
Qed.

(** Every [Key] has the fields that [key_names] names, in that order. *)
Lemma grouped_load_fields (xs : list (elem A)) :
  forall g g' : dict (Grouping A),
    Forall (fun p => map fst (key_fields (grouping_key_prop (snd p))) = key_names) g ->
    grouped_load hash key key_names xs g = Return g' ->
    Forall (fun p => map fst (key_fields (grouping_key_prop (snd p))) = key_names) g'.
Proof.
  induction xs as [|d xs IH]; intros g g' Hg; cbn [grouped_load].
  - intros E. inversion E; subst. assumption.
  - unfold grouped_step.
    destruct (dict_get g (key_hash hash key d)) eqn:Hget.
    + apply IH. clear - Hg.
      induction g as [|[h G] g IHg]; cbn [dict_update]; [constructor|].
      inversion Hg as [|? ? HG Hrest]; subst.
      destruct (h =? key_hash hash key d)%Z; constructor; auto.
    + destruct (key_prop_loop (key d) (enumerate key_names)) as [kp|] eqn:Hk; [|discriminate].
      apply IH. apply Forall_app. split; [assumption|].
      constructor; [|constructor]. cbn [snd grouping_key_prop key_fields].
      eapply key_prop_loop_names. exact Hk.
Qed.

(** *** The groupings split the list *)

Lemma filter_split_perm (X : Type) (p q : X -> bool) (l : list X) :
  (forall x, p x = true -> q x = true -> False) ->
  Permutation (filter p l ++ filter q l) (filter (fun x => p x || q x) l).
Proof.
  intros Hpq. induction l as [|x l IH]; [constructor|].
  cbn [filter]. destruct (p x) eqn:Hp, (q x) eqn:Hq; cbn [orb app].
  - exfalso. eauto.
  - now constructor.
  - apply Permutation_sym. apply Permutation_cons_app. now apply Permutation_sym.
  - assumption.
Qed.

Lemma concat_filter_perm (X : Type) (h : X -> Z) (l : list X) (hs : list Z) :
  NoDup hs ->
  Permutation (List.concat (map (fun h0 => filter (fun x => (h x =? h0)%Z) l) hs))
              (filter (fun x => existsb (fun h0 => (h x =? h0)%Z) hs) l).
Proof.
  induction hs as [|h0 hs IH]; intros Hnd; cbn [map List.concat existsb].
  - induction l as [|x l IHl]; [constructor | exact IHl].
  - inversion Hnd as [|? ? Hnotin Hnd']; subst.
    eapply Permutation_trans; [apply Permutation_app_head, IH, Hnd'|].
    apply filter_split_perm.
    intros x Hp Hq. apply Z.eqb_eq in Hp. apply existsb_exists in Hq.
    destruct Hq as (h1 & Hin & Hh1). apply Z.eqb_eq in Hh1. congruence.
Qed.

Lemma grouped_data_perm (xs : list (elem A)) (g : dict (Grouping A)) :
  grouped_load hash key key_names xs [] = Return g ->
  Permutation (List.concat (map (fun p => _data (grouping_enumerable (snd p))) g)) xs.
Proof.
  intros Hg. destruct (grouped_load_spec hash key key_names xs Hg) as (Hnd & Hdata & Hkeys).
  assert (E : map (fun p => _data (grouping_enumerable (snd p))) g
              = map (fun h0 => filter (fun x => (key_hash hash key x =? h0)%Z) xs)
                    (map fst g)).
  { rewrite map_map. apply map_ext_in. intros [h G] Hin. cbn [fst snd]. now apply Hdata. }
  rewrite E.
  eapply Permutation_trans; [apply concat_filter_perm, Hnd|].
  assert (Hall : forall x, In x xs ->
            existsb (fun h0 => (key_hash hash key x =? h0)%Z) (map fst g) = true).
  { intros x Hx. apply existsb_exists. exists (key_hash hash key x).
    split; [now apply Hkeys | apply Z.eqb_refl]. }
  clear - Hall. induction xs as [|x xs IH]; [constructor|].
  cbn [filter]. rewrite (Hall x) by now left.
  constructor. apply IH. intros y Hy. apply Hall. now right.
Qed.

(** *** The traversal *)

Variable R : Type.

Lemma grouped_iter_at (g : dict (Grouping A)) (f : Grouping A -> elem R) (k : nat) :
  NoDup (map fst g) ->
  forall (d : Enumerable A) (c : cycle Z (list Z)) (p : nat),
    keys_at (map fst g) c p ->
    p + k <= length g ->
    exists c',
      grouped_iter k (mkGrouped d f g c)
      = (map (fun q => f (snd q)) (firstn k (skipn p g)), mkGrouped d f g c') /\
      keys_at (map fst g) c' (if length g <=? p + k then 0 else p + k).
Proof.
  intros Hnd. induction k as [|k IH]; intros d c p Hk Hp.
  - exists c. pose proof (keys_at_lt Hk) as Hlt. rewrite length_map in Hlt.
    rewrite Nat.add_0_r. destruct (Nat.leb_spec (length g) p); [lia|].
    split; [reflexivity | assumption].
  - assert (Hlt : p < length g) by lia.
    destruct (nth_error g p) as [[h G]|] eqn:Hx; [| apply nth_error_None in Hx; lia].
    destruct (@dict_get_nth _ g p h G Hnd Hx) as [Hh Hv].
    destruct (keys_next_at Hk Hh) as (c1 & Hn & Hk1).
    rewrite length_map in Hk1.
    cbn [grouped_iter grouped_cycle grouped_grouping grouped_data grouped_func].
    rewrite Hn, Hv.
    rewrite (skipn_nth_cons _ _ Hx), firstn_cons. cbn [map snd].
    destruct (Nat.leb_spec (length g) (S p)) as [Hle|Hgt].
    + assert (k = 0) as -> by lia. cbn [grouped_iter].
      exists c1. rewrite firstn_0. split; [reflexivity|].
      destruct (Nat.leb_spec (length g) (p + 1)); [assumption | lia].
    + destruct (IH d c1 (S p) Hk1) as (c2 & Hl & Hk2); [lia|].
      rewrite Hl. exists c2. split; [reflexivity|].
      replace (p + S k) with (S p + k) by lia. assumption.
Qed.

(** A group-by node is steady: it yields the images of its groupings,
    in the order of the keys, and [len] of it is their number. *)
Lemma grouped_steady (g : dict (Grouping A)) (f : Grouping A -> elem R) :
  NoDup (map fst g) ->
  steady (grouped_at_start g f) (length (map (fun q => f (snd q)) g))
         (map (fun q => f (snd q)) g) 0.
Proof.
  intros Hnd fuel [d f0 g0 c] (Hg & Hf & Hor) _.
  cbn [grouped_grouping grouped_func grouped_cycle] in *. subst g0 f0.
  rewrite length_map. split.
  - exists (mkGrouped d f g c). cbn [node_len GroupedEnumerable_Node grouped_grouping].
    split; [reflexivity|]. repeat split; assumption.
  - cbn [node_iter GroupedEnumerable_Node]. unfold grouped_to_list. cbn [grouped_grouping].
    destruct Hor as [E|Hk].
    + exists (mkGrouped d f g c). rewrite E. cbn [length grouped_iter map].
      split; [reflexivity|]. rewrite <- E. repeat split. now left.
    + destruct (@grouped_iter_at g f (length g) Hnd d c 0 Hk) as (c' & Hl & Hk'); [lia|].
      exists (mkGrouped d f g c'). rewrite Hl. unfold skipn. rewrite firstn_all.
      split; [reflexivity|]. repeat split.
      cbn [Nat.add] in Hk'. rewrite Nat.leb_refl in Hk'. now right.
Qed.

End GroupByFacts.

Section GroupByTheorem.

Variable A : Type.
Variable hash : String.string -> Z.
Variable key : elem A -> pyval.
Variable key_names : list String.string.

(** X20.  [group_by] on a node built over a list either raises
    [IndexError], which it does only when a key is a tuple or a list with
    fewer components than there are key names, or gives a node that
    yields one grouping per key hash, in the order in which the key hashes
    first occur in the list.  Each grouping holds the elements of the list
    with its key hash, in their order, and is not empty; its [Key] has the
    fields that [key_names] names, when these are different names; and
    the groupings together hold the
    elements of the list, each of them once.  The node yields the same
    groupings at each of any number of traversals run to their end one
    after the other. *)
Theorem group_by_splits_the_list_by_key_hash (fuel k : nat) (data : list (elem A)) :
  (key_names = [] \/ (forall x, In x data -> _can_enumerate (key x) = false) ->
   exists node,
     group_by hash key_names key (fun g => Some g) (Enumerable_init data) = Return node) /\
  match group_by hash key_names key (fun g => Some g) (Enumerable_init data) with
  | Raise e => e = IndexError
  | Return node =>
      (exists s,
         successive k (node_iter fuel) node
         = Some (repeat (map (fun p => Some (snd p)) (grouped_grouping node)) k, s)) /\
      map fst (grouped_grouping node)
      = map (key_hash hash key) (distinct_of (key_hash hash key) data) /\
      Forall (fun p =>
                _data (grouping_enumerable (snd p))
                = filter (fun x => (key_hash hash key x =? fst p)%Z) data /\
                _data (grouping_enumerable (snd p)) <> [] /\
                (NoDup key_names ->
                 map fst (key_fields (grouping_key_prop (snd p))) = key_names))
             (grouped_grouping node) /\
      Permutation
        (List.concat (map (fun p => _data (grouping_enumerable (snd p)))
                          (grouped_grouping node)))
        data
  end.
Proof.
  unfold group_by, GroupedEnumerable_init.
  pose proof (GroupedEnumerable_load_init hash key key_names data) as Hinit.
  destruct (GroupedEnumerable_load hash key key_names (Enumerable_init data)) as [o e].
  cbn [fst] in Hinit. subst o. split.
  - intros Hor. destruct (@grouped_load_returns A hash key key_names data Hor []) as (g & ->).
    eauto.
  - destruct (grouped_load hash key key_names data []) as [g|ex] eqn:Hg;
      [| eapply grouped_load_raises; eassumption].
    destruct (grouped_load_spec hash key key_names data Hg) as (Hnd & Hdata & Hkeys).
    assert (Hk : map fst g = map (key_hash hash key) (distinct_of (key_hash hash key) data)).
    { rewrite distinct_of_keys.
      apply (@grouped_load_keys A hash key key_names data [] g [] eq_refl Hg). }
    cbn [grouped_grouping]. split; [|split; [exact Hk | split]].
    + assert (Hi : grouped_at_start g (fun G => Some G)
                     (mkGrouped e (fun G => Some G) g (cycle_new (map fst g)))).
      { split; [reflexivity | split; [reflexivity|]].
        cbn [grouped_cycle]. destruct g as [|p g']; [now left | right].
        apply cycle_new_keys_at. discriminate. }
      destruct (successive_steady (@grouped_steady A (Grouping A) g (fun G => Some G) Hnd)
                  k _ Hi (Nat.le_0_l fuel)) as (s & Hs & _).
      exists s. exact Hs.
    + pose proof (@grouped_load_fields A hash key key_names data [] g (Forall_nil _) Hg)
        as Hfields.
      rewrite Forall_forall in *. intros [h G] Hin. cbn [fst snd].
      split; [now apply Hdata | split; [| intros _; exact (Hfields _ Hin)]].
      rewrite (Hdata _ _ Hin).
      assert (Hh : In h (map fst g)) by (apply (in_map fst) in Hin; exact Hin).
      rewrite Hk in Hh. apply in_map_iff in Hh. destruct Hh as (y & Ey & Hy).
      apply distinct_of_first in Hy. apply find_some in Hy. destruct Hy as [Hy _].
      intros E.
      assert (Hf : In y (filter (fun x => (key_hash hash key x =? h)%Z) data)).
      { apply filter_In. split; [assumption | now apply Z.eqb_eq]. }
      rewrite E in Hf. exact Hf.
    + exact (@grouped_data_perm A hash key key_names data g Hg).
Qed.

End GroupByTheorem.

(** ** Operators over steady nodes: [select], [select_many], [skip], [take] *)

Section OverSteady.

Variables A B : Type.
Context {N : Type} `{Node A N}.

Variable Inv : N -> Prop.
Variable l : nat.
Variable xs : list (elem A).
Variable F : nat.

Hypothesis Hsteady : steady Inv l xs F.

(** Each of these nodes is steady when its upstream node is.  [len] of
    it is inherited and counts what the upstream node yields. *)
Lemma select_steady (f : elem A -> elem B) :
  steady (fun s : SelectEnumerable A B => Inv (select_data s) /\ func s = f)
         (length xs) (map f xs) F.
Proof.
  intros fuel [d f0] [Hd Hf] Hfuel. cbn [select_data func] in *. subst f0.
  destruct (steady_iter Hsteady _ Hd Hfuel) as (d' & Hi & Hd').
  split; exists (mkSelect d' f);
    cbn [node_len node_iter SelectEnumerable_Node];
    unfold on_attr, upstream_len, bind, ret; cbn [select_data func];
    rewrite Hi; auto.
Qed.

Lemma select_many_steady (f : elem A -> list (elem B)) :
  steady (fun s : SelectManyEnumerable A B => Inv (select_many_data s) /\ selector s = f)
         (length xs) (flat_map f xs) F.
Proof.
  intros fuel [d f0] [Hd Hf] Hfuel. cbn [select_many_data selector] in *. subst f0.
  destruct (steady_iter Hsteady _ Hd Hfuel) as (d' & Hi & Hd').
  split; exists (mkSelectMany d' f);
    cbn [node_len node_iter SelectManyEnumerable_Node];
    unfold on_attr, upstream_len, bind, ret; cbn [select_many_data selector];
    rewrite Hi; auto.
Qed.

Lemma skip_steady (n : Z) :
  steady (fun s : @SkipEnumerable N => Inv (skip_data s) /\ skip_n s = n)
         (length xs) (skipn (Z.to_nat n) xs) F.
Proof.
  intros fuel [d n0] [Hd Hn] Hfuel. cbn [skip_data skip_n] in *. subst n0.
  destruct (steady_iter Hsteady _ Hd Hfuel) as (d' & Hi & Hd').
  split; exists (mkSkip d' n);
    cbn [node_len node_iter SkipEnumerable_Node];
    unfold on_attr, upstream_len, bind, ret; cbn [skip_data skip_n];
    rewrite Hi; rewrite ?skip_iter_skipn; auto.
Qed.

Lemma take_steady (n : Z) :
  steady (fun s : @TakeEnumerable N => Inv (take_data s) /\ take_n s = n)
         (length xs) (firstn (Z.to_nat n) xs) F.
Proof.
  intros fuel [d n0] [Hd Hn] Hfuel. cbn [take_data take_n] in *. subst n0.
  destruct (steady_iter Hsteady _ Hd Hfuel) as (d' & Hi & Hd').
  split; exists (mkTake d' n);
    cbn [node_len node_iter TakeEnumerable_Node];
    unfold on_attr, upstream_len, bind, ret; cbn [take_data take_n];
    rewrite Hi; rewrite ?take_iter_firstn; auto.
Qed.

End OverSteady.

(** X21.  On a node built over a list,
    [where(predicate).select(func).skip(m).take(n)] with [m] and [n] not
    negative yields, at each of any number of traversals run to their end
    one after the other, the page of [n] elements from index [m] on of the
    images under [func] of the elements that satisfy the predicate; and
    [select_many(selector)] after the same [where] yields the lists that
    [selector] gives, one after the other. *)
Theorem where_select_skip_take_compose
  (A B : Type) (fuel k : nat) (predicate : elem A -> bool) (f : elem A -> elem B)
  (g : elem A -> list (elem B)) (m n : Z) (data : list (elem A)) :
  ((0 <= m)%Z -> (0 <= n)%Z ->
   exists sk tk s,
     SkipEnumerable_init m (select f (where_ predicate (Enumerable_init data)))
     = Return sk /\
     TakeEnumerable_init n sk = Return tk /\
     successive k (node_iter fuel) tk
     = Some (repeat (firstn (Z.to_nat n)
                       (skipn (Z.to_nat m) (map f (filter predicate data)))) k, s)) /\
  (exists s,
     successive k (node_iter fuel)
       (select_many g (where_ predicate (Enumerable_init data)))
     = Some (repeat (flat_map g (filter predicate data)) k, s)).
Proof.
  pose proof (@where_steady A predicate data) as H0.
  pose proof (where_init_at_start predicate data) as Hi.
  split.
  - intros Hm Hn. unfold SkipEnumerable_init, TakeEnumerable_init.
    destruct (Z.ltb_spec m 0) as [|_]; [lia|]. destruct (Z.ltb_spec n 0) as [|_]; [lia|].
    pose proof (@select_steady A B _ _ _ _ _ _ H0 f) as H1.
    pose proof (@skip_steady B _ _ _ _ _ _ H1 m) as H2.
    pose proof (@take_steady B _ _ _ _ _ _ H2 n) as H3.
    destruct (successive_steady H3 k (fuel := fuel)
                (take n (skip m (select f (where_ predicate (Enumerable_init data))))))
      as (s & Hk & _); [| lia |].
    + cbn [take_data take_n take skip skip_data skip_n select select_data func]. auto.
    + do 3 eexists. split; [reflexivity|]. split; [reflexivity|]. exact Hk.
  - pose proof (@select_many_steady A B _ _ _ _ _ _ H0 g) as H1.
    destruct (successive_steady H1 k (fuel := fuel)
                (select_many g (where_ predicate (Enumerable_init data))))
      as (s & Hk & _); [| lia | eauto].
    cbn [select_many select_many_data selector]. auto.
Qed.

(** ** [take_while] and [skip_while] where the predicate fails *)

(** [take_while] on a new node over a list whose first element fails the
    predicate, or is [None]: the first loop is not entered and the
    traversal yields nothing. *)
Lemma take_while_first_fails (A : Type) (pred : elem A -> bool) (x : elem A)
  (rest : list (elem A)) (fuel : nat) :
  (if is_None x then false else pred x) = false ->
  exists self',
    take_while_run (S fuel) (take_while pred (Enumerable_init (x :: rest)))
    = ([], Some self').
Proof.
  intros Hx.
  destruct (while_first_init x rest pred) as (s & Hfi & _).
  unfold take_while_run, take_while. unfold elem in *. rewrite Hfi, Hx.
  cbn [take_loop]. eexists. reflexivity.
Qed.

(** X22.  On a node built over a list that starts with elements that
    satisfy the predicate, the first of them not [None], followed by an
    element [y] that fails it: [take_while] yields the elements before [y]
    and ends, [skip_while] yields [y] and all that follows it, whether it
    satisfies the predicate or not, and [take_while] on the list from [y]
    on yields nothing. *)
Theorem while_operators_split_at_the_first_failure
  (A : Type) (pred : elem A -> bool) (a : A) (pre : list (elem A)) (y : elem A)
  (post : list (elem A)) (fuel : nat) :
  (forall x, In x (Some a :: pre) -> pred x = true) ->
  pred y = false ->
  S (length pre) < fuel ->
  (exists s,
     take_while_run fuel (take_while pred (Enumerable_init (Some a :: pre ++ y :: post)))
     = (Some a :: pre, Some s)) /\
  (exists s,
     skip_while_run fuel (skip_while pred (Enumerable_init (Some a :: pre ++ y :: post)))
     = Some (y :: post, s)) /\
  (exists s,
     take_while_run fuel (take_while pred (Enumerable_init (y :: post))) = ([], Some s)).
Proof.
  intros Hpre Hy Hf. split; [| split].
  - destruct (@take_while_prefix A pred a pre y post fuel Hpre Hy Hf) as (s & Hs & _). eauto.
  - exact (@skip_while_suffix A pred a pre y post fuel Hpre Hy Hf).
  - destruct fuel as [|fuel]; [lia|].
    apply take_while_first_fails. rewrite Hy. now destruct (is_None y).
Qed.

Lemma while_operators_split_at_the_first_failure_witness :
  (exists s,
     take_while_run 3
       (take_while (fun x => match x with Some n => Nat.ltb n 3 | None => false end)
          (Enumerable_init [Some 1; Some 2; Some 3; Some 1]))
     = ([Some 1; Some 2], Some s)) /\
  (exists s,
     skip_while_run 3
       (skip_while (fun x => match x with Some n => Nat.ltb n 3 | None => false end)
          (Enumerable_init [Some 1; Some 2; Some 3; Some 1]))
     = Some ([Some 3; Some 1], s)) /\
  (exists s,
     take_while_run 3
       (take_while (fun x => match x with Some n => Nat.ltb n 3 | None => false end)
          (Enumerable_init [Some 3; Some 1]))
     = ([], Some s)).
Proof.
  apply (@while_operators_split_at_the_first_failure nat
           (fun x => match x with Some n => Nat.ltb n 3 | None => false end)
           1 [Some 2] (Some 3) [Some 1] 3).
  - intros x [<- | [<- | []]]; reflexivity.
  - reflexivity.
  - simpl. lia.
Defined.

(** ** [group_join] with a [result_func] that lists the grouping *)

Section GroupJoinListed.

Variables A B K : Type.
Variable eqb : K -> K -> bool.
Variable outer_key : elem A -> K.
Variable inner_key : elem B -> K.

#[local] Arguments skipn : simpl never.
#[local] Arguments firstn : simpl never.

(** The closure of a grouping depends on its frame only. *)
Lemma predicate_frame (w : World B K) (g g' : WhereGrouping B K) :
  closure_frame g' = closure_frame g ->
  predicate eqb inner_key w g' = predicate eqb inner_key w g.
Proof. destruct g, g'. cbn. intros ->. reflexivity. Qed.

Lemma replay_at_lt (data : list (elem B)) (c : cycle (elem B) nat) (p : nat) :
  replay_at data c p -> p < length data.
Proof.
  intros Hr; inversion Hr; subst; auto.
  destruct data; [congruence | simpl; lia].
Qed.

(** [next] of the cycle of a [where] node on its first pass over the
    inner node. *)
Lemma where_draw_first (data : list (elem B)) (g : WhereGrouping B K) (w : World B K)
  (p : nat) (x : elem B) :
  where_cycle g = mkCycle (Some p) (firstn p data) 0 ->
  _data (inner_enumerable w) = data ->
  cursor_at data (_cycle (inner_enumerable w)) p ->
  nth_error data p = Some x ->
  exists d,
    where_draw (g, w)
    = Some (Some x, (set_where_cycle g (mkCycle (Some (S p)) (firstn (S p) data) 0),
                     mkWorld (frames w) d)) /\
    _data d = data /\
    cursor_at data (_cycle d) (if length data <=? S p then 0 else S p).
Proof.
  intros Hc Hd Hcur Hx.
  assert (Hp : p < length data) by (apply nth_error_Some; congruence).
  rewrite <- Hd in Hcur, Hx.
  destruct (next_cycle_at (inner_enumerable w) Hcur Hx) as (d & Hn & Hd' & Hc').
  exists d. unfold where_draw, cycle_next, bind, ret. rewrite Hc. cbn [it saved index].
  unfold generator_next, iter_next.
  destruct (Nat.ltb_spec p (len (inner_enumerable w)));
    [| unfold len in *; rewrite Hd in *; lia].
  rewrite Hn. rewrite Hd in Hx. rewrite (firstn_snoc_nth _ _ Hx).
  split; [reflexivity|]. split; [congruence|].
  unfold len in Hc'. rewrite Hd' in Hc'. rewrite Hd in *. exact Hc'.
Qed.

(** The first traversal of the [where] node of a new grouping reads the
    whole inner node and leaves it at its first element. *)
Lemma where_iter_first (data : list (elem B)) (k : nat) :
  forall (g : WhereGrouping B K) (w : World B K) (p i : nat),
    where_cycle g = mkCycle (Some p) (firstn p data) 0 ->
    _data (inner_enumerable w) = data ->
    cursor_at data (_cycle (inner_enumerable w)) (if length data <=? p then 0 else p) ->
    p + k = length data ->
    data <> [] ->
    exists d,
      where_iter eqb inner_key k i (g, w)
      = Some (filter (predicate eqb inner_key w g) (skipn p data),
              (set_where_cycle g (mkCycle (Some (length data)) data 0),
               mkWorld (frames w) d)) /\
      _data d = data /\
      cursor_at data (_cycle d) 0.
Proof.
  induction k as [|k IH]; intros g w p i Hc Hd Hcur Hk Hne.
  - assert (p = length data) as -> by lia.
    rewrite Nat.leb_refl in Hcur. rewrite firstn_all in Hc.
    exists (inner_enumerable w). cbn [where_iter]. unfold ret.
    rewrite skipn_all. cbn [filter].
    destruct g as [gk cf wc gc], w as [fr d]. cbn in *. subst wc.
    repeat split; auto.
  - assert (Hp : p < length data) by lia.
    destruct (Nat.leb_spec (length data) p); [lia|].
    destruct (nth_error data p) as [x|] eqn:Hx; [| apply nth_error_None in Hx; lia].
    destruct (where_draw_first g w Hc Hd Hcur Hx) as (d & Hdr & Hd' & Hc').
    cbn [where_iter]. unfold bind at 1. rewrite Hdr.
    destruct (IH (set_where_cycle g (mkCycle (Some (S p)) (firstn (S p) data) 0))
                (mkWorld (frames w) d) (S p) (S i)) as (d2 & Hi & Hd2 & Hc2); auto; [lia|].
    rewrite (skipn_cons_nth _ _ Hx). cbn [filter].
    change (predicate eqb inner_key (mkWorld (frames w) d)
              (set_where_cycle g (mkCycle (Some (S p)) (firstn (S p) data) 0)))
      with (predicate eqb inner_key w g) in *.
    exists d2. unfold bind, ret. rewrite Hi.
    destruct (predicate eqb inner_key w g x); repeat split; auto.
Qed.

(** [next] of a cycle that has read all of the inner node: the world is
    left as it is. *)
Lemma where_draw_replay (data : list (elem B)) (g : WhereGrouping B K) (w : World B K)
  (p : nat) (x : elem B) :
  replay_at data (where_cycle g) p ->
  _data (inner_enumerable w) = data ->
  nth_error data p = Some x ->
  where_draw (g, w)
  = Some (Some x, (set_where_cycle g (mkCycle None data (if length data <=? S p then 0 else S p)), w)) /\
  replay_at data (mkCycle None data (if length data <=? S p then 0 else S p)) (if length data <=? S p then 0 else S p).
Proof.
  intros Hr Hd Hx.
  assert (Hp : p < length data) by (apply nth_error_Some; congruence).
  assert (Hq : (if length data <=? S p then 0 else S p) < length data)
    by (destruct (Nat.leb_spec (length data) (S p)); lia).
  split; [| now apply replay_saved].
  destruct w as [fr d]. cbn [inner_enumerable] in Hd.
  inversion Hr as [Hne Hc | q Hlt Hc]; subst p;
    unfold where_draw, cycle_next, bind, ret; rewrite <- Hc; cbn [it saved index].
  - unfold generator_next. rewrite iter_next_end by (unfold len; cbn [inner_enumerable]; rewrite Hd; lia).
    unfold replay. cbn [saved index it inner_enumerable frames]. rewrite Hx. reflexivity.
  - unfold replay. cbn [saved index it inner_enumerable frames]. rewrite Hx. reflexivity.
Qed.

(** A traversal of the [where] node by a cycle that has read all of the
    inner node, over a segment of the list. *)
Lemma where_iter_seg (data : list (elem B)) (k : nat) :
  forall (g : WhereGrouping B K) (w : World B K) (p i : nat),
    replay_at data (where_cycle g) (if length data <=? p then 0 else p) ->
    _data (inner_enumerable w) = data ->
    p + k <= length data ->
    exists c,
      where_iter eqb inner_key k i (g, w)
      = Some (filter (predicate eqb inner_key w g) (firstn k (skipn p data)),
              (set_where_cycle g c, w)) /\
      replay_at data c (if length data <=? p + k then 0 else p + k).
Proof.
  induction k as [|k IH]; intros g w p i Hr Hd Hk.
  - exists (where_cycle g). rewrite Nat.add_0_r. cbn [where_iter]. unfold ret.
    rewrite firstn_0. destruct g. split; [reflexivity | assumption].
  - assert (Hp : p < length data) by lia.
    destruct (Nat.leb_spec (length data) p); [lia|].
    destruct (nth_error data p) as [x|] eqn:Hx; [| apply nth_error_None in Hx; lia].
    destruct (where_draw_replay g w Hr Hd Hx) as (Hdr & Hr').
    cbn [where_iter]. unfold bind at 1. rewrite Hdr.
    destruct (IH (set_where_cycle g (mkCycle None data (if length data <=? S p then 0 else S p)))
                w (S p) (S i)) as (c & Hi & Hc); auto; [lia|].
    rewrite (skipn_cons_nth _ _ Hx), firstn_cons. cbn [filter].
    change (predicate eqb inner_key w
              (set_where_cycle g (mkCycle None data (if length data <=? S p then 0 else S p))))
      with (predicate eqb inner_key w g) in *.
    exists c. unfold bind, ret. rewrite Hi.
    replace (p + S k) with (S p + k) by lia.
    destruct (predicate eqb inner_key w g x); split; auto.
Qed.

(** The same over the rest of the list and on from its first element. *)
Lemma where_iter_round (data : list (elem B)) (k1 : nat) :
  forall (g : WhereGrouping B K) (w : World B K) (p i k2 : nat),
    replay_at data (where_cycle g) (if length data <=? p then 0 else p) ->
    _data (inner_enumerable w) = data ->
    p + k1 = length data ->
    k2 <= length data ->
    exists c,
      where_iter eqb inner_key (k1 + k2) i (g, w)
      = Some (filter (predicate eqb inner_key w g) (skipn p data)
              ++ filter (predicate eqb inner_key w g) (firstn k2 data),
              (set_where_cycle g c, w)) /\
      replay_at data c (if length data <=? k2 then 0 else k2).
Proof.
  induction k1 as [|k1 IH]; intros g w p i k2 Hr Hd Hk Hk2.
  - assert (p = length data) as -> by lia. rewrite Nat.leb_refl in Hr.
    destruct (@where_iter_seg data k2 g w 0 i) as (c & Hi & Hc); auto.
    { now destruct (length data <=? 0). }
    exists c. rewrite skipn_all. cbn [Nat.add app] in *. split; assumption.
  - assert (Hp : p < length data) by lia.
    destruct (Nat.leb_spec (length data) p); [lia|].
    destruct (nth_error data p) as [x|] eqn:Hx; [| apply nth_error_None in Hx; lia].
    destruct (where_draw_replay g w Hr Hd Hx) as (Hdr & Hr').
    cbn [where_iter Nat.add]. unfold bind at 1. rewrite Hdr.
    destruct (IH (set_where_cycle g (mkCycle None data (if length data <=? S p then 0 else S p)))
                w (S p) (S i) k2) as (c & Hi & Hc); auto; [lia|].
    rewrite (skipn_cons_nth _ _ Hx). cbn [filter].
    change (predicate eqb inner_key w
              (set_where_cycle g (mkCycle None data (if length data <=? S p then 0 else S p))))
      with (predicate eqb inner_key w g) in *.
    exists c. unfold bind, ret. rewrite Hi.
    destruct (predicate eqb inner_key w g x); split; auto.
Qed.

(** [len] of a grouping whose [where] node has been traversed before:
    the traversal goes once round the inner list from where the cycle
    stands, and leaves the cycle there. *)
Lemma grouping_len_replay (data : list (elem B)) (fuel : nat) (g : WhereGrouping B K)
  (w : World B K) (q : nat) :
  replay_at data (where_cycle g) q ->
  _data (inner_enumerable w) = data ->
  exists c,
    grouping_len eqb inner_key fuel (g, w)
    = Some (length (filter (predicate eqb inner_key w g) data), (set_where_cycle g c, w)) /\
    replay_at data c q.
Proof.
  intros Hr Hd. pose proof (replay_at_lt Hr) as Hq.
  destruct (@where_iter_round data (length data - q) g w q 0 q) as (c & Hi & Hc);
    try lia.
  { destruct (Nat.leb_spec (length data) q); [lia | assumption]. }
  { assumption. }
  exists c. unfold grouping_len, bind, ret, len. rewrite Hd.
  replace (length data) with (length data - q + q) at 1 by lia.
  rewrite Hi. split.
  - do 2 f_equal. rewrite length_app, Nat.add_comm, <- length_app, <- filter_app.
    now rewrite firstn_skipn.
  - destruct (Nat.leb_spec (length data) q); [lia | assumption].
Qed.

(** The generator of the [where] node that the cycle of the grouping
    reads, resumed: it goes on to the next element that satisfies the
    predicate. *)
Lemma where_resume_replay (data : list (elem B)) (k : nat) :
  forall (g : WhereGrouping B K) (w : World B K) (i : nat) (x : elem B)
         (rest : list (elem B)),
    replay_at data (where_cycle g) i ->
    _data (inner_enumerable w) = data ->
    i + k = length data ->
    filter (predicate eqb inner_key w g) (skipn i data) = x :: rest ->
    exists j c,
      where_resume eqb inner_key k i (g, w)
      = Some ((Some x, S j), (set_where_cycle g c, w)) /\
      S j <= length data /\
      filter (predicate eqb inner_key w g) (skipn (S j) data) = rest /\
      replay_at data c (if length data <=? S j then 0 else S j).
Proof.
  induction k as [|k IH]; intros g w i x rest Hr Hd Hk Hf;
    pose proof (replay_at_lt Hr) as Hi; [lia|].
  destruct (nth_error data i) as [x0|] eqn:Hx; [| apply nth_error_None in Hx; lia].
  destruct (where_draw_replay g w Hr Hd Hx) as (Hdr & Hr').
  cbn [where_resume]. unfold bind at 1. rewrite Hdr.
  rewrite (skipn_cons_nth _ _ Hx) in Hf. cbn [filter] in Hf.
  change (predicate eqb inner_key w
            (set_where_cycle g (mkCycle None data (if length data <=? S i then 0 else S i))))
    with (predicate eqb inner_key w g) in *.
  destruct (predicate eqb inner_key w g x0) eqn:Hp.
  - injection Hf as -> Hrest. exists i. eexists. split; [reflexivity|].
    split; [lia|]. split; assumption.
  - destruct (Nat.leb_spec (length data) (S i)) as [Hle|Hgt].
    { rewrite skipn_all2 in Hf by lia. discriminate. }
    destruct (IH (set_where_cycle g (mkCycle None data (S i))) w (S i) x rest)
      as (j & c & Hw & Hj & Hfj & Hc); auto; [lia|].
    exists j, c. split; [exact Hw | auto].
Qed.

(** The loop of the inherited [__iter__] on a grouping, after its test
    [i < len(self)] has found [n], the number of elements of the inner
    list that satisfy the predicate: each turn resumes the generator of
    the [where] node, and evaluates [len(self)] again. *)
Lemma grouping_rest_replay (data : list (elem B)) (w : World B K) (g0 : WhereGrouping B K) :
  _data (inner_enumerable w) = data ->
  forall (rest : list (elem B)) (f idx : nat) (g : WhereGrouping B K) (i : nat)
         (sv : list (elem B)),
    closure_frame g = closure_frame g0 ->
    replay_at data (where_cycle g) (if length data <=? i then 0 else i) ->
    i <= length data ->
    grouping_cycle g = mkCycle (Some i) sv 0 ->
    filter (predicate eqb inner_key w g0) (skipn i data) = rest ->
    idx + length rest = length (filter (predicate eqb inner_key w g0) data) ->
    length rest <= f ->
    exists g',
      (if idx <? length (filter (predicate eqb inner_key w g0) data) then
         r <- grouping_next eqb inner_key f ;;
         match r with
         | Some x =>
             xs <- inherited_iter (grouping_len eqb inner_key) (grouping_next eqb inner_key)
                     f (S idx) ;;
             ret (x :: xs)
         | None => ret []
         end
       else ret []) (g, w)
      = Some (rest, (g', w)).
Proof.
  intros Hd. induction rest as [|x rest IH]; intros f idx g i sv Hcf Hr Hi Hgc Hf Hn Hfuel.
  - cbn [length] in Hn. rewrite Nat.add_0_r in Hn. rewrite <- Hn, Nat.ltb_irrefl.
    exists g. reflexivity.
  - cbn [length] in Hn, Hfuel.
    destruct (Nat.ltb_spec idx (length (filter (predicate eqb inner_key w g0) data)));
      [| lia].
    assert (Hlt : i < length data).
    { destruct (Nat.leb_spec (length data) i); [| assumption].
      rewrite skipn_all2 in Hf by lia. discriminate. }
    destruct (Nat.leb_spec (length data) i); [lia|].
    rewrite <- (@predicate_frame w g0 g Hcf) in Hf.
    destruct (@where_resume_replay data (length data - i) g w i x rest Hr Hd)
      as (j & c & Hw & Hj & Hfj & Hc); [lia | assumption |].
    destruct f as [|f]; [lia|].
    unfold bind at 1. unfold grouping_next at 1. rewrite Hgc.
    unfold cycle_next. cbn [it saved index]. unfold bind at 1.
    unfold where_generator_next, len. rewrite Hd, Hw. unfold ret at 1.
    cbn [set_grouping_cycle].
    cbn [inherited_iter]. unfold bind at 1.
    set (g3 := set_grouping_cycle (set_where_cycle g c) (mkCycle (Some (S j)) (sv ++ [x]) 0)).
    assert (Hcf3 : closure_frame g3 = closure_frame g0) by (rewrite <- Hcf; reflexivity).
    destruct (@grouping_len_replay data f g3 w _ Hc Hd) as (c3 & Hl & Hc3).
    unfold bind at 1. rewrite Hl. rewrite (@predicate_frame w g0 g3 Hcf3).
    rewrite (@predicate_frame w g0 g Hcf) in Hfj.
    destruct (IH f (S idx) (set_where_cycle g3 c3) (S j) (sv ++ [x]))
      as (g' & Hg'); auto; [lia | lia |].
    unfold elem in *. rewrite Hg'. exists g'. reflexivity.
Qed.

(** [to_list] of a grouping that has just been made, while the inner node
    stands at its start and the variable its closure refers to is not
    bound anew: the elements of the inner node that satisfy the predicate.
    The inner node stands at its start again then. *)
Lemma grouping_to_list_new (data : list (elem B)) (fuel : nat) (g : WhereGrouping B K)
  (w : World B K) :
  where_cycle g = cycle_new 0 ->
  grouping_cycle g = cycle_new 0 ->
  _data (inner_enumerable w) = data ->
  at_start (inner_enumerable w) ->
  length data < fuel ->
  exists g' w',
    grouping_to_list eqb inner_key fuel g w
    = Some ((filter (predicate eqb inner_key w g) data, g'), w') /\
    frames w' = frames w /\
    _data (inner_enumerable w') = data /\
    at_start (inner_enumerable w').
Proof.
  intros Hwc Hgc Hd Hs Hfuel.
  destruct fuel as [|f]; [lia|].
  unfold grouping_to_list. cbn [inherited_iter]. unfold bind at 1.
  destruct (length data) as [|l] eqn:El.
  - apply length_zero_iff_nil in El.
    unfold grouping_len, len. rewrite Hd, El. cbn [length where_iter filter].
    exists g, w. repeat split; auto; congruence.
  - assert (Hne : data <> []) by (intros E; rewrite E in El; discriminate).
    assert (Hcur : cursor_at data (_cycle (inner_enumerable w))
                     (if length data <=? 0 then 0 else 0)).
    { destruct (length data <=? 0);
        (destruct Hs as [E|Hc]; [congruence | now rewrite Hd in Hc]). }
    assert (Hwc' : where_cycle g = mkCycle (Some 0) (firstn 0 data) 0)
      by (rewrite firstn_0; exact Hwc).
    destruct (@where_iter_first data (length data) g w 0 0 Hwc' Hd Hcur eq_refl Hne)
      as (d & Hi & Hd' & Hc').
    unfold grouping_len at 1. unfold bind at 1. unfold len. rewrite Hd, Hi.
    unfold ret at 1. unfold skipn.
    set (g1 := set_where_cycle g (mkCycle (Some (length data)) data 0)).
    set (w1 := mkWorld (frames w) d).
    change (predicate eqb inner_key w g) with (predicate eqb inner_key w1 g1).
    assert (Hr1 : replay_at data (where_cycle g1) (if length data <=? 0 then 0 else 0))
      by (destruct (length data <=? 0); now apply replay_wrapped).
    destruct (@grouping_rest_replay data w1 g1 Hd'
                (filter (predicate eqb inner_key w1 g1) data) f 0 g1 0 []
                eq_refl Hr1 (Nat.le_0_l _) Hgc eq_refl eq_refl)
      as (g' & Hg').
    + pose proof (filter_length_le (predicate eqb inner_key w1 g1) data). lia.
    + unfold elem in *. rewrite Hg'. exists g', w1. repeat split; auto.
      right. cbn [w1 inner_enumerable]. now rewrite Hd'.
Qed.

(** The loop of [GroupJoinEnumerable.__iter__] when [result_func] lists
    the grouping it is given: each row holds the elements of the inner
    node whose key equals the key of its outer element. *)
Lemma group_join_loop_listed (ys : list (elem B)) (fuel0 f k : nat) :
  length ys < fuel0 ->
  forall (i fuel : nat) (outer : Enumerable A) (w : World B K),
    (i < length (_data outer) -> cursor_at (_data outer) (_cycle outer) i) ->
    i + k = length (_data outer) ->
    k < fuel ->
    f < length (frames w) ->
    _data (inner_enumerable w) = ys ->
    at_start (inner_enumerable w) ->
    exists self' w',
      group_join_loop outer_key (result_listed eqb inner_key fuel0) fuel f i
        (mkGroupJoin outer) w
      = Some ((map (fun o => (o, filter (fun b => eqb (inner_key b) (outer_key o)) ys))
                   (skipn i (_data outer)), self'), w').
Proof.
  intros Hf0. induction k as [|k IH]; intros i fuel outer w Hc Hk Hf Hfr Hd Hs;
    (destruct fuel as [|fuel]; [lia|]); cbn [group_join_loop gj_data].
  - rewrite iter_next_end by (unfold len; lia).
    exists (mkGroupJoin outer), w. unfold ret.
    rewrite skipn_all2 by lia. reflexivity.
  - assert (Hi : i < length (_data outer)) by lia.
    destruct (nth_error (_data outer) i) as [x|] eqn:Hx;
      [| apply nth_error_None in Hx; lia].
    destruct (iter_next_at outer (Hc Hi) Hx) as (s & Hn & Hdo & Hc').
    rewrite Hn.
    set (w1 := mkWorld (firstn f (frames w) ++ Some (outer_key x) :: skipn (S f) (frames w))
                       (inner_enumerable w)).
    set (g := mkWhereGrouping (mkKey [("id"%string, outer_key x)]) f
                (cycle_new 0) (cycle_new 0) : WhereGrouping B K).
    destruct (@grouping_to_list_new ys fuel0 g w1 eq_refl eq_refl Hd Hs Hf0)
      as (g' & w' & Hg & Hfr' & Hd' & Hs').
    assert (Hlen : length (frames w1) = length (frames w)).
    { cbn [w1 frames]. rewrite length_app. cbn [length].
      rewrite length_firstn, length_skipn. lia. }
    assert (Hp : forall b, predicate eqb inner_key w1 g b = eqb (inner_key b) (outer_key x)).
    { intros b. unfold predicate. cbn [w1 g frames closure_frame].
      rewrite nth_error_app2 by (rewrite length_firstn; lia).
      rewrite length_firstn.
      replace (f - Nat.min f (length (frames w))) with 0 by lia. reflexivity. }
    rewrite (filter_ext _ _ Hp) in Hg.
    destruct (IH (S i) fuel s w') as (self' & w2 & Hl).
    + intros Hlt. apply Hc'. rewrite <- Hdo. exact Hlt.
    + rewrite Hdo. lia.
    + lia.
    + rewrite Hfr', Hlen. exact Hfr.
    + exact Hd'.
    + exact Hs'.
    + unfold bind at 1. unfold group_join_body. fold w1. fold g.
      change (result_listed eqb inner_key fuel0 (x, g) w1)
        with ((r <- grouping_to_list eqb inner_key fuel0 g ;; ret (x, fst r)) w1).
      unfold bind at 1. rewrite Hg. unfold ret at 1. cbn [fst].
      unfold bind, ret. rewrite Hl. cbn [fst snd].
      exists self', w2. rewrite (skipn_cons_nth _ _ Hx). cbn [map].
      rewrite Hdo. reflexivity.
Qed.

(** X23.  [group_join] of two nodes built over lists, with a
    [result_func] that lists the grouping it is given before it returns,
    [lambda r: (r[0], r[1].to_list())]: a traversal gives one row for each
    element of the outer node, in order, also for those without a match,
    and the row holds the elements of the inner node, in their order,
    whose key equals the key of the outer element. *)
Theorem group_join_lists_the_matching_inner_elements
  (fuel : nat) (xs : list (elem A)) (ys : list (elem B)) :
  length xs < fuel ->
  length ys < fuel ->
  option_map fst
    (group_join_listed eqb outer_key inner_key fuel
       (fst (group_join K (Enumerable_init xs) (Enumerable_init ys)))
       (snd (group_join K (Enumerable_init xs) (Enumerable_init ys))))
  = Some (map (fun o => (o, filter (fun b => eqb (inner_key b) (outer_key o)) ys)) xs).
Proof.
  intros Hx Hy. cbn [group_join fst snd].
  unfold group_join_listed, group_join_to_list, bind. cbn [frames inner_enumerable length app].
  destruct (@group_join_loop_listed ys fuel 0 (length xs) Hy 0 fuel (Enumerable_init xs)
              (mkWorld [None] (Enumerable_init ys)))
    as (self' & w' & Hl); auto.
  - intros Hlt. destruct (Enumerable_init_at_start xs) as [E|Hc]; [| exact Hc].
    rewrite E in Hlt. simpl in Hlt. lia.
  - apply Enumerable_init_at_start.
  - unfold elem in *. rewrite Hl. reflexivity.
Qed.

End GroupJoinListed.

Lemma group_join_lists_the_matching_inner_elements_witness :
  option_map fst
    (group_join_listed Z.eqb
       (fun o => match o with Some z => z | None => 0%Z end)
       (fun i => match i with Some (z, _) => z | None => 0%Z end)
       4
       (fst (group_join Z (Enumerable_init [Some 1%Z; Some 2%Z; Some 3%Z])
               (Enumerable_init [Some (1, 10)%Z; Some (2, 12)%Z; Some (1, 11)%Z])))
       (snd (group_join Z (Enumerable_init [Some 1%Z; Some 2%Z; Some 3%Z])
               (Enumerable_init [Some (1, 10)%Z; Some (2, 12)%Z; Some (1, 11)%Z]))))
  = Some [(Some 1%Z, [Some (1, 10)%Z; Some (1, 11)%Z]);
          (Some 2%Z, [Some (2, 12)%Z]);
          (Some 3%Z, [])].
Proof.
  apply (@group_join_lists_the_matching_inner_elements Z (Z * Z) Z Z.eqb
           (fun o => match o with Some z => z | None => 0%Z end)
           (fun i => match i with Some (z, _) => z | None => 0%Z end)
           4 [Some 1%Z; Some 2%Z; Some 3%Z]
           [Some (1, 10)%Z; Some (2, 12)%Z; Some (1, 11)%Z]); simpl; lia.
Defined.

(** ** [order_by] of a node that is not a list *)

Section OrderSteady.

Variable A : Type.

(** A sorted node holds a list of its own and is steady. *)
Lemma sorted_node_steady (l : list (elem A)) :
  steady (fun s : SortedEnumerable A => list_at_start l (sorted_enumerable s))
         (length l) l 0.
Proof.
  intros fuel [e kf] [Hd Hs] _. cbn [sorted_enumerable] in *. split.
  - eexists. cbn [node_len SortedEnumerable_Node sorted_enumerable]. unfold len.
    rewrite Hd. split; [reflexivity|]. split; assumption.
  - destruct (to_list_at_start Hs) as (e' & Hl & Hd' & Hs').
    exists (mkSorted e' kf). cbn [node_iter SortedEnumerable_Node sorted_enumerable _key_funcs].
    rewrite Hl, Hd. split; [reflexivity|]. split; [congruence | assumption].
Qed.

Context {N : Type} `{Node A N}.

Variable Inv : N -> Prop.
Variable l : nat.
Variable xs : list (elem A).
Variable F : nat.

Hypothesis Hsteady : steady Inv l xs F.

(** [order_by] and [order_by_descending] traverse their receiver once
    and sort what it yields. *)
Lemma order_call_steady (fuel : nat) (o : OrderingDirection A) (s : N) :
  Inv s -> F <= fuel ->
  exists s',
    order_call fuel o s
    = Some (mkSorted (Enumerable_init (sort_passes [o] xs))
              [mkOrderingDirection (key o) (descending o)], s') /\
    Inv s'.
Proof.
  intros Hs Hf. destruct (steady_iter Hsteady _ Hs Hf) as (s' & Hi & Hs').
  exists s'. split; [| assumption].
  unfold order_call, order_by, order_by_descending, SortedEnumerable_init, bind, ret.
  destruct o as [k [|]]; cbn [key descending]; rewrite Hi; reflexivity.
Qed.

End OrderSteady.

(** The first element of a list sorted by a directive comes before every
    element of it. *)
Lemma sorted_head_least (A : Type) (o : OrderingDirection A) (data : list (elem A))
  (a : elem A) (rest : list (elem A)) :
  sort_passes [o] data = a :: rest ->
  forall y, In y data -> directive_le o a y.
Proof.
  intros E y Hy.
  pose proof (sort_passes_sorted [o] data) as Hs.
  pose proof (sort_passes_perm [o] data) as Hp.
  rewrite E in Hs, Hp.
  apply (Permutation_in _ Hp) in Hy.
  inversion Hs as [|a' rest' _ Hall]; subst.
  destruct Hy as [<- | Hy].
  - unfold directive_le. destruct (descending o); lia.
  - rewrite Forall_forall in Hall. apply Hall in Hy. cbn [lex_le] in Hy. tauto.
Qed.

Lemma length_zero_iff_nil_l (A : Type) (l : list (elem A)) : length l = 0 -> l = [].
Proof. apply length_zero_iff_nil. Qed.

(** X24.  [where(predicate).order_by(key)] and
    [where(predicate).order_by_descending(key)] on a node built over a
    list give a node that yields, at each of any number of traversals, one
    and the same rearrangement of the elements that satisfy the predicate;
    [first()] of it returns an element of least key, of greatest key when
    descending, and raises [IndexError] when no element satisfies the
    predicate or the element it would return is [None]. *)
Theorem order_by_of_where_starts_with_the_extreme_key
  (A : Type) (fuel n : nat) (k : elem A -> Z) (desc : bool) (predicate : elem A -> bool)
  (data : list (elem A)) :
  exists node s l,
    order_call fuel (mkOrderingDirection k desc) (where_ predicate (Enumerable_init data))
    = Some (node, s) /\
    Permutation (filter predicate data) l /\
    (exists s', successive n (node_iter fuel) node = Some (repeat l n, s')) /\
    (exists s',
       first fuel node
       = Some (match l with Some a :: _ => Return (Some a) | _ => Raise IndexError end, s')) /\
    (forall a rest y,
       l = a :: rest -> In y data -> predicate y = true ->
       if desc then (k y <= k a)%Z else (k a <= k y)%Z).
Proof.
  pose proof (@where_steady A predicate data) as H0.
  pose proof (where_init_at_start predicate data) as Hi.
  destruct (@order_call_steady A _ _ _ _ _ _ H0 fuel (mkOrderingDirection k desc) _ Hi)
    as (s & Ho & _); [lia|].
  cbn [key descending] in Ho.
  set (l := sort_passes [mkOrderingDirection k desc] (filter predicate data)) in *.
  pose proof (@sorted_node_steady A l) as H1.
  assert (Hl : list_at_start l
                 (sorted_enumerable
                    (mkSorted (Enumerable_init l) [mkOrderingDirection k desc])))
    by apply Enumerable_init_list_at_start.
  destruct (successive_steady H1 n (fuel := fuel) _ Hl) as (s1 & Hk & _); [lia|].
  destruct (first_steady H1 (@length_zero_iff_nil_l A l) _ Hl (Nat.le_0_l fuel)) as (s2 & Hf & _).
  eexists _, s, l. split; [exact Ho|].
  split; [apply sort_passes_perm|].
  split; [eauto|]. split; [eauto|].
  intros a rest y E Hy Hp.
  assert (Hin : In y (filter predicate data)) by (apply filter_In; auto).
  pose proof (sorted_head_least _ _ E y Hin) as Hle.
  unfold directive_le in Hle. cbn [descending key] in Hle. exact Hle.
Qed.
